(** * Column vector batches, string dictionaries and bloom filters

    A shallow embedding of
    - [be/src/storage/rowset/segment_v2/bloom_filter.h] (class [BloomFilter]),
    - the ORC [Vector.hh] header ([StringDictionary], the
      [ColumnVectorBatch] family)
    and the properties their specification states about them. *)

From Stdlib Require Import ZArith Lia Bool List Reals Lra Floats.
From stdpp Require Import base tactics option list numbers strings pretty.

Local Open Scope Z_scope.

(** ** Fixed-width integers

    C++ integers are modelled as [Z]; every conversion and every
    arithmetic result of an unsigned type is reduced explicitly. *)

Module Int.

Definition wrap_unsigned (w x : Z) : Z := x mod 2 ^ w.

Definition wrap_signed (w x : Z) : Z :=
  (x + 2 ^ (w - 1)) mod 2 ^ w - 2 ^ (w - 1).

Definition to_u8 : Z → Z := wrap_unsigned 8.
Definition to_u32 : Z → Z := wrap_unsigned 32.
Definition to_u64 : Z → Z := wrap_unsigned 64.
Definition to_i32 : Z → Z := wrap_signed 32.
Definition to_i64 : Z → Z := wrap_signed 64.

Definition is_u32 (x : Z) : Prop := 0 ≤ x < 2 ^ 32.
Definition is_u64 (x : Z) : Prop := 0 ≤ x < 2 ^ 64.
Definition is_i64 (x : Z) : Prop := - 2 ^ 63 ≤ x < 2 ^ 63.

Lemma to_u32_id x : is_u32 x → to_u32 x = x.
Proof. intros Hx. apply Z.mod_small. exact Hx. Qed.

Lemma to_u64_id x : is_u64 x → to_u64 x = x.
Proof. intros Hx. apply Z.mod_small. exact Hx. Qed.

Lemma to_i64_id x : is_i64 x → to_i64 x = x.
Proof.
  unfold is_i64, to_i64, wrap_signed. intros Hx.
  rewrite Z.mod_small; lia.
Qed.

Lemma to_u32_range x : is_u32 (to_u32 x).
Proof. apply Z.mod_pos_bound. reflexivity. Qed.

Lemma to_u64_range x : is_u64 (to_u64 x).
Proof. apply Z.mod_pos_bound. reflexivity. Qed.

End Int.

Import Int.

(** ** Outcomes of a call

    A call either returns, or the process stops: a [DCHECK] that fails in a
    build that compiles them in, a C++ exception, or a step whose
    behaviour C++ leaves undefined (a null or out-of-bounds access). *)

Inductive crash : Type :=
  | CheckFailed                       (* DCHECK(...) aborted the process *)
  | OutOfRange (what : string)        (* throw std::out_of_range(what) *)
  | BadFunctionCall                   (* call of an empty std::function *)
  | NullDeref                         (* access through nullptr *)
  | OutOfBounds.                      (* access outside an allocation *)

Inductive outcome (A : Type) : Type :=
  | Returned (a : A)
  | Crash (c : crash).

Arguments Returned {A} a.
Arguments Crash {A} c.

Definition obind {A B} (m : outcome A) (k : A → outcome B) : outcome B :=
  match m with
  | Returned a => k a
  | Crash c => Crash c
  end.

Notation "'let*' x := m 'in' k" := (obind m (fun x => k))
  (at level 10, x name, m at level 100, k at level 200, only parsing).

Definition deref {A} (p : option A) : outcome A :=
  match p with
  | Some a => Returned a
  | None => Crash NullDeref
  end.

(** ** StringDictionary (Vector.hh) *)

Module Dictionary.

(** [DataBuffer<char> dictionaryBlob] and [DataBuffer<int64_t>
    dictionaryOffset].  A [char*] into the blob is represented by its
    distance from [dictionaryBlob.data()]. *)
Record StringDictionary : Type := {
  dictionaryBlob : list Z;
  dictionaryOffset : list Z
}.

(** [dictionaryOffset.size()] *)
Definition offsetCount (d : StringDictionary) : Z :=
  Z.of_nat (length (dictionaryOffset d)).

(** The offsets buffer holds [keyCount + 1] entries. *)
Definition keyCount (d : StringDictionary) : Z := offsetCount d - 1.

(** [void getValueByIndex(int64_t index, char*& valPtr, int64_t& length)];
    the two reference parameters are the returned pair. *)
Definition getValueByIndex (d : StringDictionary) (index : Z)
  : outcome (Z * Z) :=
  if (index <? 0) || (offsetCount d <=? to_u64 (to_u64 index + 1)) then
    Crash (OutOfRange "index out of range.")
  else
    let offsetPtr := dictionaryOffset d in
    let valPtr := offsetPtr !!! Z.to_nat index in
    let length := to_i64 (offsetPtr !!! Z.to_nat (index + 1)
                          - offsetPtr !!! Z.to_nat index) in
    Returned (valPtr, length).

(** The bytes a returned view denotes. *)
Definition view (d : StringDictionary) (v : Z * Z) : list Z :=
  take (Z.to_nat (snd v)) (drop (Z.to_nat (fst v)) (dictionaryBlob d)).

Definition dict_abc : StringDictionary :=
  {| dictionaryBlob := [97; 98; 98; 99; 99; 99];
     dictionaryOffset := [0; 1; 3; 6] |}.

Example getValueByIndex_abc_1 :
  getValueByIndex dict_abc 1 = Returned (1, 2).
Proof. reflexivity. Qed.

Example getValueByIndex_abc_view :
  view dict_abc (1, 2) = [98; 98].
Proof. reflexivity. Qed.

Example getValueByIndex_abc_3 :
  getValueByIndex dict_abc 3 = Crash (OutOfRange "index out of range.").
Proof. reflexivity. Qed.

Lemma getValueByIndex_guard (d : StringDictionary) (index : Z) :
  is_i64 index →
  (((index <? 0) || (offsetCount d <=? to_u64 (to_u64 index + 1)))%Z = true
   ↔ index < 0 ∨ offsetCount d ≤ index + 1).
Proof.
  intros Hi. rewrite orb_true_iff, Z.ltb_lt, Z.leb_le.
  split.
  - intros [Hneg | Hbig]; [left; exact Hneg |].
    destruct (Z_lt_le_dec index 0) as [Hlt | Hge]; [left; exact Hlt | right].
    rewrite (to_u64_id index) in Hbig by (unfold is_u64, is_i64 in *; lia).
    rewrite to_u64_id in Hbig by (unfold is_u64, is_i64 in *; lia).
    lia.
  - intros [Hneg | Hbig]; [left; exact Hneg |].
    destruct (Z_lt_le_dec index 0) as [Hlt | Hge]; [left; exact Hlt | right].
    rewrite (to_u64_id index) by (unfold is_u64, is_i64 in *; lia).
    rewrite to_u64_id by (unfold is_u64, is_i64 in *; lia).
    lia.
Qed.

(** C3. [getValueByIndex code] throws out-of-range exactly when
    [code < 0] or [code + 1 >= dictionaryOffset.size()], hence for
    [code = keyCount] and for [code = -1]; for every [code] in
    [[0, keyCount)] it returns the pointer [dictionaryBlob +
    offsets[code]] and the length [offsets[code+1] - offsets[code]]
    (the [int64_t] difference, which is the exact one whenever that
    fits). *)
Theorem getValueByIndex_bounds (d : StringDictionary) (code : Z) :
  is_i64 code →
  (getValueByIndex d code = Crash (OutOfRange "index out of range.")
   ↔ code < 0 ∨ offsetCount d ≤ code + 1)
  ∧ (code = keyCount d ∨ code = -1 →
     getValueByIndex d code = Crash (OutOfRange "index out of range."))
  ∧ (0 ≤ code < keyCount d →
     ∃ lo hi : Z,
       dictionaryOffset d !! Z.to_nat code = Some lo
       ∧ dictionaryOffset d !! Z.to_nat (code + 1) = Some hi
       ∧ getValueByIndex d code = Returned (lo, to_i64 (hi - lo))
       ∧ (is_i64 (hi - lo) →
          getValueByIndex d code = Returned (lo, hi - lo))).
Proof.
  intros Hi.
  pose proof (getValueByIndex_guard d code Hi) as Hguard.
  assert (Hfail : getValueByIndex d code
                  = Crash (OutOfRange "index out of range.")
                  ↔ code < 0 ∨ offsetCount d ≤ code + 1).
  { rewrite <- Hguard. unfold getValueByIndex.
    destruct ((code <? 0) || (offsetCount d <=? to_u64 (to_u64 code + 1)));
      split; intros H; try reflexivity; discriminate H. }
  split; [exact Hfail | split].
  - intros Hc. apply Hfail. unfold keyCount in Hc. lia.
  - intros Hc. unfold keyCount, offsetCount in Hc.
    destruct (lookup_lt_is_Some_2 (dictionaryOffset d) (Z.to_nat code))
      as [lo Hlo]; [lia |].
    destruct (lookup_lt_is_Some_2 (dictionaryOffset d) (Z.to_nat (code + 1)))
      as [hi Hhi]; [lia |].
    exists lo, hi.
    assert (Hok : getValueByIndex d code = Returned (lo, to_i64 (hi - lo))).
    { assert (Hg : (code <? 0)
                   || (offsetCount d <=? to_u64 (to_u64 code + 1)) = false).
      { apply not_true_iff_false. intros Hg. apply Hguard in Hg.
        unfold offsetCount in Hg. lia. }
      unfold getValueByIndex. rewrite Hg.
      rewrite (list_lookup_total_correct _ _ _ Hlo).
      rewrite (list_lookup_total_correct _ _ _ Hhi). reflexivity. }
    repeat split; try assumption.
    intros Hfit. rewrite Hok, to_i64_id by exact Hfit. reflexivity.
Qed.

Lemma getValueByIndex_bounds_witness :
  getValueByIndex dict_abc 2 = Returned (3, 3).
Proof.
  assert (Hi : is_i64 2) by (unfold is_i64; lia).
  destruct (getValueByIndex_bounds dict_abc 2 Hi) as (_ & _ & Hin).
  destruct Hin as (lo & hi & Hlo & Hhi & _ & Hexact).
  - vm_compute. split; [discriminate | reflexivity].
  - vm_compute in Hlo, Hhi.
    injection Hlo as <-. injection Hhi as <-.
    apply Hexact. unfold is_i64. lia.
Defined.

End Dictionary.

(** ** BloomFilter (bloom_filter.h) *)

Module Bloom.

(** [HashStrategyPB] is a protobuf enum: an [int] on the C++ side. *)
Definition HashStrategyPB : Type := Z.

Inductive Status : Type :=
  | OK
  | InvalidArgument (msg : string).

(** [_hash_func] is a [std::function] from [(const void* key, const int
    len, const uint64_t seed, void* out)] to [void]:
    the bytes at the first argument, the length and the seed give the
    value stored through the last argument. *)
Definition hash_func_t : Type := list Z → Z → Z → Z.

(** The fields of [class BloomFilter].  [_data] is [None] for [nullptr];
    [_has_null] points into the allocation of [_data] and is kept as its
    distance from [_data], so that a store through it is a store into the
    buffer. *)
Record BloomFilter : Type := mkBloomFilter {
  _data : option (list Z);
  _num_bytes : Z;
  _size : Z;
  _has_null : option Z;
  _hash_func : option hash_func_t
}.

Definition DEFAULT_SEED : Z := 1575457558.
Definition MINIMUM_BYTES : Z := 32.
Definition MAXIMUM_BYTES : Z := 128 * 1024 * 1024.

(** [BloomFilter() : _data(nullptr), _num_bytes(0), _size(0),
    _has_null(nullptr)] *)
Definition BloomFilter_ctor : BloomFilter :=
  {| _data := None; _num_bytes := 0; _size := 0;
     _has_null := None; _hash_func := None |}.

Definition with_data (d : list Z) (bf : BloomFilter) : BloomFilter :=
  {| _data := Some d; _num_bytes := _num_bytes bf; _size := _size bf;
     _has_null := _has_null bf; _hash_func := _hash_func bf |}.

Definition with_hash_func (f : hash_func_t) (bf : BloomFilter) : BloomFilter :=
  {| _data := _data bf; _num_bytes := _num_bytes bf; _size := _size bf;
     _has_null := _has_null bf; _hash_func := Some f |}.

(** The two pure virtual members, [add_hash] and [test_hash]. *)
Class BloomFilterImpl : Type := {
  add_hash : Z → BloomFilter → outcome BloomFilter;
  test_hash : Z → BloomFilter → outcome bool
}.

(** [memset(p, c, n)] and [memcpy(dst, src, n)] on buffers of known
    extent. *)
Definition memset (d : list Z) (c n : Z) : outcome (list Z) :=
  if Z.of_nat (length d) <? n then Crash OutOfBounds
  else Returned (replicate (Z.to_nat n) c ++ drop (Z.to_nat n) d).

Definition memcpy (src : list Z) (n : Z) : outcome (list Z) :=
  if Z.of_nat (length src) <? n then Crash OutOfBounds
  else Returned (take (Z.to_nat n) src).

(** A store and a load of one byte at distance [p]. *)
Definition store (d : list Z) (p v : Z) : outcome (list Z) :=
  if (0 <=? p) && (p <? Z.of_nat (length d))
  then Returned (<[Z.to_nat p := v]> d)
  else Crash OutOfBounds.

Definition load (d : list Z) (p : Z) : outcome Z :=
  if 0 <=? p then
    match d !! Z.to_nat p with
    | Some v => Returned v
    | None => Crash OutOfBounds
    end
  else Crash OutOfBounds.

Section Base.

(** Whether [DCHECK]s are compiled in. *)
Variable dchecks : bool.

(** The enum constant of [gen_cpp/segment_v2.pb.h], the hash function of
    [util/murmur_hash3.h] and the private member [_optimal_bit_num], which
    the header declares and [init] calls. *)
Variable HASH_MURMUR3_X64_64 : HashStrategyPB.
Variable murmur_hash3_x64_64 : hash_func_t.
Variable _optimal_bit_num : Z → float → Z.

Context {impl : BloomFilterImpl}.

Definition DCHECK {A} (cond : bool) (k : outcome A) : outcome A :=
  if dchecks && negb cond then Crash CheckFailed else k.

(** [Status init(uint64_t n, double fpp, HashStrategyPB strategy)], for
    write.  The object before the call is [bf]; the returned pair is
    the status and the object after the call.  What [new char[_size]]
    holds does not matter: [memset] overwrites all of it. *)
Definition init_for_write (n : Z) (fpp : float) (strategy : HashStrategyPB)
    (bf : BloomFilter) : outcome (Status * BloomFilter) :=
  if decide (strategy = HASH_MURMUR3_X64_64) then
    let num_bytes := to_u32 (_optimal_bit_num n fpp) / 8 in
    DCHECK (Z.land num_bytes (to_u32 (num_bytes - 1)) =? 0) (
      let size := to_u32 (num_bytes + 1) in
      let* data := memset (replicate (Z.to_nat size) 0) 0 size in
      let* data := store data num_bytes 0 in
      Returned (OK, {| _data := Some data; _num_bytes := num_bytes;
                       _size := size; _has_null := Some num_bytes;
                       _hash_func := Some murmur_hash3_x64_64 |}))
  else
    Returned (InvalidArgument ("invalid strategy:" +:+ pretty strategy), bf).

(** [Status init(const char* buf, uint32_t size, HashStrategyPB
    strategy)], for read. *)
Definition init_for_read (buf : list Z) (size : Z) (strategy : HashStrategyPB)
    (bf : BloomFilter) : outcome (Status * BloomFilter) :=
  DCHECK (1 <? size) (
    if decide (strategy = HASH_MURMUR3_X64_64) then
      let bf := with_hash_func murmur_hash3_x64_64 bf in
      if size =? 0 then
        Returned (InvalidArgument ("invalid size:" +:+ pretty size), bf)
      else
        let* data := memcpy buf size in
        let num_bytes := to_u32 (size - 1) in
        Returned (OK, {| _data := Some data; _num_bytes := num_bytes;
                         _size := size; _has_null := Some num_bytes;
                         _hash_func := _hash_func bf |})
    else
      Returned (InvalidArgument ("invalid strategy:" +:+ pretty strategy), bf)).

(** [void reset() { memset(_data, 0, _size); }] *)
Definition reset (bf : BloomFilter) : outcome BloomFilter :=
  let* d := deref (_data bf) in
  let* d := memset d 0 (_size bf) in
  Returned (with_data d bf).

(** [uint64_t hash(const char* buf, uint32_t size) const] *)
Definition hash (buf : list Z) (size : Z) (bf : BloomFilter) : outcome Z :=
  match _hash_func bf with
  | Some f => Returned (to_u64 (f buf (to_i32 size) DEFAULT_SEED))
  | None => Crash BadFunctionCall
  end.

(** [void set_has_null(bool has_null) { *_has_null = has_null; }] *)
Definition set_has_null (has_null : bool) (bf : BloomFilter)
  : outcome BloomFilter :=
  let* p := deref (_has_null bf) in
  let* d := deref (_data bf) in
  let* d := store d p (if has_null then 1 else 0) in
  Returned (with_data d bf).

(** [bool has_null() const { return *_has_null; }] *)
Definition has_null (bf : BloomFilter) : outcome bool :=
  let* p := deref (_has_null bf) in
  let* d := deref (_data bf) in
  let* v := load d p in
  Returned (negb (v =? 0)).

(** [void add_bytes(const char* buf, uint32_t size)]; [buf] is [None]
    for [nullptr]. *)
Definition add_bytes (buf : option (list Z)) (size : Z) (bf : BloomFilter)
  : outcome BloomFilter :=
  match buf with
  | None => set_has_null true bf
  | Some b =>
      let* code := hash b size bf in
      add_hash code bf
  end.

(** [bool test_bytes(const char* buf, uint32_t size) const] *)
Definition test_bytes (buf : option (list Z)) (size : Z) (bf : BloomFilter)
  : outcome bool :=
  match buf with
  | None => has_null bf
  | Some b =>
      let* code := hash b size bf in
      test_hash code bf
  end.

Definition data (bf : BloomFilter) : option (list Z) := _data bf.
Definition num_bytes (bf : BloomFilter) : Z := _num_bytes bf.
Definition size (bf : BloomFilter) : Z := _size bf.

(** *** Histories of a filter *)

Inductive op : Type :=
  | AddBytes (buf : option (list Z)) (size : Z)
  | AddHash (h : Z)
  | SetHasNull (b : bool)
  | Reset.

Definition exec (o : op) (bf : BloomFilter) : outcome BloomFilter :=
  match o with
  | AddBytes buf size => add_bytes buf size bf
  | AddHash h => add_hash h bf
  | SetHasNull b => set_has_null b bf
  | Reset => reset bf
  end.

Fixpoint run (ops : list op) (bf : BloomFilter) : outcome BloomFilter :=
  match ops with
  | [] => Returned bf
  | o :: ops => let* bf := exec o bf in run ops bf
  end.

Definition is_reset (o : op) : bool :=
  match o with Reset => true | _ => false end.

(** A filter whose [init] returned [OK] ... *)
Definition init_succeeded (bf : BloomFilter) : Prop :=
  (∃ n fpp strategy bf0,
      init_for_write n fpp strategy bf0 = Returned (OK, bf))
  ∨ (∃ buf size strategy bf0,
      is_u32 size ∧ init_for_read buf size strategy bf0 = Returned (OK, bf)).

(** ... and that has been used through its public members since. *)
Inductive live : BloomFilter → Prop :=
  | live_init bf : init_succeeded bf → live bf
  | live_step o bf bf' : live bf → exec o bf = Returned bf' → live bf'.

(** The layout both [init]s establish. *)
Definition layout_ok (bf : BloomFilter) : Prop :=
  ∃ d, _data bf = Some d
       ∧ Z.of_nat (length d) = _size bf
       ∧ _size bf = _num_bytes bf + 1
       ∧ 0 ≤ _num_bytes bf
       ∧ is_u32 (_size bf)
       ∧ _has_null bf = Some (_num_bytes bf)
       ∧ _hash_func bf = Some murmur_hash3_x64_64.

(** What the base class relies on in a subclass: an [add_hash] that
    returns has left the layout alone. *)
Class BloomFilterImplOk : Prop := {
  add_hash_layout : ∀ h bf bf',
    layout_ok bf → add_hash h bf = Returned bf' → layout_ok bf'
}.

(** *** Buffers *)

Lemma memset_fresh (n : Z) :
  0 ≤ n →
  memset (replicate (Z.to_nat n) 0) 0 n = Returned (replicate (Z.to_nat n) 0).
Proof.
  intros Hn. unfold memset. rewrite length_replicate.
  destruct (Z.ltb_spec (Z.of_nat (Z.to_nat n)) n) as [Hlt | _]; [lia |].
  rewrite drop_ge by (rewrite length_replicate; lia).
  rewrite app_nil_r. reflexivity.
Qed.

Lemma memset_whole (d : list Z) (n : Z) :
  Z.of_nat (length d) = n →
  memset d 0 n = Returned (replicate (Z.to_nat n) 0).
Proof.
  intros Hn. unfold memset.
  destruct (Z.ltb_spec (Z.of_nat (length d)) n) as [Hlt | _]; [lia |].
  rewrite drop_ge by lia. rewrite app_nil_r. reflexivity.
Qed.

Lemma store_in_range (d : list Z) (p v : Z) :
  0 ≤ p < Z.of_nat (length d) →
  store d p v = Returned (<[Z.to_nat p := v]> d).
Proof.
  intros Hp. unfold store.
  destruct (Z.leb_spec 0 p); [| lia].
  destruct (Z.ltb_spec p (Z.of_nat (length d))); [| lia].
  reflexivity.
Qed.

Lemma load_store (d : list Z) (p v : Z) :
  0 ≤ p < Z.of_nat (length d) →
  load (<[Z.to_nat p := v]> d) p = Returned v.
Proof.
  intros Hp. unfold load.
  destruct (Z.leb_spec 0 p); [| lia].
  rewrite list_lookup_insert_eq by lia. reflexivity.
Qed.

Lemma load_zeros (n p : Z) :
  0 ≤ p < n → load (replicate (Z.to_nat n) 0) p = Returned 0.
Proof.
  intros Hp. unfold load.
  destruct (Z.leb_spec 0 p); [| lia].
  rewrite lookup_replicate_2 by lia. reflexivity.
Qed.

Lemma num_bytes_fits (x : Z) :
  0 ≤ to_u32 x / 8 ∧ to_u32 (to_u32 x / 8 + 1) = to_u32 x / 8 + 1.
Proof.
  pose proof (to_u32_range x) as Hx. unfold is_u32 in Hx.
  assert (to_u32 x / 8 < 2 ^ 29) by (apply Z.div_lt_upper_bound; lia).
  assert (0 ≤ to_u32 x / 8) by (apply Z.div_pos; lia).
  split; [assumption |]. apply to_u32_id. unfold is_u32. lia.
Qed.

(** *** What a successful [init] leaves *)

Lemma DCHECK_returned {A} (cond : bool) (k : outcome A) (a : A) :
  DCHECK cond k = Returned a → k = Returned a.
Proof. unfold DCHECK. destruct (dchecks && negb cond); [discriminate | auto]. Qed.

Lemma init_for_write_inv n fpp strategy bf0 st bf :
  init_for_write n fpp strategy bf0 = Returned (st, bf) →
  (strategy = HASH_MURMUR3_X64_64
   ∧ st = OK
   ∧ bf = {| _data := Some (replicate
                              (Z.to_nat (to_u32 (_optimal_bit_num n fpp) / 8 + 1)) 0);
             _num_bytes := to_u32 (_optimal_bit_num n fpp) / 8;
             _size := to_u32 (_optimal_bit_num n fpp) / 8 + 1;
             _has_null := Some (to_u32 (_optimal_bit_num n fpp) / 8);
             _hash_func := Some murmur_hash3_x64_64 |})
  ∨ (strategy ≠ HASH_MURMUR3_X64_64
     ∧ st = InvalidArgument ("invalid strategy:" +:+ pretty strategy)
     ∧ bf = bf0).
Proof.
  unfold init_for_write.
  destruct (decide (strategy = HASH_MURMUR3_X64_64)) as [Heq | Hne].
  - intros Hret. apply DCHECK_returned in Hret. left.
    destruct (num_bytes_fits (_optimal_bit_num n fpp)) as [Hnb Hsz].
    rewrite Hsz in Hret.
    rewrite memset_fresh in Hret by lia. cbn [obind] in Hret.
    rewrite store_in_range in Hret by (rewrite length_replicate; lia).
    cbn [obind] in Hret. rewrite insert_replicate in Hret.
    injection Hret as <- <-. auto.
  - intros Hret. injection Hret as <- <-. right. auto.
Qed.

Lemma init_for_read_inv buf size strategy bf0 st bf :
  init_for_read buf size strategy bf0 = Returned (st, bf) →
  (strategy = HASH_MURMUR3_X64_64 ∧ size ≠ 0
   ∧ size ≤ Z.of_nat (length buf)
   ∧ st = OK
   ∧ bf = {| _data := Some (take (Z.to_nat size) buf);
             _num_bytes := to_u32 (size - 1);
             _size := size;
             _has_null := Some (to_u32 (size - 1));
             _hash_func := Some murmur_hash3_x64_64 |})
  ∨ (strategy = HASH_MURMUR3_X64_64 ∧ size = 0
     ∧ st = InvalidArgument ("invalid size:" +:+ pretty size)
     ∧ bf = with_hash_func murmur_hash3_x64_64 bf0)
  ∨ (strategy ≠ HASH_MURMUR3_X64_64
     ∧ st = InvalidArgument ("invalid strategy:" +:+ pretty strategy)
     ∧ bf = bf0).
Proof.
  unfold init_for_read. intros Hret. apply DCHECK_returned in Hret.
  destruct (decide (strategy = HASH_MURMUR3_X64_64)) as [Heq | Hne].
  - destruct (Z.eqb_spec size 0) as [Hz | Hnz].
    + injection Hret as <- <-. right; left. auto.
    + unfold memcpy in Hret.
      destruct (Z.ltb_spec (Z.of_nat (length buf)) size) as [Hlt | Hge];
        [discriminate |].
      cbn [obind] in Hret. injection Hret as <- <-.
      left. repeat split; try assumption; lia.
  - injection Hret as <- <-. right; right. auto.
Qed.

Lemma init_for_write_layout n fpp strategy bf0 bf :
  init_for_write n fpp strategy bf0 = Returned (OK, bf) → layout_ok bf.
Proof.
  intros Hret.
  destruct (init_for_write_inv _ _ _ _ _ _ Hret)
    as [(_ & _ & ->) | (_ & Hst & _)]; [| discriminate].
  destruct (num_bytes_fits (_optimal_bit_num n fpp)) as [Hnb Hsz].
  eexists. cbn. repeat split; try reflexivity; try lia.
  - rewrite length_replicate. lia.
  - pose proof (to_u32_range (to_u32 (_optimal_bit_num n fpp) / 8 + 1)) as Hr.
    rewrite Hsz in Hr. apply Hr.
Qed.

Lemma init_for_read_layout buf size strategy bf0 bf :
  is_u32 size →
  init_for_read buf size strategy bf0 = Returned (OK, bf) → layout_ok bf.
Proof.
  intros Hu Hret. unfold is_u32 in Hu.
  destruct (init_for_read_inv _ _ _ _ _ _ Hret)
    as [(_ & Hnz & Hlen & _ & ->) | [(_ & _ & Hst & _) | (_ & Hst & _)]];
    try discriminate.
  assert (Hnb : to_u32 (size - 1) = size - 1)
    by (apply to_u32_id; unfold is_u32; lia).
  eexists. cbn. rewrite Hnb.
  repeat split; try reflexivity; try lia.
  rewrite length_take. lia.
Qed.

Lemma init_succeeded_layout bf : init_succeeded bf → layout_ok bf.
Proof.
  intros [(n & fpp & s & bf0 & Hret) | (buf & sz & s & bf0 & Hu & Hret)].
  - eapply init_for_write_layout; eassumption.
  - eapply init_for_read_layout; eassumption.
Qed.

(** *** The members keep the layout and always return on it *)

Lemma with_data_layout d bf :
  layout_ok bf → Z.of_nat (length d) = _size bf → layout_ok (with_data d bf).
Proof.
  intros (d0 & Hd & Hlen & Hsz & Hnb & Hu & Hp & Hf) Hlen'.
  exists d. cbn. auto 10.
Qed.

Lemma set_has_null_returns b bf :
  layout_ok bf →
  ∃ d, _data bf = Some d
       ∧ set_has_null b bf
         = Returned (with_data (<[Z.to_nat (_num_bytes bf)
                                  := if b then 1 else 0]> d) bf).
Proof.
  intros (d & Hd & Hlen & Hsz & Hnb & Hu & Hp & Hf).
  exists d. split; [assumption |].
  unfold set_has_null. rewrite Hp, Hd. cbn [deref obind].
  rewrite store_in_range by lia. reflexivity.
Qed.

Lemma reset_returns bf :
  layout_ok bf →
  reset bf = Returned (with_data (replicate (Z.to_nat (_size bf)) 0) bf).
Proof.
  intros (d & Hd & Hlen & Hsz & Hnb & Hu & Hp & Hf).
  unfold reset. rewrite Hd. cbn [deref obind].
  rewrite memset_whole by assumption. reflexivity.
Qed.

Lemma hash_returns buf size bf :
  layout_ok bf →
  hash buf size bf
  = Returned (to_u64 (murmur_hash3_x64_64 buf (to_i32 size) DEFAULT_SEED)).
Proof.
  intros (d & Hd & Hlen & Hsz & Hnb & Hu & Hp & Hf).
  unfold hash. rewrite Hf. reflexivity.
Qed.

Context {impl_ok : BloomFilterImplOk}.

Lemma exec_layout o bf bf' :
  layout_ok bf → exec o bf = Returned bf' → layout_ok bf'.
Proof.
  intros Hl. destruct o as [[b |] sz | h | b |]; cbn [exec add_bytes].
  - rewrite hash_returns by assumption. cbn [obind].
    apply add_hash_layout. assumption.
  - destruct (set_has_null_returns true bf Hl) as (d & Hd & ->).
    intros Hret. injection Hret as <-.
    apply with_data_layout; [assumption |]. rewrite length_insert.
    destruct Hl as (d0 & Hd0 & Hlen & _). congruence.
  - apply add_hash_layout. assumption.
  - destruct (set_has_null_returns b bf Hl) as (d & Hd & ->).
    intros Hret. injection Hret as <-.
    apply with_data_layout; [assumption |]. rewrite length_insert.
    destruct Hl as (d0 & Hd0 & Hlen & _). congruence.
  - rewrite reset_returns by assumption.
    intros Hret. injection Hret as <-.
    apply with_data_layout; [assumption |]. rewrite length_replicate.
    destruct Hl as (d0 & Hd0 & Hlen & Hsz & Hnb & _). lia.
Qed.

Lemma live_layout bf : live bf → layout_ok bf.
Proof.
  induction 1 as [bf Hinit | o bf bf' _ IH Hstep].
  - apply init_succeeded_layout. assumption.
  - apply (exec_layout o bf bf'); assumption.
Qed.

(** *** The null flag *)

Lemma has_null_after_store d v bf :
  layout_ok bf → _data bf = Some d →
  has_null (with_data (<[Z.to_nat (_num_bytes bf) := v]> d) bf)
  = Returned (negb (v =? 0)).
Proof.
  intros (d0 & Hd & Hlen & Hsz & Hnb & Hu & Hp & Hf) Hd'.
  assert (d0 = d) as -> by congruence.
  unfold has_null. cbn [with_data _has_null _data].
  rewrite Hp. cbn [deref obind].
  rewrite load_store by lia. reflexivity.
Qed.

Lemma has_null_zeros bf :
  layout_ok bf →
  has_null (with_data (replicate (Z.to_nat (_size bf)) 0) bf) = Returned false.
Proof.
  intros (d0 & Hd & Hlen & Hsz & Hnb & Hu & Hp & Hf).
  unfold has_null. cbn [with_data _has_null _data].
  rewrite Hp. cbn [deref obind].
  rewrite load_zeros by lia. reflexivity.
Qed.

(** C5. On a filter in use, [add_bytes(nullptr, sz)] followed by
    [test_bytes(nullptr, sz')] returns true; right after a successful
    [init] for write, [test_bytes(nullptr, sz)] returns false. *)
Theorem null_round_trip :
  (∀ bf, live bf → ∀ sz sz',
      ∃ bf', add_bytes None sz bf = Returned bf'
             ∧ test_bytes None sz' bf' = Returned true)
  ∧ (∀ n fpp strategy bf0 bf,
        init_for_write n fpp strategy bf0 = Returned (OK, bf) →
        ∀ sz, test_bytes None sz bf = Returned false).
Proof.
  split.
  - intros bf Hlive sz sz'. apply live_layout in Hlive.
    destruct (set_has_null_returns true bf Hlive) as (d & Hd & Hset).
    eexists. split; [exact Hset |].
    cbn [test_bytes]. rewrite has_null_after_store by assumption.
    reflexivity.
  - intros n fpp strategy bf0 bf Hret sz.
    pose proof (init_for_write_layout _ _ _ _ _ Hret) as Hl.
    destruct (init_for_write_inv _ _ _ _ _ _ Hret)
      as [(_ & _ & Hbf) | (_ & Hst & _)]; [| discriminate].
    pose proof (has_null_zeros bf Hl) as Hz.
    rewrite Hbf in Hz |- *. exact Hz.
Qed.

(** C8. On every filter whose [init] succeeded, [size()] is
    [num_bytes() + 1] and the buffer holds [size()] bytes; on the read
    path [num_bytes()] is the given size minus one. *)
Theorem wire_layout :
  (∀ bf, live bf →
     size bf = num_bytes bf + 1
     ∧ ∃ d, data bf = Some d ∧ Z.of_nat (length d) = size bf)
  ∧ (∀ buf sz strategy bf0 bf,
        is_u32 sz →
        init_for_read buf sz strategy bf0 = Returned (OK, bf) →
        size bf = sz ∧ num_bytes bf = sz - 1)
  ∧ (∀ n fpp strategy bf0 bf,
        init_for_write n fpp strategy bf0 = Returned (OK, bf) →
        num_bytes bf = to_u32 (_optimal_bit_num n fpp) / 8
        ∧ size bf = num_bytes bf + 1).
Proof.
  split; [| split].
  - intros bf Hlive. apply live_layout in Hlive.
    destruct Hlive as (d & Hd & Hlen & Hsz & _).
    split; [exact Hsz | exists d; auto].
  - intros buf sz strategy bf0 bf Hu Hret.
    destruct (init_for_read_inv _ _ _ _ _ _ Hret)
      as [(_ & Hnz & Hlen & _ & ->) | [(_ & _ & Hst & _) | (_ & Hst & _)]];
      try discriminate.
    cbn. split; [reflexivity |].
    apply to_u32_id. unfold is_u32 in *. lia.
  - intros n fpp strategy bf0 bf Hret.
    destruct (init_for_write_inv _ _ _ _ _ _ Hret)
      as [(_ & _ & ->) | (_ & Hst & _)]; [| discriminate].
    cbn. auto.
Qed.

(** C10. [reset()] zeroes all [_size] bytes of the buffer: afterwards
    every byte is zero, [has_null()] is false and
    [test_bytes(nullptr, _)] returns false. *)
Theorem reset_clears_null (bf : BloomFilter) :
  live bf →
  ∃ bf', reset bf = Returned bf'
         ∧ data bf' = Some (replicate (Z.to_nat (size bf)) 0)
         ∧ size bf' = size bf
         ∧ num_bytes bf' = num_bytes bf
         ∧ has_null bf' = Returned false
         ∧ ∀ sz, test_bytes None sz bf' = Returned false.
Proof.
  intros Hlive. apply live_layout in Hlive.
  eexists. split; [apply reset_returns; assumption |].
  repeat split; try reflexivity.
  - apply has_null_zeros. assumption.
  - intros sz. cbn [test_bytes]. apply has_null_zeros. assumption.
Qed.

(** C6. A filter read back from the buffer of a filter [F] in use, with
    the murmur strategy, answers every [test_bytes], null included, as
    [F] does. *)
Theorem serialization_round_trip (F : BloomFilter) (d : list Z) :
  live F → data F = Some d → dchecks = false ∨ 1 < size F →
  ∀ bf0, ∃ G,
    init_for_read d (size F) HASH_MURMUR3_X64_64 bf0 = Returned (OK, G)
    ∧ data G = data F
    ∧ ∀ v sz, test_bytes v sz G = test_bytes v sz F.
Proof.
  intros Hlive Hd Hdc bf0. apply live_layout in Hlive.
  destruct Hlive as (d0 & Hd0 & Hlen & Hsz & Hnb & Hu & Hp & Hf).
  unfold data, size in *. assert (d0 = d) as -> by congruence.
  exists F. split; [| split; [reflexivity | reflexivity]].
  unfold init_for_read, DCHECK.
  assert (Hck : dchecks && negb (1 <? _size F) = false).
  { destruct Hdc as [-> | Hgt]; [reflexivity |].
    destruct (Z.ltb_spec 1 (_size F)); [| lia].
    apply andb_false_r. }
  rewrite Hck.
  destruct (decide (HASH_MURMUR3_X64_64 = HASH_MURMUR3_X64_64)); [| done].
  destruct (Z.eqb_spec (_size F) 0); [lia |].
  unfold memcpy.
  destruct (Z.ltb_spec (Z.of_nat (length d)) (_size F)); [lia |].
  cbn [obind with_hash_func _hash_func].
  rewrite take_ge by lia.
  replace (to_u32 (_size F - 1)) with (_num_bytes F)
    by (symmetry; rewrite Hsz; replace (_num_bytes F + 1 - 1)
          with (_num_bytes F) by lia;
        apply to_u32_id; unfold is_u32 in *; lia).
  destruct F; cbn in *. congruence.
Qed.

(** C4, the input on which the claim fails: a one-byte buffer with the
    murmur strategy.  With [DCHECK]s compiled out the call returns [OK]
    and leaves a filter with an empty bit array; with them compiled in
    the process stops at [DCHECK(size > 1)].  Neither is an
    invalid-argument status. *)
Theorem init_for_read_one_byte (b : Z) :
  init_for_read [b] 1 HASH_MURMUR3_X64_64 BloomFilter_ctor
  = if dchecks then Crash CheckFailed
    else Returned (OK, {| _data := Some [b]; _num_bytes := 0; _size := 1;
                          _has_null := Some 0;
                          _hash_func := Some murmur_hash3_x64_64 |}).
Proof.
  unfold init_for_read, DCHECK. cbn [Z.ltb Z.compare negb andb].
  destruct dchecks; cbn [andb]; [reflexivity |].
  destruct (decide (HASH_MURMUR3_X64_64 = HASH_MURMUR3_X64_64)); [| done].
  reflexivity.
Qed.

(** The parts of C4 that hold. *)
Lemma init_for_write_bad_strategy n fpp strategy bf0 :
  strategy ≠ HASH_MURMUR3_X64_64 →
  init_for_write n fpp strategy bf0
  = Returned (InvalidArgument ("invalid strategy:" +:+ pretty strategy), bf0).
Proof.
  intros Hne. unfold init_for_write.
  destruct (decide (strategy = HASH_MURMUR3_X64_64)); [done | reflexivity].
Qed.

Lemma init_for_read_bad_strategy buf sz strategy bf0 :
  strategy ≠ HASH_MURMUR3_X64_64 → dchecks = false ∨ 1 < sz →
  init_for_read buf sz strategy bf0
  = Returned (InvalidArgument ("invalid strategy:" +:+ pretty strategy), bf0).
Proof.
  intros Hne Hdc. unfold init_for_read, DCHECK.
  assert (Hck : dchecks && negb (1 <? sz) = false).
  { destruct Hdc as [-> | Hgt]; [reflexivity |].
    destruct (Z.ltb_spec 1 sz); [| lia]. apply andb_false_r. }
  rewrite Hck.
  destruct (decide (strategy = HASH_MURMUR3_X64_64)); [done | reflexivity].
Qed.

Lemma init_for_read_empty buf bf0 :
  dchecks = false →
  init_for_read buf 0 HASH_MURMUR3_X64_64 bf0
  = Returned (InvalidArgument "invalid size:0",
              with_hash_func murmur_hash3_x64_64 bf0).
Proof.
  intros Hoff. unfold init_for_read, DCHECK. rewrite Hoff. cbn [andb].
  destruct (decide (HASH_MURMUR3_X64_64 = HASH_MURMUR3_X64_64)); [| done].
  reflexivity.
Qed.

End Base.

(** *** Filters built independently *)

Section Independent.

Variable dchecks : bool.
Variable HASH_MURMUR3_X64_64 : HashStrategyPB.
Variable murmur_hash3_x64_64 : hash_func_t.
Variable _optimal_bit_num : Z → float → Z.

(** Two subclasses. *)
Context {impl1 impl2 : BloomFilterImpl}.
Context {impl_ok1 : BloomFilterImplOk murmur_hash3_x64_64 (impl := impl1)}.
Context {impl_ok2 : BloomFilterImplOk murmur_hash3_x64_64 (impl := impl2)}.

(** C9. Two filters whose [init] succeeded, of whatever subclass and
    size, compute the same hash code for the same bytes: the code of
    [murmur_hash3_x64_64] under the constant [DEFAULT_SEED]. *)
Theorem hash_deterministic (bf1 bf2 : BloomFilter) (buf : list Z) (sz : Z) :
  live dchecks HASH_MURMUR3_X64_64 murmur_hash3_x64_64 _optimal_bit_num
       (impl := impl1) bf1 →
  live dchecks HASH_MURMUR3_X64_64 murmur_hash3_x64_64 _optimal_bit_num
       (impl := impl2) bf2 →
  hash buf sz bf1 = hash buf sz bf2
  ∧ hash buf sz bf1
    = Returned (to_u64 (murmur_hash3_x64_64 buf (to_i32 sz) 1575457558)).
Proof.
  intros H1 H2.
  apply (live_layout _ _ _ _ (impl_ok := impl_ok1)) in H1.
  apply (live_layout _ _ _ _ (impl_ok := impl_ok2)) in H2.
  rewrite !(hash_returns murmur_hash3_x64_64) by assumption.
  split; reflexivity.
Qed.

End Independent.

(** *** The probing subclass

    [add_hash] and [test_hash] are pure virtual in the header and left
    to a subclass. *)

Section ProbeFilter.

(** Modelled from the spec: for [add_hash]/[test_hash], pure virtual in
    bloom_filter.h -- the probe positions "the concrete subtype
    chooses to derive from the single 64-bit hash", given the hash code
    and the number of bits of the array. *)
Variable probe_positions : Z → Z → list Z.

(** Modelled from the spec: for [add_hash]/[test_hash], pure virtual in
    bloom_filter.h -- the positions of a hash code in the bit array
    of [8 * _num_bytes] bits ("folded into the fixed-size bit array"):
    a position the subclass derives is taken modulo the number of bits,
    which leaves a position inside the array as it is. *)
Definition bit_positions (h : Z) (bf : BloomFilter) : list Z :=
  let num_bits := 8 * _num_bytes bf in
  if num_bits <=? 0 then []
  else (λ p, p mod num_bits) <$> probe_positions h num_bits.

(** Modelled from the spec: for [add_hash]/[test_hash], pure virtual in
    bloom_filter.h -- bit [p] of the array is bit [p mod 8] of
    byte [p / 8]. *)
Definition set_bit (d : list Z) (p : Z) : list Z :=
  <[Z.to_nat (p / 8) := Z.lor (d !!! Z.to_nat (p / 8)) (Z.shiftl 1 (p mod 8))]> d.

(** Modelled from the spec: for [add_hash]/[test_hash], pure virtual in
    bloom_filter.h -- reading bit [p] of the array. *)
Definition test_bit (d : list Z) (p : Z) : bool :=
  Z.testbit (d !!! Z.to_nat (p / 8)) (p mod 8).

(** Modelled from the spec: for [add_hash]/[test_hash], pure virtual in
    bloom_filter.h -- [add_hash] of the subclass sets every probe
    position of the hash code. *)
Definition probe_add_hash (h : Z) (bf : BloomFilter) : outcome BloomFilter :=
  let* d := deref (_data bf) in
  Returned (with_data (foldl set_bit d (bit_positions h bf)) bf).

(** Modelled from the spec: for [add_hash]/[test_hash], pure virtual in
    bloom_filter.h -- [test_hash] of the subclass answers whether
    every probe position of the hash code is set. *)
Definition probe_test_hash (h : Z) (bf : BloomFilter) : outcome bool :=
  let* d := deref (_data bf) in
  Returned (forallb (test_bit d) (bit_positions h bf)).

(** Modelled from the spec: for [add_hash]/[test_hash], pure virtual in
    bloom_filter.h -- the subclass, as an implementation of the two
    virtual members. *)
Definition probe_filter : BloomFilterImpl :=
  {| add_hash := probe_add_hash; test_hash := probe_test_hash |}.

Lemma length_set_bit d p : length (set_bit d p) = length d.
Proof. apply length_insert. Qed.

Lemma length_foldl_set_bit ps d : length (foldl set_bit d ps) = length d.
Proof.
  revert d. induction ps as [| p ps IH]; intros d; cbn [foldl].
  - reflexivity.
  - rewrite IH. apply length_set_bit.
Qed.

Lemma test_bit_set_bit_same d p :
  0 ≤ p → (Z.to_nat (p / 8) < length d)%nat → test_bit (set_bit d p) p = true.
Proof.
  intros Hp Hin. unfold test_bit, set_bit.
  rewrite list_lookup_total_insert_eq by assumption.
  rewrite Z.lor_spec, Z.shiftl_spec by (apply Z.mod_pos_bound; lia).
  rewrite Z.sub_diag. apply orb_true_r.
Qed.

Lemma test_bit_set_bit_mono d p q :
  test_bit d q = true → test_bit (set_bit d p) q = true.
Proof.
  unfold test_bit, set_bit. intros Hq.
  destruct (decide (Z.to_nat (p / 8) = Z.to_nat (q / 8))) as [Heq | Hne].
  - destruct (decide (Z.to_nat (p / 8) < length d)%nat) as [Hin | Hout].
    + rewrite Heq in *. rewrite list_lookup_total_insert_eq by assumption.
      rewrite Z.lor_spec, Hq. reflexivity.
    + rewrite list_insert_ge by lia. assumption.
  - rewrite list_lookup_total_insert_ne by assumption. assumption.
Qed.

Lemma test_bit_foldl_mono ps d q :
  test_bit d q = true → test_bit (foldl set_bit d ps) q = true.
Proof.
  revert d. induction ps as [| p ps IH]; intros d Hq; cbn [foldl].
  - assumption.
  - apply IH, test_bit_set_bit_mono, Hq.
Qed.

Lemma test_bit_foldl_set ps d q :
  q ∈ ps → 0 ≤ q → (Z.to_nat (q / 8) < length d)%nat →
  test_bit (foldl set_bit d ps) q = true.
Proof.
  revert d. induction ps as [| p ps IH]; intros d Hin Hq Hlen.
  - inversion Hin.
  - cbn [foldl]. apply elem_of_cons in Hin as [-> | Hin].
    + apply test_bit_foldl_mono, test_bit_set_bit_same; assumption.
    + apply IH; [assumption | assumption |].
      rewrite length_set_bit. assumption.
Qed.

Lemma test_bit_other_byte d i v q :
  Z.to_nat (q / 8) ≠ i → test_bit (<[i := v]> d) q = test_bit d q.
Proof.
  intros Hne. unfold test_bit.
  rewrite list_lookup_total_insert_ne by auto. reflexivity.
Qed.

Lemma bit_positions_range h bf q :
  q ∈ bit_positions h bf → 0 ≤ q < 8 * _num_bytes bf.
Proof.
  unfold bit_positions.
  destruct (Z.leb_spec (8 * _num_bytes bf) 0) as [Hle | Hgt].
  - intros Hin. inversion Hin.
  - intros Hin. apply list_elem_of_fmap in Hin as (p & -> & _).
    apply Z.mod_pos_bound. assumption.
Qed.

Variable dchecks : bool.
Variable HASH_MURMUR3_X64_64 : HashStrategyPB.
Variable murmur_hash3_x64_64 : hash_func_t.
Variable _optimal_bit_num : Z → float → Z.

Lemma probe_filter_ok :
  BloomFilterImplOk murmur_hash3_x64_64 (impl := probe_filter).
Proof.
  constructor. intros h bf bf' Hl Hadd.
  pose proof Hl as (d & Hd & Hlen & _).
  cbn [add_hash probe_filter] in Hadd. unfold probe_add_hash in Hadd.
  rewrite Hd in Hadd. cbn [deref obind] in Hadd. injection Hadd as <-.
  apply with_data_layout; [assumption |].
  rewrite length_foldl_set_bit. assumption.
Qed.

(** On a filter with the layout of [init], every member returns. *)
Lemma probe_exec_returns o bf :
  layout_ok murmur_hash3_x64_64 bf →
  ∃ bf', exec (impl := probe_filter) o bf = Returned bf'.
Proof.
  intros Hl. pose proof Hl as (d & Hd & _).
  destruct o as [[b |] sz | h | b |]; cbn [exec add_bytes].
  - rewrite (hash_returns murmur_hash3_x64_64) by assumption.
    cbn [obind add_hash probe_filter]. unfold probe_add_hash.
    rewrite Hd. eexists. reflexivity.
  - destruct (set_has_null_returns _ true bf Hl) as (d' & _ & ->). eauto.
  - cbn [add_hash probe_filter]. unfold probe_add_hash.
    rewrite Hd. eexists. reflexivity.
  - destruct (set_has_null_returns _ b bf Hl) as (d' & _ & ->). eauto.
  - rewrite (reset_returns murmur_hash3_x64_64) by assumption. eauto.
Qed.

Lemma probe_run_returns ops bf :
  layout_ok murmur_hash3_x64_64 bf →
  ∃ bf', run (impl := probe_filter) ops bf = Returned bf'
         ∧ layout_ok murmur_hash3_x64_64 bf'.
Proof.
  revert bf. induction ops as [| o ops IH]; intros bf Hl; cbn [run].
  - eauto.
  - destruct (probe_exec_returns o bf Hl) as (bf1 & Hex).
    rewrite Hex. cbn [obind]. apply IH.
    apply (exec_layout murmur_hash3_x64_64 (impl_ok := probe_filter_ok)
             o bf bf1); assumption.
Qed.

(** Every probe position of the hash code [h] is set in the filter. *)
Definition holds (h : Z) (bf : BloomFilter) : Prop :=
  ∃ d, _data bf = Some d ∧ ∀ q, q ∈ bit_positions h bf → test_bit d q = true.

Lemma holds_with_data h d d' bf :
  _data bf = Some d →
  (∀ q, q ∈ bit_positions h bf → test_bit d q = true → test_bit d' q = true) →
  holds h bf → holds h (with_data d' bf).
Proof.
  intros Hd Hmono (d0 & Hd0 & Hset).
  assert (d0 = d) as -> by congruence.
  exists d'. split; [reflexivity |].
  intros q Hq. apply Hmono; [exact Hq |]. apply Hset. exact Hq.
Qed.

Lemma probe_add_hash_keeps h h' bf bf' :
  probe_add_hash h' bf = Returned bf' → holds h bf → holds h bf'.
Proof.
  unfold probe_add_hash. intros Hadd Hh.
  pose proof Hh as (d & Hd & _). rewrite Hd in Hadd. cbn in Hadd.
  injection Hadd as <-.
  apply (holds_with_data h d); [assumption | | assumption].
  intros q _. apply test_bit_foldl_mono.
Qed.

Lemma set_has_null_keeps h b bf bf' :
  layout_ok murmur_hash3_x64_64 bf →
  set_has_null b bf = Returned bf' → holds h bf → holds h bf'.
Proof.
  intros Hl Hset Hh.
  destruct (set_has_null_returns _ b bf Hl) as (d & Hd & Hret).
  rewrite Hret in Hset. injection Hset as <-.
  apply (holds_with_data h d); [assumption | | assumption].
  intros q Hq Hbit. rewrite test_bit_other_byte; [assumption |].
  apply bit_positions_range in Hq.
  assert (q / 8 < _num_bytes bf) by (apply Z.div_lt_upper_bound; lia).
  assert (0 ≤ q / 8) by (apply Z.div_pos; lia).
  lia.
Qed.

Lemma exec_keeps h o bf bf' :
  layout_ok murmur_hash3_x64_64 bf → is_reset o = false →
  exec (impl := probe_filter) o bf = Returned bf' →
  holds h bf → holds h bf'.
Proof.
  intros Hl Hnr Hex Hh.
  destruct o as [[b |] sz | h' | b |]; cbn [exec add_bytes] in Hex.
  - rewrite (hash_returns murmur_hash3_x64_64) in Hex by assumption.
    cbn [obind add_hash probe_filter] in Hex.
    eapply probe_add_hash_keeps; eassumption.
  - eapply set_has_null_keeps; eassumption.
  - cbn [add_hash probe_filter] in Hex.
    eapply probe_add_hash_keeps; eassumption.
  - eapply set_has_null_keeps; eassumption.
  - discriminate Hnr.
Qed.

Lemma run_keeps h ops bf bf' :
  layout_ok murmur_hash3_x64_64 bf →
  forallb (λ o, negb (is_reset o)) ops = true →
  run (impl := probe_filter) ops bf = Returned bf' →
  holds h bf → holds h bf'.
Proof.
  revert bf. induction ops as [| o ops IH]; intros bf Hl Hnr Hrun Hh.
  - cbn in Hrun. injection Hrun as <-. assumption.
  - cbn [forallb] in Hnr. apply andb_prop in Hnr as [Ho Hops].
    apply negb_true_iff in Ho. cbn [run] in Hrun.
    destruct (exec (impl := probe_filter) o bf) as [bf1 | c] eqn:Hex;
      [| discriminate].
    cbn [obind] in Hrun.
    apply (IH bf1); try assumption.
    + apply (exec_layout murmur_hash3_x64_64 (impl_ok := probe_filter_ok)
               o bf bf1); assumption.
    + apply (exec_keeps h o bf bf1); assumption.
Qed.

Lemma probe_add_hash_holds h bf :
  layout_ok murmur_hash3_x64_64 bf →
  ∃ bf', probe_add_hash h bf = Returned bf' ∧ holds h bf'.
Proof.
  intros (d & Hd & Hlen & Hsz & Hnb & Hu & Hp & Hf).
  unfold probe_add_hash. rewrite Hd. cbn [deref obind].
  eexists. split; [reflexivity |].
  exists (foldl set_bit d (bit_positions h bf)). split; [reflexivity |].
  intros q Hq. change (bit_positions h (with_data _ bf))
    with (bit_positions h bf) in Hq.
  pose proof (bit_positions_range _ _ _ Hq) as Hr.
  apply test_bit_foldl_set; [assumption | lia |].
  assert (q / 8 < _num_bytes bf) by (apply Z.div_lt_upper_bound; lia).
  assert (0 ≤ q / 8) by (apply Z.div_pos; lia).
  lia.
Qed.

Lemma probe_test_hash_holds h bf :
  holds h bf → probe_test_hash h bf = Returned true.
Proof.
  intros (d & Hd & Hset). unfold probe_test_hash. rewrite Hd.
  cbn [deref obind]. f_equal.
  induction (bit_positions h bf) as [| q qs IH]; cbn [forallb].
  - reflexivity.
  - rewrite Hset by (apply elem_of_cons; auto). cbn [andb].
    apply IH. intros q' Hq'. apply Hset, elem_of_cons. auto.
Qed.

(** C1. No false negatives: on a filter in use, once [add_bytes(v,
    size)] has been called for a non-null [v], [test_bytes(v, size)]
    returns true, whatever has been added or flagged in between (the
    filter has not been [reset]). *)
Theorem no_false_negatives (bf : BloomFilter) (v : list Z) (sz : Z)
    (ops : list op) :
  live dchecks HASH_MURMUR3_X64_64 murmur_hash3_x64_64 _optimal_bit_num
       (impl := probe_filter) bf →
  forallb (λ o, negb (is_reset o)) ops = true →
  ∃ bf', run (impl := probe_filter) (AddBytes (Some v) sz :: ops) bf
         = Returned bf'
         ∧ test_bytes (impl := probe_filter) (Some v) sz bf' = Returned true.
Proof.
  intros Hlive Hnr.
  apply (live_layout _ _ _ _ (impl_ok := probe_filter_ok)) in Hlive.
  set (h := to_u64 (murmur_hash3_x64_64 v (to_i32 sz) DEFAULT_SEED)).
  destruct (probe_add_hash_holds h bf Hlive) as (bf1 & Hadd & Hh1).
  assert (Hl1 : layout_ok murmur_hash3_x64_64 bf1)
    by (apply (@add_hash_layout murmur_hash3_x64_64 probe_filter
                 probe_filter_ok h bf bf1 Hlive); exact Hadd).
  destruct (probe_run_returns ops bf1 Hl1) as (bf' & Hrun & Hl').
  exists bf'. split.
  - cbn [run exec add_bytes].
    rewrite (hash_returns murmur_hash3_x64_64) by assumption.
    cbn [obind add_hash probe_filter]. fold h. rewrite Hadd.
    cbn [obind]. exact Hrun.
  - cbn [test_bytes].
    rewrite (hash_returns murmur_hash3_x64_64) by assumption.
    cbn [obind test_hash probe_filter]. fold h.
    apply probe_test_hash_holds.
    apply (run_keeps h ops bf1 bf'); assumption.
Qed.

End ProbeFilter.

(** *** Sizing

    The header declares [_optimal_bit_num] and calls it from [init]; it
    does not define it. *)

Module Sizing.

(** Modelled from the spec: for the body of [_optimal_bit_num], which
    bloom_filter.h only declares -- the false-positive probability [p] as a real
    number, for a [double] that is finite. *)
Definition float_to_R (x : float) : R :=
  match Prim2SF x with
  | S754_finite s m e =>
      let v := if 0 <=? e then IZR (Z.pos m * 2 ^ e)
               else (IZR (Z.pos m) / IZR (2 ^ (- e)))%R in
      if s then (- v)%R else v
  | _ => 0%R
  end.

(** Modelled from the spec: for the body of [_optimal_bit_num], which
    bloom_filter.h only declares -- the ceiling of a real number. *)
Definition ceil (x : R) : Z := 1 - up (- x).

(** Modelled from the spec: for the body of [_optimal_bit_num], which
    bloom_filter.h only declares -- "the optimal bit count is
    [m = ceil(-n * ln(p) / (ln 2)^2)]". *)
Definition optimal_bits (n : Z) (p : R) : Z :=
  ceil (- IZR n * ln p / (ln 2 * ln 2))%R.

(** Modelled from the spec: for the body of [_optimal_bit_num], which
    bloom_filter.h only declares -- "then rounded up to the next power of two". *)
Definition next_power_of_two (m : Z) : Z := 2 ^ Z.log2_up m.

(** Modelled from the spec: for the body of [_optimal_bit_num], which
    bloom_filter.h only declares -- "[numBytes] is clamped to [[32, 128 * 1024 *
    1024]]". *)
Definition clamp (lo hi x : Z) : Z := Z.max lo (Z.min hi x).

(** Modelled from the spec: for the body of [_optimal_bit_num], which
    bloom_filter.h only declares -- "[numBytes = m / 8]", clamped. *)
Definition optimal_num_bytes (n : Z) (p : R) : Z :=
  clamp MINIMUM_BYTES MAXIMUM_BYTES (next_power_of_two (optimal_bits n p) / 8).

(** Modelled from the spec: for the body of [_optimal_bit_num], which
    bloom_filter.h only declares -- the bit count [_optimal_bit_num] returns, of
    which [init] takes the eighth. *)
Definition _optimal_bit_num (n : Z) (fpp : float) : Z :=
  8 * optimal_num_bytes n (float_to_R fpp).

Example next_power_of_two_1000 : next_power_of_two 1000 = 1024.
Proof. reflexivity. Qed.

Example clamp_small : clamp MINIMUM_BYTES MAXIMUM_BYTES (next_power_of_two 100 / 8) = 32.
Proof. reflexivity. Qed.

Example clamp_middle :
  clamp MINIMUM_BYTES MAXIMUM_BYTES (next_power_of_two 100000 / 8) = 16384.
Proof. reflexivity. Qed.

Lemma clamp_power_of_two (j : Z) :
  0 ≤ j →
  ∃ k, 5 ≤ k ≤ 27 ∧ clamp MINIMUM_BYTES MAXIMUM_BYTES (2 ^ j / 8) = 2 ^ k.
Proof.
  intros Hj. unfold clamp, MINIMUM_BYTES, MAXIMUM_BYTES.
  change (128 * 1024 * 1024) with (2 ^ 27). change 32 with (2 ^ 5) at 1.
  destruct (Z_lt_le_dec j 8) as [Hsmall | Hbig].
  - exists 5. split; [lia |].
    assert (2 ^ j ≤ 2 ^ 7) by (apply Z.pow_le_mono_r; lia).
    assert (2 ^ j / 8 < 2 ^ 5)
      by (apply Z.div_lt_upper_bound; [lia | change (8 * 2 ^ 5) with (2 ^ 8);
          change (2 ^ 7) with 128 in *; change (2 ^ 8) with 256; lia]).
    assert (2 ^ 5 < 2 ^ 27) by reflexivity. lia.
  - assert (Hdiv : 2 ^ j / 8 = 2 ^ (j - 3)).
    { change 8 with (2 ^ 3). symmetry. apply Z.pow_sub_r; lia. }
    rewrite Hdiv.
    destruct (Z_lt_le_dec 27 (j - 3)) as [Hover | Hin].
    + exists 27. split; [lia |].
      assert (2 ^ 27 ≤ 2 ^ (j - 3)) by (apply Z.pow_le_mono_r; lia).
      assert (2 ^ 5 < 2 ^ 27) by reflexivity. lia.
    + exists (j - 3). split; [lia |].
      assert (2 ^ (j - 3) ≤ 2 ^ 27) by (apply Z.pow_le_mono_r; lia).
      assert (2 ^ 5 ≤ 2 ^ (j - 3)) by (apply Z.pow_le_mono_r; lia).
      lia.
Qed.

Lemma optimal_num_bytes_power_of_two (n : Z) (p : R) :
  ∃ k, 5 ≤ k ≤ 27 ∧ optimal_num_bytes n p = 2 ^ k.
Proof.
  unfold optimal_num_bytes, next_power_of_two.
  apply clamp_power_of_two, Z.log2_up_nonneg.
Qed.

Lemma power_of_two_range (k : Z) :
  5 ≤ k ≤ 27 → MINIMUM_BYTES ≤ 2 ^ k ≤ MAXIMUM_BYTES.
Proof.
  intros Hk. unfold MINIMUM_BYTES, MAXIMUM_BYTES.
  change (128 * 1024 * 1024) with (2 ^ 27). change 32 with (2 ^ 5).
  split; apply Z.pow_le_mono_r; lia.
Qed.

Lemma power_of_two_land (k : Z) :
  0 ≤ k → Z.land (2 ^ k) (2 ^ k - 1) = 0.
Proof.
  intros Hk. replace (2 ^ k - 1) with (Z.ones k)
    by (rewrite Z.ones_equiv; lia).
  rewrite Z.land_ones by assumption. apply Z.mod_same.
  apply Z.pow_nonzero; lia.
Qed.

Lemma num_bytes_of_optimal_bit_num (n : Z) (fpp : float) :
  to_u32 (_optimal_bit_num n fpp) / 8 = optimal_num_bytes n (float_to_R fpp).
Proof.
  unfold _optimal_bit_num.
  destruct (optimal_num_bytes_power_of_two n (float_to_R fpp))
    as (k & Hk & Heq).
  pose proof (power_of_two_range k Hk) as Hr. rewrite <- Heq in Hr.
  unfold MINIMUM_BYTES, MAXIMUM_BYTES in Hr.
  rewrite to_u32_id by (unfold is_u32; lia).
  rewrite Z.mul_comm, Z.div_mul by lia. reflexivity.
Qed.

Section Init.

Variable dchecks : bool.
Variable HASH_MURMUR3_X64_64 : HashStrategyPB.
Variable murmur_hash3_x64_64 : hash_func_t.

(** The write-path [init] returns [OK] under the murmur strategy, also
    where [DCHECK]s are compiled in. *)
Lemma init_for_write_returns (n : Z) (fpp : float) (bf0 : BloomFilter) :
  ∃ bf,
    init_for_write dchecks HASH_MURMUR3_X64_64 murmur_hash3_x64_64
      _optimal_bit_num n fpp HASH_MURMUR3_X64_64 bf0 = Returned (OK, bf).
Proof.
  unfold init_for_write.
  destruct (decide (HASH_MURMUR3_X64_64 = HASH_MURMUR3_X64_64)); [| done].
  rewrite num_bytes_of_optimal_bit_num.
  destruct (optimal_num_bytes_power_of_two n (float_to_R fpp))
    as (k & Hk & Heq).
  pose proof (power_of_two_range k Hk) as Hr. rewrite <- Heq in Hr.
  unfold MINIMUM_BYTES, MAXIMUM_BYTES in Hr.
  unfold DCHECK.
  rewrite (to_u32_id (_ - 1)) by (unfold is_u32; lia).
  assert (Hland : Z.land (optimal_num_bytes n (float_to_R fpp))
                    (optimal_num_bytes n (float_to_R fpp) - 1) = 0)
    by (rewrite Heq; apply power_of_two_land; lia).
  rewrite Hland.
  cbn [Z.eqb negb]. rewrite andb_false_r.
  rewrite to_u32_id by (unfold is_u32; lia).
  rewrite memset_fresh by lia. cbn [obind].
  rewrite store_in_range by (rewrite length_replicate; lia).
  cbn [obind]. eexists. reflexivity.
Qed.

(** C2. For [n >= 1] and [p] in (0,1), after a successful write-path
    [init(n, p, strategy)] the number of bytes is the eighth of
    [ceil(-n * ln p / (ln 2)^2)] rounded up to a power of two, brought
    into [[32, 128*1024*1024]]; it is a power of two within these
    bounds. *)
Theorem init_num_bytes_power_of_two (n : Z) (fpp : float)
    (strategy : HashStrategyPB) (bf0 bf : BloomFilter) :
  1 ≤ n → (0 < float_to_R fpp < 1)%R →
  init_for_write dchecks HASH_MURMUR3_X64_64 murmur_hash3_x64_64
    _optimal_bit_num n fpp strategy bf0 = Returned (OK, bf) →
  num_bytes bf
  = clamp 32 (128 * 1024 * 1024)
      (2 ^ Z.log2_up (ceil (- IZR n * ln (float_to_R fpp) / (ln 2 * ln 2))%R)
       / 8)
  ∧ (∃ k, 0 ≤ k ∧ num_bytes bf = 2 ^ k)
  ∧ 32 ≤ num_bytes bf ≤ 128 * 1024 * 1024.
Proof.
  intros _ _ Hret.
  destruct (init_for_write_inv _ _ _ _ _ _ _ _ _ _ Hret)
    as [(_ & _ & ->) | (_ & Hst & _)]; [| discriminate].
  unfold num_bytes. cbn [_num_bytes].
  rewrite num_bytes_of_optimal_bit_num.
  destruct (optimal_num_bytes_power_of_two n (float_to_R fpp))
    as (k & Hk & Heq).
  split; [reflexivity | split].
  - exists k. split; [lia | exact Heq].
  - rewrite Heq. apply (power_of_two_range k Hk).
Qed.

End Init.

End Sizing.

(** *** Concrete filters *)

Module Fixture.

Definition sum_hash : hash_func_t :=
  λ buf len seed, foldl (λ a b, a * 31 + b) seed (take (Z.to_nat len) buf).

Definition three_probes : Z → Z → list Z :=
  λ h _, [h; h / 65536; h / 4294967296].

Definition fixed_bit_num : Z → float → Z := λ _ _, 256.

Definition impl : BloomFilterImpl := probe_filter three_probes.

Definition impl_ok : BloomFilterImplOk sum_hash (impl := impl) :=
  probe_filter_ok three_probes sum_hash.

(** A filter of 32 bytes right after [init] for write. *)
Definition fresh : BloomFilter :=
  {| _data := Some (replicate 33 0); _num_bytes := 32; _size := 33;
     _has_null := Some 32; _hash_func := Some sum_hash |}.

Lemma fresh_init :
  init_for_write false 0 sum_hash fixed_bit_num 1000 0.0625 0 BloomFilter_ctor
  = Returned (OK, fresh).
Proof. reflexivity. Qed.

Lemma fresh_live : live false 0 sum_hash fixed_bit_num (impl := impl) fresh.
Proof.
  apply live_init. left. exists 1000, 0.0625%float, 0, BloomFilter_ctor.
  exact fresh_init.
Qed.

(** The same filter after a null has been added. *)
Definition flagged : BloomFilter :=
  with_data (<[32%nat := 1]> (replicate 33 0)) fresh.

Lemma flagged_live : live false 0 sum_hash fixed_bit_num (impl := impl) flagged.
Proof.
  apply (live_step _ _ _ _ (AddBytes None 0) fresh); [exact fresh_live |].
  reflexivity.
Qed.

(** A filter read from five bytes, the last of which flags a null. *)
Definition readback : BloomFilter :=
  {| _data := Some [1; 0; 128; 0; 1]; _num_bytes := 4; _size := 5;
     _has_null := Some 4; _hash_func := Some sum_hash |}.

Lemma readback_init :
  init_for_read false 0 sum_hash [1; 0; 128; 0; 1] 5 0 BloomFilter_ctor
  = Returned (OK, readback).
Proof. reflexivity. Qed.

Lemma readback_live :
  live false 0 sum_hash fixed_bit_num (impl := impl) readback.
Proof.
  apply live_init. right.
  exists [1; 0; 128; 0; 1], 5, 0, BloomFilter_ctor.
  split; [unfold is_u32; lia | exact readback_init].
Qed.

Example add_then_test :
  (let* bf := add_bytes (impl := impl) (Some [104; 105]) 2 fresh in
   test_bytes (impl := impl) (Some [104; 105]) 2 bf) = Returned true.
Proof. vm_compute. reflexivity. Qed.

Example test_without_add :
  test_bytes (impl := impl) (Some [104; 105]) 2 fresh = Returned false.
Proof. vm_compute. reflexivity. Qed.

Example reset_forgets :
  (let* bf := add_bytes (impl := impl) (Some [104; 105]) 2 fresh in
   let* bf := reset bf in
   test_bytes (impl := impl) (Some [104; 105]) 2 bf) = Returned false.
Proof. vm_compute. reflexivity. Qed.

Lemma no_false_negatives_witness :
  ∃ bf', run (impl := impl)
           [AddBytes (Some [104; 105]) 2; AddBytes None 0;
            AddBytes (Some [7]) 1; SetHasNull false] fresh = Returned bf'
         ∧ test_bytes (impl := impl) (Some [104; 105]) 2 bf' = Returned true.
Proof.
  apply (no_false_negatives three_probes false 0 sum_hash fixed_bit_num
           fresh [104; 105] 2
           [AddBytes None 0; AddBytes (Some [7]) 1; SetHasNull false]).
  - exact fresh_live.
  - reflexivity.
Defined.

Lemma null_round_trip_witness :
  (∃ bf', add_bytes (impl := impl) None 0 fresh = Returned bf'
          ∧ test_bytes (impl := impl) None 7 bf' = Returned true)
  ∧ test_bytes (impl := impl) None 0 fresh = Returned false.
Proof.
  destruct (null_round_trip false 0 sum_hash fixed_bit_num
              (impl_ok := impl_ok)) as [Hadd Hfresh].
  split.
  - apply (Hadd fresh fresh_live).
  - apply (Hfresh 1000 0.0625%float 0 BloomFilter_ctor fresh fresh_init).
Defined.

Lemma wire_layout_witness :
  size readback = num_bytes readback + 1
  ∧ size readback = 5 ∧ num_bytes readback = 4.
Proof.
  destruct (wire_layout false 0 sum_hash fixed_bit_num (impl_ok := impl_ok))
    as (Hlive & Hread & _).
  split.
  - apply (Hlive readback readback_live).
  - apply (Hread [1; 0; 128; 0; 1] 5 0 BloomFilter_ctor readback);
      [unfold is_u32; lia | exact readback_init].
Defined.

(** Another subclass, with one probe per hash code. *)
Definition one_probe : BloomFilterImpl := probe_filter (λ h _, [h]).

Lemma readback_live_one_probe :
  live false 0 sum_hash fixed_bit_num (impl := one_probe) readback.
Proof.
  apply live_init. right.
  exists [1; 0; 128; 0; 1], 5, 0, BloomFilter_ctor.
  split; [unfold is_u32; lia | exact readback_init].
Qed.

Lemma hash_deterministic_witness :
  hash [104; 105] 2 fresh = hash [104; 105] 2 readback.
Proof.
  apply (hash_deterministic false 0 sum_hash fixed_bit_num
           (impl_ok1 := impl_ok)
           (impl_ok2 := probe_filter_ok (λ h _, [h]) sum_hash)
           fresh readback [104; 105] 2).
  - exact fresh_live.
  - exact readback_live_one_probe.
Defined.

Lemma reset_clears_null_witness :
  has_null flagged = Returned true
  ∧ ∃ bf', reset flagged = Returned bf'
           ∧ data bf' = Some (replicate 33 0)
           ∧ has_null bf' = Returned false.
Proof.
  split; [reflexivity |].
  destruct (reset_clears_null false 0 sum_hash fixed_bit_num
              (impl_ok := impl_ok) flagged flagged_live)
    as (bf' & Hreset & Hdata & _ & _ & Hnull & _).
  exists bf'. auto.
Defined.

Lemma serialization_round_trip_witness :
  ∃ G, init_for_read false 0 sum_hash [1; 0; 128; 0; 1] 5 0 BloomFilter_ctor
       = Returned (OK, G)
       ∧ ∀ v sz, test_bytes (impl := impl) v sz G
                 = test_bytes (impl := impl) v sz readback.
Proof.
  destruct (serialization_round_trip false 0 sum_hash fixed_bit_num
              (impl_ok := impl_ok) readback [1; 0; 128; 0; 1]
              readback_live eq_refl (or_introl eq_refl) BloomFilter_ctor)
    as (G & Hinit & _ & Htest).
  exists G. auto.
Defined.

Lemma init_num_bytes_power_of_two_witness :
  ∃ bf,
    init_for_write true 0 sum_hash Sizing._optimal_bit_num 1000 0.0625 0
      BloomFilter_ctor = Returned (OK, bf)
    ∧ (∃ k, 0 ≤ k ∧ num_bytes bf = 2 ^ k)
    ∧ 32 ≤ num_bytes bf ≤ 128 * 1024 * 1024.
Proof.
  destruct (Sizing.init_for_write_returns true 0 sum_hash 1000 0.0625%float
              BloomFilter_ctor) as (bf & Hinit).
  exists bf. split; [exact Hinit |].
  apply (Sizing.init_num_bytes_power_of_two true 0 sum_hash 1000 0.0625%float
           0 BloomFilter_ctor bf); [lia | | exact Hinit].
  unfold Sizing.float_to_R. vm_compute Prim2SF. cbn -[IZR Rdiv Z.pow].
  change (2 ^ (- (-56))) with 72057594037927936. lra.
Defined.

End Fixture.

End Bloom.

(** ** Column vector batches (Vector.hh) *)

Module Vector.

Import Dictionary.

#[global] Instance float_inhabited : Inhabited float := populate 0%float.

(** The fields of [struct ColumnVectorBatch] (the memory pool aside). *)
Record Base : Type := {
  capacity : Z;
  numElements : Z;
  notNull : list Z;
  hasNulls : bool;
  isEncoded : bool
}.

(** The batch structs of the header, one constructor each, with their
    buffers in the order of declaration.  [EncodedStringVectorBatch]
    extends [StringVectorBatch] and carries its fields; [char*]
    entries, [Int128] values and [unsigned char] tags are integers. *)
#[warnings="-register-all"]
Inductive ColumnVectorBatch : Type :=
  | LongVectorBatch (b : Base) (data : list Z)
  | DoubleVectorBatch (b : Base) (data : list float)
  | StringVectorBatch (b : Base) (data length blob codes : list Z)
      (use_codes : bool)
  | EncodedStringVectorBatch (b : Base) (data length blob codes : list Z)
      (use_codes : bool) (dictionary : StringDictionary) (index : list Z)
  | StructVectorBatch (b : Base) (fields : list ColumnVectorBatch)
  | ListVectorBatch (b : Base) (offsets : list Z) (elements : ColumnVectorBatch)
  | MapVectorBatch (b : Base) (offsets : list Z)
      (keys elements : ColumnVectorBatch)
  | UnionVectorBatch (b : Base) (tags offsets : list Z)
      (children : list ColumnVectorBatch)
  | Decimal64VectorBatch (b : Base) (precision scale : Z)
      (values readScales : list Z)
  | Decimal128VectorBatch (b : Base) (precision scale : Z)
      (values readScales : list Z)
  | TimestampVectorBatch (b : Base) (data nanoseconds : list Z).

Definition base (v : ColumnVectorBatch) : Base :=
  match v with
  | LongVectorBatch b _ | DoubleVectorBatch b _
  | StringVectorBatch b _ _ _ _ _ | EncodedStringVectorBatch b _ _ _ _ _ _ _
  | StructVectorBatch b _ | ListVectorBatch b _ _ | MapVectorBatch b _ _ _
  | UnionVectorBatch b _ _ _ | Decimal64VectorBatch b _ _ _ _
  | Decimal128VectorBatch b _ _ _ _ | TimestampVectorBatch b _ _ => b
  end.

(** The number of rows, as a list index. *)
Definition rowCount (v : ColumnVectorBatch) : nat :=
  Z.to_nat (numElements (base v)).

(** *** Selections

    [filter(uint8_t* f_data, uint32_t f_size, uint32_t true_size)] is
    declared for every batch struct of the header, which defines none
    of them. *)

(** Modelled from the spec: for the body of [filter], which Vector.hh
    only declares -- the selection is "a boolean-like selection
    array"; a nonzero byte is true. *)
Definition is_true (v : Z) : bool := negb (v =? 0).

(** Modelled from the spec: for the body of [filter], which Vector.hh
    only declares -- a byte of a derived selection, "true" or "false". *)
Definition b2z (b : bool) : Z := if b then 1 else 0.

(** Modelled from the spec: for the body of [filter], which Vector.hh
    only declares -- whether row [i] is a "selected row". *)
Definition selected (f_data : list Z) (i : nat) : bool :=
  match f_data !! i with
  | Some v => is_true v
  | None => false
  end.

(** Modelled from the spec: for the body of [filter], which Vector.hh
    only declares -- the "new compacted position" of row [i], the
    number of selected rows below it. *)
Fixpoint rank (f_data : list Z) (i : nat) : nat :=
  match i, f_data with
  | S i, s :: f_data => (if is_true s then 1 else 0) + rank f_data i
  | _, _ => 0
  end%nat.

(** Modelled from the spec: for the body of [filter], which Vector.hh
    only declares -- "the count of true entries" of a derived
    selection, handed to the child as its [true_size]. *)
Definition count_true (f_data : list Z) : Z :=
  Z.of_nat (rank f_data (length f_data)).

(** Modelled from the spec: for the body of [filter], which Vector.hh
    only declares -- "gather-compaction of the flat buffer(s) by
    selection index", the entries of the selected rows in their order. *)
Fixpoint gather {A} (f_data : list Z) (buf : list A) : list A :=
  match f_data, buf with
  | s :: f_data, x :: buf =>
      if is_true s then x :: gather f_data buf else gather f_data buf
  | _, _ => []
  end.

(** Modelled from the spec: for the body of [filter], which Vector.hh
    only declares -- compaction is "in place"; the entries past
    the written prefix stay. *)
Definition overwrite {A} (new old : list A) : list A :=
  new ++ drop (length new) old.

(** Modelled from the spec: for the body of [filter], which Vector.hh
    only declares -- "compact this batch in place to contain
    exactly the selected rows, preserving original relative order", for
    one buffer. *)
Definition compact {A} (f_data : list Z) (f_size : Z) (buf : list A) : list A :=
  overwrite (gather (take (Z.to_nat f_size) f_data) buf) buf.

(** Modelled from the spec: for the body of [filter], which Vector.hh
    only declares -- "recomputing [hasNulls] after a filter is
    each variant's responsibility (deriving an index-by-index scan over
    the surviving range, or a conservative carry-forward of the prior
    value)". *)
Inductive hasNulls_rule : Type := ExactScan | CarryForward.

(** Modelled from the spec: for the body of [filter], which Vector.hh
    only declares -- [hasNulls] after a filter, by either rule. *)
Definition hasNulls_after (r : hasNulls_rule) (old : bool) (notNull : list Z)
    (n : Z) : bool :=
  match r with
  | ExactScan => existsb (λ v, v =? 0) (take (Z.to_nat n) notNull)
  | CarryForward => old
  end.

(** Modelled from the spec: for the body of [filter], which Vector.hh
    only declares -- "the base class owns the generic,
    type-agnostic part -- compacting [notNull]", and [filter] sets
    [numElements = trueCount]. *)
Definition filter_base (r : hasNulls_rule) (b : Base) (f_data : list Z)
    (f_size true_size : Z) : Base :=
  let notNull' := compact f_data f_size (notNull b) in
  {| capacity := capacity b; numElements := true_size; notNull := notNull';
     hasNulls := hasNulls_after r (hasNulls b) notNull' true_size;
     isEncoded := isEncoded b |}.

(** Modelled from the spec: for the body of [filter], which Vector.hh
    only declares -- "row i's elements span [[offsets[i],
    offsets[i+1])]"; the lengths of these ranges. *)
Definition range_lengths (offsets : list Z) : list Z :=
  zip_with (λ lo hi, hi - lo) offsets (tail offsets).

(** Modelled from the spec: for the body of [filter], which Vector.hh
    only declares -- "prefix-summing", from [acc] on. *)
Fixpoint prefix_sums (acc : Z) (lens : list Z) : list Z :=
  acc :: match lens with
         | [] => []
         | l :: lens => prefix_sums (acc + l) lens
         end.

(** Modelled from the spec: for the body of [filter], which Vector.hh
    only declares -- "a new [offsets] array is built by
    prefix-summing retained range lengths". *)
Definition retained_offsets (f_data : list Z) (f_size : nat)
    (offsets : list Z) : list Z :=
  prefix_sums 0 (gather (take f_size f_data) (range_lengths offsets)).

(** Modelled from the spec: for the body of [filter], which Vector.hh
    only declares -- element [e] lies "within a retained range",
    the range of a selected row. *)
Definition in_retained_range (f_data : list Z) (f_size : nat)
    (offsets : list Z) (e : Z) : bool :=
  existsb (λ i, selected f_data i
                && (offsets !!! i <=? e) && (e <? offsets !!! S i))
          (seq 0 f_size).

(** Modelled from the spec: for the body of [filter], which Vector.hh
    only declares -- "the derived element-level boolean selection
    marks true for every element index within a retained range, false
    elsewhere". *)
Definition element_selection (f_data : list Z) (f_size : nat)
    (offsets : list Z) (child_size : nat) : list Z :=
  (λ e, b2z (in_retained_range f_data f_size offsets (Z.of_nat e)))
    <$> seq 0 child_size.

(** Modelled from the spec: for the body of [filter], which Vector.hh
    only declares -- element [e] of child [k] is the
    [(tag[i], offset[i])] of a selected row [i]. *)
Definition is_marked (f_data : list Z) (f_size : nat) (tags offsets : list Z)
    (k : nat) (e : Z) : bool :=
  existsb (λ i, selected f_data i
                && (tags !!! i =? Z.of_nat k) && (offsets !!! i =? e))
          (seq 0 f_size).

(** Modelled from the spec: for the body of [filter], which Vector.hh
    only declares -- "for each selected parent row, mark true at
    [(tag[i], offset[i])] in a per-child derived selection". *)
Definition union_selection (f_data : list Z) (f_size : nat)
    (tags offsets : list Z) (k : nat) (child_size : nat) : list Z :=
  (λ e, b2z (is_marked f_data f_size tags offsets k (Z.of_nat e)))
    <$> seq 0 child_size.

(** Modelled from the spec: for the body of [filter], which Vector.hh
    only declares -- "new [offsets] are remapped to the child's
    new compacted positions", for every row. *)
Definition union_offsets (f_data : list Z) (f_size : nat)
    (tags offsets : list Z) (sizes : list nat) : list Z :=
  (λ i, let k := Z.to_nat (tags !!! i) in
        Z.of_nat (rank (union_selection f_data f_size tags offsets k
                          (sizes !!! k))
                       (Z.to_nat (offsets !!! i))))
    <$> seq 0 (length offsets).

Section Filter.

(** Which of the two rules for [hasNulls] a batch follows. *)
Variable rule : ColumnVectorBatch → hasNulls_rule.

(** Modelled from the spec: for the body of [filter], which Vector.hh
    only declares -- [filter] per variant (4.2, 4.3).  Scalars,
    decimals and timestamps compact their value buffers; strings compact
    the pointer and length buffers and leave the blob; dictionary-encoded
    strings compact the per-row codes and leave the dictionary; a struct
    hands the same selection to every field; lists and maps rebuild
    their offsets and hand the element-level selection to their
    children; a union hands each child its own derived selection and
    remaps the offsets. *)
Fixpoint filter (v : ColumnVectorBatch) (f_data : list Z)
    (f_size true_size : Z) {struct v} : ColumnVectorBatch :=
  let fb b := filter_base (rule v) b f_data f_size true_size in
  let cp {A} (buf : list A) := compact f_data f_size buf in
  let n := Z.to_nat f_size in
  match v with
  | LongVectorBatch b data => LongVectorBatch (fb b) (cp data)
  | DoubleVectorBatch b data => DoubleVectorBatch (fb b) (cp data)
  | StringVectorBatch b data len blob codes use_codes =>
      StringVectorBatch (fb b) (cp data) (cp len) blob codes use_codes
  | EncodedStringVectorBatch b data len blob codes use_codes dict index =>
      EncodedStringVectorBatch (fb b) data len blob codes use_codes dict
        (cp index)
  | StructVectorBatch b fields =>
      StructVectorBatch (fb b)
        (map (λ c, filter c f_data f_size true_size) fields)
  | ListVectorBatch b offsets elements =>
      let m := numElements (base elements) in
      let sel := element_selection f_data n offsets (Z.to_nat m) in
      ListVectorBatch (fb b)
        (overwrite (retained_offsets f_data n offsets) offsets)
        (filter elements sel m (count_true sel))
  | MapVectorBatch b offsets keys elements =>
      let mk := numElements (base keys) in
      let me := numElements (base elements) in
      let selk := element_selection f_data n offsets (Z.to_nat mk) in
      let sele := element_selection f_data n offsets (Z.to_nat me) in
      MapVectorBatch (fb b)
        (overwrite (retained_offsets f_data n offsets) offsets)
        (filter keys selk mk (count_true selk))
        (filter elements sele me (count_true sele))
  | UnionVectorBatch b tags offsets children =>
      let sizes := map rowCount children in
      UnionVectorBatch (fb b) (cp tags)
        (cp (union_offsets f_data n tags offsets sizes))
        ((fix each (k : nat) (cs : list ColumnVectorBatch) :=
            match cs with
            | [] => []
            | c :: cs =>
                let m := numElements (base c) in
                let sel := union_selection f_data n tags offsets k
                             (Z.to_nat m) in
                filter c sel m (count_true sel) :: each (S k) cs
            end) 0%nat children)
  | Decimal64VectorBatch b precision scale values readScales =>
      Decimal64VectorBatch (fb b) precision scale (cp values) readScales
  | Decimal128VectorBatch b precision scale values readScales =>
      Decimal128VectorBatch (fb b) precision scale (cp values) readScales
  | TimestampVectorBatch b data nanoseconds =>
      TimestampVectorBatch (fb b) (cp data) (cp nanoseconds)
  end.

End Filter.

(** *** Logical content

    What a row of a batch says: whether it is valid, and its value; for
    the nested batches, the values of the rows of the children it spans
    or points to. *)

#[warnings="-register-all"]
Inductive cell : Type :=
  | CLong (v : Z)
  | CDouble (v : float)
  | CString (ptr len : Z)
  | CEncoded (dictionary : StringDictionary) (code : Z)
  | CStruct (fields : list (bool * cell))
  | CList (elements : list (bool * cell))
  | CMap (entries : list ((bool * cell) * (bool * cell)))
  | CUnion (tag : Z) (value : option (bool * cell))
  | CDecimal (precision scale v : Z)
  | CTimestamp (seconds nanoseconds : Z).

(** The rows [[offsets[i], offsets[i+1])] of a child. *)
Definition span (offsets : list Z) (i : nat) : list nat :=
  seq (Z.to_nat (offsets !!! i)) (Z.to_nat (offsets !!! S i - offsets !!! i)).

Fixpoint get (v : ColumnVectorBatch) (i : nat) {struct v} : bool * cell :=
  (is_true (notNull (base v) !!! i),
   match v with
   | LongVectorBatch _ data => CLong (data !!! i)
   | DoubleVectorBatch _ data => CDouble (data !!! i)
   | StringVectorBatch _ data len _ _ _ => CString (data !!! i) (len !!! i)
   | EncodedStringVectorBatch _ _ _ _ _ _ dict index =>
       CEncoded dict (index !!! i)
   | StructVectorBatch _ fields => CStruct (map (λ c, get c i) fields)
   | ListVectorBatch _ offsets elements =>
       CList (map (get elements) (span offsets i))
   | MapVectorBatch _ offsets keys elements =>
       CMap (map (λ e, (get keys e, get elements e)) (span offsets i))
   | UnionVectorBatch _ tags offsets children =>
       CUnion (tags !!! i)
         (map (λ c, get c (Z.to_nat (offsets !!! i))) children
            !! Z.to_nat (tags !!! i))
   | Decimal64VectorBatch _ precision scale values _ =>
       CDecimal precision scale (values !!! i)
   | Decimal128VectorBatch _ precision scale values _ =>
       CDecimal precision scale (values !!! i)
   | TimestampVectorBatch _ data nanoseconds =>
       CTimestamp (data !!! i) (nanoseconds !!! i)
   end).

(** The logical content of a batch: its rows in order. *)
Definition rows (v : ColumnVectorBatch) : list (bool * cell) :=
  map (get v) (seq 0 (rowCount v)).

(** *** The invariants of the data model

    [numElements] rows fit every buffer; the fields of a struct have the
    row count of the struct; the offsets of a list or map start at or
    after 0, do not decrease and end at the row count of the children;
    a row of a union points into the child its tag names. *)

Definition offsets_ok (n : nat) (offsets : list Z) (child_rows : Z) : bool :=
  (n <? length offsets)%nat
  && (0 <=? offsets !!! 0%nat)
  && forallb (λ i, offsets !!! i <=? offsets !!! S i) (seq 0 n)
  && (offsets !!! n =? child_rows).

Definition points_into (children : list ColumnVectorBatch) (tag offset : Z)
  : bool :=
  (0 <=? tag) && (0 <=? offset)
  && match children !! Z.to_nat tag with
     | Some c => offset <? numElements (base c)
     | None => false
     end.

Fixpoint wf (v : ColumnVectorBatch) : bool :=
  let n := rowCount v in
  (0 <=? numElements (base v))
  && (n <=? length (notNull (base v)))%nat
  && match v with
     | LongVectorBatch _ data => (n <=? length data)%nat
     | DoubleVectorBatch _ data => (n <=? length data)%nat
     | StringVectorBatch _ data len _ _ _ =>
         (n <=? length data)%nat && (n <=? length len)%nat
     | EncodedStringVectorBatch _ _ _ _ _ _ _ index =>
         (n <=? length index)%nat
     | StructVectorBatch b fields =>
         forallb (λ c, wf c && (numElements (base c) =? numElements b)) fields
     | ListVectorBatch _ offsets elements =>
         offsets_ok n offsets (numElements (base elements)) && wf elements
     | MapVectorBatch _ offsets keys elements =>
         offsets_ok n offsets (numElements (base keys))
         && (numElements (base keys) =? numElements (base elements))
         && wf keys && wf elements
     | UnionVectorBatch _ tags offsets children =>
         (n <=? length tags)%nat && (n <=? length offsets)%nat
         && forallb (λ i, points_into children (tags !!! i) (offsets !!! i))
              (seq 0 n)
         && forallb wf children
     | Decimal64VectorBatch _ _ _ values _ => (n <=? length values)%nat
     | Decimal128VectorBatch _ _ _ values _ => (n <=? length values)%nat
     | TimestampVectorBatch _ data nanoseconds =>
         (n <=? length data)%nat && (n <=? length nanoseconds)%nat
     end.

(** *** Concrete batches *)

Definition plain (n : Z) (notNull : list Z) : Base :=
  {| capacity := Z.of_nat (length notNull); numElements := n;
     notNull := notNull; hasNulls := existsb (λ v, v =? 0) notNull;
     isEncoded := false |}.

Definition scan_always : ColumnVectorBatch → hasNulls_rule := λ _, ExactScan.

(** Rows of lengths 2, 0 and 3 over five longs, the second row null. *)
Definition list_203 : ColumnVectorBatch :=
  ListVectorBatch (plain 3 [1; 0; 1]) [0; 2; 2; 5]
    (LongVectorBatch (plain 5 [1; 1; 1; 1; 1]) [10; 11; 12; 13; 14]).

Example list_203_wf : wf list_203 = true.
Proof. reflexivity. Qed.

Example list_203_filtered :
  filter scan_always list_203 [1; 0; 1] 3 2
  = ListVectorBatch
      {| capacity := 3; numElements := 2; notNull := [1; 1; 1];
         hasNulls := false; isEncoded := false |}
      [0; 2; 5; 5]
      (LongVectorBatch (plain 5 [1; 1; 1; 1; 1]) [10; 11; 12; 13; 14]).
Proof. reflexivity. Qed.

Example list_203_rows :
  rows (filter scan_always list_203 [1; 0; 1] 3 2)
  = [(true, CList [(true, CLong 10); (true, CLong 11)]);
     (true, CList [(true, CLong 12); (true, CLong 13); (true, CLong 14)])].
Proof. reflexivity. Qed.

(** Three rows over two children; the element 1 of the first child is
    the first row, the element 0 of it is the last. *)
Definition union_3 : ColumnVectorBatch :=
  UnionVectorBatch (plain 3 [1; 1; 1]) [0; 1; 0] [1; 0; 0]
    [LongVectorBatch (plain 3 [1; 1; 1]) [10; 11; 12];
     StructVectorBatch (plain 1 [1])
       [LongVectorBatch (plain 1 [1]) [20];
        TimestampVectorBatch (plain 1 [0]) [21] [22]]].

Example union_3_wf : wf union_3 = true.
Proof. reflexivity. Qed.

Example union_3_rows :
  rows union_3
  = [(true, CUnion 0 (Some (true, CLong 11)));
     (true, CUnion 1 (Some (true, CStruct [(true, CLong 20);
                                           (false, CTimestamp 21 22)])));
     (true, CUnion 0 (Some (true, CLong 10)))].
Proof. reflexivity. Qed.

Example union_3_all_true :
  rows (filter scan_always union_3 [1; 1; 1] 3 3) = rows union_3
  ∧ filter scan_always union_3 [1; 1; 1] 3 3 ≠ union_3.
Proof. split; [reflexivity | discriminate]. Qed.

(** *** Selections, ranks and gathered buffers *)

Lemma selected_cons_S s f_data i :
  selected (s :: f_data) (S i) = selected f_data i.
Proof. reflexivity. Qed.

Lemma selected_lt f_data i : selected f_data i = true → (i < length f_data)%nat.
Proof.
  unfold selected. intros Hs. apply lookup_lt_is_Some.
  destruct (f_data !! i); [eauto | discriminate].
Qed.

Lemma selected_take f_data k i :
  (i < k)%nat → selected (take k f_data) i = selected f_data i.
Proof. intros Hi. unfold selected. rewrite lookup_take_lt by lia. reflexivity. Qed.

Lemma rank_take f_data k i :
  (i ≤ k)%nat → rank (take k f_data) i = rank f_data i.
Proof.
  revert k i. induction f_data as [| s f_data IH]; intros k i Hi.
  - rewrite take_nil. reflexivity.
  - destruct i as [| i]; [destruct k; reflexivity |].
    destruct k as [| k]; [lia |]. cbn [take rank].
    rewrite IH by lia. reflexivity.
Qed.

Lemma rank_S f_data i :
  rank f_data (S i) = (rank f_data i + if selected f_data i then 1 else 0)%nat.
Proof.
  revert i. induction f_data as [| s f_data IH]; intros i.
  - destruct i; reflexivity.
  - destruct i as [| i].
    + cbn. unfold selected. cbn. destruct f_data; destruct (is_true s); reflexivity.
    + change (rank (s :: f_data) (S (S i)))
        with ((if is_true s then 1 else 0) + rank f_data (S i))%nat.
      rewrite IH, selected_cons_S. cbn [rank]. lia.
Qed.

Lemma rank_le f_data i : (rank f_data i ≤ i)%nat.
Proof.
  induction i as [| i IH]; [destruct f_data; cbn; lia |].
  rewrite rank_S. destruct (selected f_data i); lia.
Qed.

Lemma rank_mono f_data i j : (i ≤ j)%nat → (rank f_data i ≤ rank f_data j)%nat.
Proof.
  induction 1 as [| j _ IH]; [lia |].
  rewrite rank_S. lia.
Qed.

Lemma rank_lt_selected f_data i j :
  (i < j)%nat → selected f_data i = true → (rank f_data i < rank f_data j)%nat.
Proof.
  intros Hij Hs. pose proof (rank_mono f_data (S i) j Hij) as Hm.
  rewrite rank_S, Hs in Hm. lia.
Qed.

Lemma length_gather {A} f_data (buf : list A) :
  (length f_data ≤ length buf)%nat →
  length (gather f_data buf) = rank f_data (length f_data).
Proof.
  revert buf. induction f_data as [| s f_data IH]; intros buf Hlen.
  - destruct buf; reflexivity.
  - destruct buf as [| x buf]; [cbn in Hlen; lia |].
    cbn [gather length rank]. cbn in Hlen.
    destruct (is_true s); cbn [length]; rewrite IH by lia; lia.
Qed.

Lemma gather_lookup {A} f_data (buf : list A) i :
  (i < length buf)%nat → selected f_data i = true →
  gather f_data buf !! rank f_data i = buf !! i.
Proof.
  revert buf i. induction f_data as [| s f_data IH]; intros buf i Hi Hs.
  - discriminate Hs.
  - destruct buf as [| x buf]; [cbn in Hi; lia |].
    destruct i as [| i].
    + unfold selected in Hs. cbn in Hs. cbn. rewrite Hs. reflexivity.
    + rewrite selected_cons_S in Hs. cbn [rank gather]. cbn in Hi.
      destruct (is_true s); cbn; apply IH; (lia || assumption).
Qed.

Lemma gather_take {A} f_data (buf : list A) i :
  take (rank f_data i) (gather f_data buf) = gather (take i f_data) buf.
Proof.
  revert buf i. induction f_data as [| s f_data IH]; intros buf i.
  - rewrite take_nil. destruct i; reflexivity.
  - destruct i as [| i]; [reflexivity |].
    destruct buf as [| x buf]; [apply take_nil |].
    cbn [rank take gather]. destruct (is_true s); cbn; rewrite IH; reflexivity.
Qed.

Lemma gather_take_S {A} f_data (buf : list A) i x :
  buf !! i = Some x →
  gather (take (S i) f_data) buf
  = gather (take i f_data) buf ++ (if selected f_data i then [x] else []).
Proof.
  revert buf i. induction f_data as [| s f_data IH]; intros buf i Hx.
  - rewrite !take_nil. reflexivity.
  - destruct buf as [| y buf]; [discriminate |].
    destruct i as [| i].
    + cbn in Hx. injection Hx as ->. unfold selected. cbn.
      destruct (is_true s); [| reflexivity].
      destruct f_data; destruct buf; reflexivity.
    + cbn in Hx. rewrite selected_cons_S.
      change (take (S (S i)) (s :: f_data)) with (s :: take (S i) f_data).
      change (take (S i) (s :: f_data)) with (s :: take i f_data).
      cbn [gather]. rewrite (IH buf i Hx).
      destruct (is_true s); reflexivity.
Qed.

Lemma compact_lookup {A} f_data f_size (buf : list A) i :
  (i < Z.to_nat f_size)%nat → (i < length buf)%nat →
  selected f_data i = true →
  compact f_data f_size buf !! rank f_data i = buf !! i.
Proof.
  intros Hi Hlen Hs. unfold compact, overwrite.
  rewrite <- (rank_take f_data (Z.to_nat f_size) i) by lia.
  rewrite <- (gather_lookup (take (Z.to_nat f_size) f_data) buf i)
    by (try rewrite selected_take; assumption).
  apply lookup_app_l. apply lookup_lt_is_Some.
  rewrite gather_lookup by (try rewrite selected_take; assumption).
  apply lookup_lt_is_Some. assumption.
Qed.

Lemma compact_lookup_total `{Inhabited A} f_data f_size (buf : list A) i :
  (i < Z.to_nat f_size)%nat → (i < length buf)%nat →
  selected f_data i = true →
  compact f_data f_size buf !!! rank f_data i = buf !!! i.
Proof.
  intros Hi Hlen Hs. rewrite !list_lookup_total_alt.
  rewrite compact_lookup by assumption. reflexivity.
Qed.

Lemma length_compact {A} f_data f_size (buf : list A) :
  length (compact f_data f_size buf) = length buf
  ∨ (length buf < length (compact f_data f_size buf))%nat.
Proof.
  unfold compact, overwrite. rewrite length_app, length_drop. lia.
Qed.

(** A selection of trues moves no row. *)
Lemma all_true_selected f_data i :
  forallb is_true f_data = true → (i < length f_data)%nat →
  selected f_data i = true.
Proof.
  revert i. induction f_data as [| s f_data IH]; intros i Hall Hi.
  - cbn in Hi. lia.
  - cbn in Hall. apply andb_prop in Hall as [Hs Hall].
    destruct i as [| i]; [exact Hs |].
    rewrite selected_cons_S. apply IH; [assumption | cbn in Hi; lia].
Qed.

Lemma all_true_rank f_data i :
  forallb is_true f_data = true → (i ≤ length f_data)%nat →
  rank f_data i = i.
Proof.
  intros Hall. induction i as [| i IH]; intros Hi.
  - destruct f_data; reflexivity.
  - rewrite rank_S, IH by lia.
    rewrite all_true_selected by (assumption || lia). lia.
Qed.

(** *** Counting the marked elements of a derived selection *)

Fixpoint cnt (p : nat → bool) (a k : nat) : nat :=
  match k with
  | O => O
  | S k => ((if p a then 1 else 0) + cnt p (S a) k)%nat
  end.

Lemma is_true_b2z b : is_true (b2z b) = b.
Proof. destruct b; reflexivity. Qed.

Lemma rank_fmap_seq p a m k :
  (k ≤ m)%nat → rank ((λ e, b2z (p e)) <$> seq a m) k = cnt p a k.
Proof.
  revert a m. induction k as [| k IH]; intros a m Hk.
  - destruct m; reflexivity.
  - destruct m as [| m]; [lia |].
    cbn [seq fmap list_fmap rank cnt]. rewrite is_true_b2z.
    f_equal. apply IH. lia.
Qed.

Lemma selected_fmap_seq p m e :
  (e < m)%nat → selected ((λ e, b2z (p e)) <$> seq 0 m) e = p e.
Proof.
  intros He. unfold selected.
  rewrite list_lookup_fmap, lookup_seq_lt by assumption.
  cbn. apply is_true_b2z.
Qed.

Lemma cnt_add p a k1 k2 :
  cnt p a (k1 + k2) = (cnt p a k1 + cnt p (a + k1) k2)%nat.
Proof.
  revert a. induction k1 as [| k1 IH]; intros a.
  - cbn. rewrite Nat.add_0_r. reflexivity.
  - cbn [Nat.add cnt]. rewrite IH.
    replace (S a + k1)%nat with (a + S k1)%nat by lia. lia.
Qed.

Lemma cnt_true p a k :
  (∀ e, (a ≤ e < a + k)%nat → p e = true) → cnt p a k = k.
Proof.
  revert a. induction k as [| k IH]; intros a Hp; [reflexivity |].
  cbn [cnt]. rewrite Hp by lia. rewrite IH; [lia |].
  intros e He. apply Hp. lia.
Qed.

Lemma cnt_false p a k :
  (∀ e, (a ≤ e < a + k)%nat → p e = false) → cnt p a k = 0%nat.
Proof.
  revert a. induction k as [| k IH]; intros a Hp; [reflexivity |].
  cbn [cnt]. rewrite Hp by lia. rewrite IH; [lia |].
  intros e He. apply Hp. lia.
Qed.

(** *** Prefix sums *)

Definition sumZ (l : list Z) : Z := foldr Z.add 0 l.

Lemma sumZ_app l1 l2 : sumZ (l1 ++ l2) = sumZ l1 + sumZ l2.
Proof.
  induction l1 as [| x l1 IH]; [reflexivity |].
  change (x + sumZ (l1 ++ l2) = x + sumZ l1 + sumZ l2). lia.
Qed.

Lemma length_prefix_sums lens acc :
  length (prefix_sums acc lens) = S (length lens).
Proof.
  revert acc. induction lens as [| l lens IH]; intros acc; cbn; [reflexivity |].
  rewrite IH. reflexivity.
Qed.

Lemma prefix_sums_lookup lens acc k :
  (k ≤ length lens)%nat →
  prefix_sums acc lens !! k = Some (acc + sumZ (take k lens)).
Proof.
  revert acc k. induction lens as [| l lens IH]; intros acc k Hk.
  - cbn in Hk. assert (k = 0%nat) as -> by lia. cbn. f_equal. lia.
  - destruct k as [| k]; [cbn; f_equal; lia |].
    cbn [prefix_sums lookup list_lookup take sumZ foldr].
    cbn in Hk. rewrite IH by lia. f_equal. fold (sumZ (take k lens)). lia.
Qed.

(** *** Offsets of lists and maps *)

Lemma offsets_ok_inv n offsets m :
  offsets_ok n offsets m = true →
  (n < length offsets)%nat
  ∧ 0 ≤ offsets !!! 0%nat
  ∧ (∀ i, (i < n)%nat → offsets !!! i ≤ offsets !!! S i)
  ∧ offsets !!! n = m.
Proof.
  unfold offsets_ok. intros Hok.
  apply andb_prop in Hok as [Hok Hend].
  apply andb_prop in Hok as [Hok Hmono].
  apply andb_prop in Hok as [Hlen Hzero].
  apply Nat.ltb_lt in Hlen. apply Z.leb_le in Hzero. apply Z.eqb_eq in Hend.
  repeat split; try assumption.
  intros i Hi. rewrite forallb_forall in Hmono.
  apply Z.leb_le, Hmono, in_seq. lia.
Qed.

Lemma offsets_mono (offsets : list Z) n :
  (∀ i, (i < n)%nat → offsets !!! i ≤ offsets !!! S i) →
  ∀ a b, (a ≤ b ≤ n)%nat → offsets !!! a ≤ offsets !!! b.
Proof.
  intros Hstep a b [Hab Hbn]. induction Hab as [| b Hab IH]; [lia |].
  specialize (Hstep b). lia.
Qed.

Lemma range_lengths_lookup offsets i :
  (S i < length offsets)%nat →
  range_lengths offsets !! i = Some (offsets !!! S i - offsets !!! i).
Proof.
  intros Hi. unfold range_lengths. rewrite lookup_zip_with, lookup_tail.
  rewrite (list_lookup_lookup_total_lt offsets i) by lia.
  rewrite (list_lookup_lookup_total_lt offsets (S i)) by lia.
  reflexivity.
Qed.

Lemma length_range_lengths offsets :
  length (range_lengths offsets) = pred (length offsets).
Proof.
  unfold range_lengths. rewrite length_zip_with.
  destruct offsets as [| x l]; [reflexivity |].
  cbn [tl length Nat.pred]. lia.
Qed.

(** The elements retained from the rows below row [i]. *)
Definition kept_before (f_data offsets : list Z) (i : nat) : Z :=
  sumZ (gather (take i f_data) (range_lengths offsets)).

Lemma kept_before_S f_data offsets i :
  (S i < length offsets)%nat →
  kept_before f_data offsets (S i)
  = kept_before f_data offsets i
    + if selected f_data i then offsets !!! S i - offsets !!! i else 0.
Proof.
  intros Hi. unfold kept_before.
  rewrite (gather_take_S _ _ _ _ (range_lengths_lookup offsets i Hi)).
  rewrite sumZ_app. destruct (selected f_data i); cbn; lia.
Qed.

Lemma in_retained_range_iff f_data n offsets e :
  in_retained_range f_data n offsets e = true
  ↔ ∃ i, (i < n)%nat ∧ selected f_data i = true
         ∧ offsets !!! i ≤ e < offsets !!! S i.
Proof.
  unfold in_retained_range. rewrite existsb_exists. split.
  - intros (i & Hin & Hi). apply in_seq in Hin.
    apply andb_prop in Hi as [Hi Hhi]. apply andb_prop in Hi as [Hs Hlo].
    apply Z.leb_le in Hlo. apply Z.ltb_lt in Hhi.
    exists i. repeat split; (assumption || lia).
  - intros (i & Hin & Hs & Hlo & Hhi). exists i. split.
    + apply in_seq. lia.
    + rewrite Hs. cbn. apply andb_true_intro.
      split; [apply Z.leb_le | apply Z.ltb_lt]; assumption.
Qed.

Lemma rank_element_selection f_data n offsets size k :
  (k ≤ size)%nat →
  rank (element_selection f_data n offsets size) k
  = cnt (λ e, in_retained_range f_data n offsets (Z.of_nat e)) 0 k.
Proof.
  intros Hk.
  apply (rank_fmap_seq (λ e, in_retained_range f_data n offsets (Z.of_nat e))).
  assumption.
Qed.

Lemma selected_element_selection f_data n offsets size e :
  (e < size)%nat →
  selected (element_selection f_data n offsets size) e
  = in_retained_range f_data n offsets (Z.of_nat e).
Proof.
  intros He.
  apply (selected_fmap_seq
           (λ e, in_retained_range f_data n offsets (Z.of_nat e))).
  assumption.
Qed.

Lemma map_seq_shift (f : nat → nat) a b k :
  (∀ t, (t < k)%nat → f (a + t)%nat = (b + t)%nat) →
  map f (seq a k) = seq b k.
Proof.
  revert a b. induction k as [| k IH]; intros a b Hf; [reflexivity |].
  cbn [seq map]. f_equal.
  - specialize (Hf 0%nat). rewrite !Nat.add_0_r in Hf. apply Hf. lia.
  - apply IH. intros t Ht. specialize (Hf (S t)).
    replace (S a + t)%nat with (a + S t)%nat by lia.
    replace (S b + t)%nat with (b + S t)%nat by lia. apply Hf. lia.
Qed.

Section Ranges.

Variables (f_data offsets : list Z) (n : nat) (m : Z).
Hypothesis Hok : offsets_ok n offsets m = true.

Lemma offsets_nonneg i : (i ≤ n)%nat → 0 ≤ offsets !!! i.
Proof.
  intros Hi. destruct (offsets_ok_inv _ _ _ Hok) as (_ & H0 & Hstep & _).
  pose proof (offsets_mono offsets n Hstep 0%nat i). lia.
Qed.

Lemma offsets_le_end i : (i ≤ n)%nat → offsets !!! i ≤ m.
Proof.
  intros Hi. destruct (offsets_ok_inv _ _ _ Hok) as (_ & _ & Hstep & Hend).
  pose proof (offsets_mono offsets n Hstep i n). lia.
Qed.

Lemma retained_in_row i e :
  (i < n)%nat → offsets !!! i ≤ e < offsets !!! S i →
  in_retained_range f_data n offsets e = selected f_data i.
Proof.
  intros Hi He. destruct (offsets_ok_inv _ _ _ Hok) as (_ & _ & Hstep & _).
  destruct (selected f_data i) eqn:Hs.
  - apply in_retained_range_iff. exists i. auto.
  - apply not_true_iff_false. intros Hin.
    apply in_retained_range_iff in Hin as (j & Hj & Hsj & Hej).
    destruct (lt_eq_lt_dec j i) as [[Hlt | ->] | Hgt].
    + pose proof (offsets_mono offsets n Hstep (S j) i). lia.
    + congruence.
    + pose proof (offsets_mono offsets n Hstep (S i) j). lia.
Qed.

Lemma retained_below e :
  e < offsets !!! 0%nat → in_retained_range f_data n offsets e = false.
Proof.
  intros He. destruct (offsets_ok_inv _ _ _ Hok) as (_ & _ & Hstep & _).
  apply not_true_iff_false. intros Hin.
  apply in_retained_range_iff in Hin as (j & Hj & _ & Hej).
  pose proof (offsets_mono offsets n Hstep 0%nat j). lia.
Qed.

Lemma count_below_row i :
  (i ≤ n)%nat →
  Z.of_nat (cnt (λ e, in_retained_range f_data n offsets (Z.of_nat e)) 0
              (Z.to_nat (offsets !!! i)))
  = kept_before f_data offsets i.
Proof.
  destruct (offsets_ok_inv _ _ _ Hok) as (Hlen & H0 & Hstep & _).
  induction i as [| i IH]; intros Hi.
  - rewrite cnt_false; [reflexivity |].
    intros e He. apply retained_below. lia.
  - pose proof (offsets_nonneg i ltac:(lia)) as Hnn.
    pose proof (Hstep i ltac:(lia)) as Hle.
    replace (Z.to_nat (offsets !!! S i))
      with (Z.to_nat (offsets !!! i)
            + Z.to_nat (offsets !!! S i - offsets !!! i))%nat by lia.
    rewrite cnt_add, Nat2Z.inj_add, IH by lia.
    rewrite kept_before_S by lia. f_equal. cbn [Nat.add].
    destruct (selected f_data i) eqn:Hs.
    + rewrite cnt_true; [lia |].
      intros e He. rewrite (retained_in_row i) by lia. exact Hs.
    + rewrite cnt_false; [lia |].
      intros e He. rewrite (retained_in_row i) by lia. exact Hs.
Qed.

Lemma count_in_row i t :
  (i < n)%nat → selected f_data i = true →
  (t ≤ Z.to_nat (offsets !!! S i - offsets !!! i))%nat →
  Z.of_nat (cnt (λ e, in_retained_range f_data n offsets (Z.of_nat e)) 0
              (Z.to_nat (offsets !!! i) + t))
  = kept_before f_data offsets i + Z.of_nat t.
Proof.
  intros Hi Hs Ht.
  pose proof (offsets_nonneg i ltac:(lia)) as Hnn.
  rewrite cnt_add, Nat2Z.inj_add, count_below_row by lia.
  f_equal. cbn [Nat.add]. rewrite cnt_true; [reflexivity |].
  intros e He. rewrite (retained_in_row i) by lia. exact Hs.
Qed.

Lemma kept_before_nonneg i : (i ≤ n)%nat → 0 ≤ kept_before f_data offsets i.
Proof. intros Hi. rewrite <- count_below_row by assumption. lia. Qed.

(** Where the rebuilt offsets put the selected row [i]. *)
Lemma retained_offsets_lookup i :
  (i < n)%nat → selected f_data i = true →
  overwrite (retained_offsets f_data n offsets) offsets !!! rank f_data i
  = kept_before f_data offsets i
  ∧ overwrite (retained_offsets f_data n offsets) offsets !!! S (rank f_data i)
    = kept_before f_data offsets i + (offsets !!! S i - offsets !!! i).
Proof.
  intros Hi Hs.
  destruct (offsets_ok_inv _ _ _ Hok) as (Hlen & _).
  set (G := gather (take n f_data) (range_lengths offsets)).
  assert (HG : (rank f_data i < length G)%nat).
  { unfold G. rewrite length_gather
      by (rewrite length_take, length_range_lengths; lia).
    rewrite <- (rank_take f_data n i) by lia.
    apply rank_lt_selected.
    - rewrite length_take. apply selected_lt in Hs. lia.
    - rewrite selected_take by lia. exact Hs. }
  assert (Htake : ∀ j, (j ≤ n)%nat →
            sumZ (take (rank f_data j) G) = kept_before f_data offsets j).
  { intros j Hj. unfold G, kept_before.
    rewrite <- (rank_take f_data n j) by lia.
    rewrite gather_take, take_take.
    replace (j `min` n)%nat with j by lia. reflexivity. }
  unfold overwrite, retained_offsets. fold G.
  assert (Hat : ∀ k, (k ≤ length G)%nat →
            (prefix_sums 0 G ++ drop (length (prefix_sums 0 G)) offsets) !!! k
            = sumZ (take k G)).
  { intros k Hk. apply list_lookup_total_correct.
    rewrite lookup_app_l by (rewrite length_prefix_sums; lia).
    rewrite prefix_sums_lookup by lia. f_equal. }
  rewrite !Hat by lia. split.
  - apply Htake. lia.
  - replace (S (rank f_data i)) with (rank f_data (S i))
      by (rewrite rank_S, Hs; lia).
    rewrite Htake by lia. rewrite kept_before_S by lia. rewrite Hs.
    reflexivity.
Qed.

(** The span of a selected row after [filter] is the image of its span
    before, under the rank of the element-level selection. *)
Lemma span_retained i :
  (i < n)%nat → selected f_data i = true →
  span (overwrite (retained_offsets f_data n offsets) offsets) (rank f_data i)
  = map (rank (element_selection f_data n offsets (Z.to_nat m)))
      (span offsets i).
Proof.
  intros Hi Hs. destruct (offsets_ok_inv _ _ _ Hok) as (_ & _ & Hstep & _).
  destruct (retained_offsets_lookup i Hi Hs) as [Hlo Hhi].
  unfold span. rewrite Hhi, Hlo.
  replace (kept_before f_data offsets i + (offsets !!! S i - offsets !!! i)
           - kept_before f_data offsets i)
    with (offsets !!! S i - offsets !!! i) by lia.
  symmetry. apply map_seq_shift. intros t Ht.
  pose proof (offsets_nonneg i ltac:(lia)).
  pose proof (offsets_le_end (S i) ltac:(lia)).
  assert (Z.to_nat (offsets !!! i) + t ≤ Z.to_nat m)%nat by lia.
  rewrite rank_element_selection by assumption.
  apply Nat2Z.inj. rewrite count_in_row by (assumption || lia).
  pose proof (kept_before_nonneg i ltac:(lia)). lia.
Qed.

Lemma span_selected i e :
  (i < n)%nat → selected f_data i = true → In e (span offsets i) →
  (e < Z.to_nat m)%nat
  ∧ selected (element_selection f_data n offsets (Z.to_nat m)) e = true.
Proof.
  intros Hi Hs He. unfold span in He. apply in_seq in He.
  pose proof (offsets_nonneg i ltac:(lia)).
  pose proof (offsets_le_end (S i) ltac:(lia)).
  assert (e < Z.to_nat m)%nat by lia.
  split; [assumption |].
  rewrite selected_element_selection by assumption.
  rewrite (retained_in_row i) by lia. exact Hs.
Qed.

End Ranges.

(** *** Derived selections of a union *)

Lemma selected_union_selection f_data n tags offsets k size e :
  (e < size)%nat →
  selected (union_selection f_data n tags offsets k size) e
  = is_marked f_data n tags offsets k (Z.of_nat e).
Proof.
  intros He.
  apply (selected_fmap_seq
           (λ e, is_marked f_data n tags offsets k (Z.of_nat e))).
  assumption.
Qed.

Lemma is_marked_row f_data n (tags offsets : list Z) i :
  (i < n)%nat → selected f_data i = true → 0 ≤ tags !!! i →
  is_marked f_data n tags offsets (Z.to_nat (tags !!! i)) (offsets !!! i)
  = true.
Proof.
  intros Hi Hs Htag. unfold is_marked. apply existsb_exists.
  exists i. split; [apply in_seq; lia |].
  rewrite Hs, Z2Nat.id, !Z.eqb_refl by assumption. reflexivity.
Qed.

Lemma length_union_offsets f_data n tags offsets sizes :
  length (union_offsets f_data n tags offsets sizes) = length offsets.
Proof. unfold union_offsets. rewrite length_fmap, length_seq. reflexivity. Qed.

Lemma union_offsets_lookup f_data n tags offsets sizes i :
  (i < length offsets)%nat →
  union_offsets f_data n tags offsets sizes !!! i
  = Z.of_nat (rank (union_selection f_data n tags offsets
                      (Z.to_nat (tags !!! i))
                      (sizes !!! Z.to_nat (tags !!! i)))
                (Z.to_nat (offsets !!! i))).
Proof.
  intros Hi. apply list_lookup_total_correct. unfold union_offsets.
  rewrite list_lookup_fmap, lookup_seq_lt by assumption. reflexivity.
Qed.

Section Children.

Variable rule : ColumnVectorBatch → hasNulls_rule.

(** The children of a union after [filter], from child [k] on. *)
Definition filter_children (f_data : list Z) (n : nat) (tags offsets : list Z)
  : nat → list ColumnVectorBatch → list ColumnVectorBatch :=
  fix each (k : nat) (cs : list ColumnVectorBatch) :=
    match cs with
    | [] => []
    | c :: cs =>
        let m := numElements (base c) in
        let sel := union_selection f_data n tags offsets k (Z.to_nat m) in
        filter rule c sel m (count_true sel) :: each (S k) cs
    end.

Lemma filter_union b tags offsets children f_data f_size true_size :
  filter rule (UnionVectorBatch b tags offsets children) f_data f_size true_size
  = UnionVectorBatch
      (filter_base (rule (UnionVectorBatch b tags offsets children)) b
         f_data f_size true_size)
      (compact f_data f_size tags)
      (compact f_data f_size
         (union_offsets f_data (Z.to_nat f_size) tags offsets
            (map rowCount children)))
      (filter_children f_data (Z.to_nat f_size) tags offsets 0 children).
Proof. reflexivity. Qed.

Lemma filter_children_lookup f_data n tags offsets k cs j c :
  cs !! j = Some c →
  filter_children f_data n tags offsets k cs !! j
  = Some (filter rule c
            (union_selection f_data n tags offsets (k + j) (rowCount c))
            (numElements (base c))
            (count_true
               (union_selection f_data n tags offsets (k + j) (rowCount c)))).
Proof.
  revert k j. induction cs as [| c0 cs IH]; intros k j Hc; [discriminate |].
  destruct j as [| j].
  - cbn in Hc. injection Hc as ->. cbn. rewrite Nat.add_0_r. reflexivity.
  - cbn in Hc.
    change (filter_children f_data n tags offsets k (c0 :: cs))
      with (filter rule c0
              (union_selection f_data n tags offsets k (rowCount c0))
              (numElements (base c0))
              (count_true
                 (union_selection f_data n tags offsets k (rowCount c0)))
            :: filter_children f_data n tags offsets (S k) cs).
    replace (k + S j)%nat with (S k + j)%nat by lia.
    exact (IH (S k) j Hc).
Qed.

End Children.

(** *** Induction over nested batches *)

Section batch_ind.

Variable P : ColumnVectorBatch → Prop.

Hypothesis PLong : ∀ b data, P (LongVectorBatch b data).
Hypothesis PDouble : ∀ b data, P (DoubleVectorBatch b data).
Hypothesis PString : ∀ b data len blob codes use_codes,
  P (StringVectorBatch b data len blob codes use_codes).
Hypothesis PEncoded : ∀ b data len blob codes use_codes dict index,
  P (EncodedStringVectorBatch b data len blob codes use_codes dict index).
Hypothesis PStruct : ∀ b fields,
  Forall P fields → P (StructVectorBatch b fields).
Hypothesis PList : ∀ b offsets elements,
  P elements → P (ListVectorBatch b offsets elements).
Hypothesis PMap : ∀ b offsets keys elements,
  P keys → P elements → P (MapVectorBatch b offsets keys elements).
Hypothesis PUnion : ∀ b tags offsets children,
  Forall P children → P (UnionVectorBatch b tags offsets children).
Hypothesis PDecimal64 : ∀ b precision scale values readScales,
  P (Decimal64VectorBatch b precision scale values readScales).
Hypothesis PDecimal128 : ∀ b precision scale values readScales,
  P (Decimal128VectorBatch b precision scale values readScales).
Hypothesis PTimestamp : ∀ b data nanoseconds,
  P (TimestampVectorBatch b data nanoseconds).

Fixpoint batch_ind (v : ColumnVectorBatch) : P v :=
  let all :=
    fix all (cs : list ColumnVectorBatch) : Forall P cs :=
      match cs with
      | [] => @List.Forall_nil _ P
      | c :: cs => @List.Forall_cons _ P c cs (batch_ind c) (all cs)
      end in
  match v with
  | LongVectorBatch b data => PLong b data
  | DoubleVectorBatch b data => PDouble b data
  | StringVectorBatch b data len blob codes use_codes =>
      PString b data len blob codes use_codes
  | EncodedStringVectorBatch b data len blob codes use_codes dict index =>
      PEncoded b data len blob codes use_codes dict index
  | StructVectorBatch b fields => PStruct b fields (all fields)
  | ListVectorBatch b offsets elements =>
      PList b offsets elements (batch_ind elements)
  | MapVectorBatch b offsets keys elements =>
      PMap b offsets keys elements (batch_ind keys) (batch_ind elements)
  | UnionVectorBatch b tags offsets children =>
      PUnion b tags offsets children (all children)
  | Decimal64VectorBatch b precision scale values readScales =>
      PDecimal64 b precision scale values readScales
  | Decimal128VectorBatch b precision scale values readScales =>
      PDecimal128 b precision scale values readScales
  | TimestampVectorBatch b data nanoseconds => PTimestamp b data nanoseconds
  end.

End batch_ind.

(** *** [filter] keeps the selected rows *)

Ltac split_wf :=
  repeat match goal with
    | H : _ && _ = true |- _ => apply andb_prop in H as [? ?]
    | H : (_ <=? _)%nat = true |- _ => apply Nat.leb_le in H
    | H : (_ <=? _)%Z = true |- _ => apply Z.leb_le in H
    | H : (_ <? _)%Z = true |- _ => apply Z.ltb_lt in H
    | H : (_ =? _)%Z = true |- _ => apply Z.eqb_eq in H
    end.

Ltac flat_case :=
  intros; cbn [wf] in *; unfold rowCount in *; cbn [base] in *; split_wf;
  cbn [filter get base filter_base notNull];
  rewrite ?compact_lookup_total by (assumption || lia);
  reflexivity.

Section FilterGet.

Variable rule : ColumnVectorBatch → hasNulls_rule.

Lemma numElements_filter v f_data f_size true_size :
  numElements (base (filter rule v f_data f_size true_size)) = true_size.
Proof. destruct v; reflexivity. Qed.

Lemma notNull_filter v f_data f_size true_size :
  notNull (base (filter rule v f_data f_size true_size))
  = compact f_data f_size (notNull (base v)).
Proof. destruct v; reflexivity. Qed.

(** The selected row [i] is row [rank f_data i] of the filtered batch. *)
Definition keeps_rows (v : ColumnVectorBatch) : Prop :=
  wf v = true →
  ∀ f_data true_size i,
    (i < rowCount v)%nat → selected f_data i = true →
    get (filter rule v f_data (numElements (base v)) true_size)
      (rank f_data i)
    = get v i.

Lemma wf_struct b fields :
  wf (StructVectorBatch b fields) = true →
  (Z.to_nat (numElements b) ≤ length (notNull b))%nat
  ∧ ∀ c, In c fields → wf c = true ∧ numElements (base c) = numElements b.
Proof.
  cbn [wf]. unfold rowCount. cbn [base]. intros Hwf.
  apply andb_prop in Hwf as [Hwf Hfields].
  apply andb_prop in Hwf as [_ Hnn]. apply Nat.leb_le in Hnn.
  split; [assumption |]. intros c Hc.
  rewrite forallb_forall in Hfields. specialize (Hfields c Hc).
  apply andb_prop in Hfields as [Hc1 Hc2]. apply Z.eqb_eq in Hc2. auto.
Qed.

Lemma wf_list b offsets elements :
  wf (ListVectorBatch b offsets elements) = true →
  (Z.to_nat (numElements b) ≤ length (notNull b))%nat
  ∧ offsets_ok (Z.to_nat (numElements b)) offsets
      (numElements (base elements)) = true
  ∧ wf elements = true.
Proof.
  cbn [wf]. unfold rowCount. cbn [base]. intros Hwf.
  apply andb_prop in Hwf as [Hwf Hrest].
  apply andb_prop in Hwf as [_ Hnn]. apply Nat.leb_le in Hnn.
  apply andb_prop in Hrest as [Hoff Hel]. auto.
Qed.

Lemma wf_map b offsets keys elements :
  wf (MapVectorBatch b offsets keys elements) = true →
  (Z.to_nat (numElements b) ≤ length (notNull b))%nat
  ∧ offsets_ok (Z.to_nat (numElements b)) offsets
      (numElements (base keys)) = true
  ∧ numElements (base keys) = numElements (base elements)
  ∧ wf keys = true ∧ wf elements = true.
Proof.
  cbn [wf]. unfold rowCount. cbn [base]. intros Hwf.
  apply andb_prop in Hwf as [Hwf Hrest].
  apply andb_prop in Hwf as [_ Hnn]. apply Nat.leb_le in Hnn.
  apply andb_prop in Hrest as [Hrest Hel].
  apply andb_prop in Hrest as [Hrest Hk].
  apply andb_prop in Hrest as [Hoff Heq]. apply Z.eqb_eq in Heq. auto.
Qed.

Lemma wf_union b tags offsets children :
  wf (UnionVectorBatch b tags offsets children) = true →
  (Z.to_nat (numElements b) ≤ length (notNull b))%nat
  ∧ (Z.to_nat (numElements b) ≤ length tags)%nat
  ∧ (Z.to_nat (numElements b) ≤ length offsets)%nat
  ∧ (∀ i, (i < Z.to_nat (numElements b))%nat →
       points_into children (tags !!! i) (offsets !!! i) = true)
  ∧ ∀ c, In c children → wf c = true.
Proof.
  cbn [wf]. unfold rowCount. cbn [base]. intros Hwf.
  apply andb_prop in Hwf as [Hwf Hrest].
  apply andb_prop in Hwf as [_ Hnn]. apply Nat.leb_le in Hnn.
  apply andb_prop in Hrest as [Hrest Hch].
  apply andb_prop in Hrest as [Hrest Hpt].
  apply andb_prop in Hrest as [Htags Hoffs].
  apply Nat.leb_le in Htags, Hoffs.
  repeat split; try assumption.
  - intros i Hi. rewrite forallb_forall in Hpt. apply Hpt, in_seq. lia.
  - intros c Hc. rewrite forallb_forall in Hch. auto.
Qed.

Lemma keeps_rows_struct b fields :
  Forall keeps_rows fields → keeps_rows (StructVectorBatch b fields).
Proof.
  intros IH Hwf f_data true_size i Hi Hs.
  destruct (wf_struct _ _ Hwf) as (Hnn & Hfields).
  unfold rowCount in Hi. cbn [base] in Hi.
  cbn [filter get base filter_base notNull].
  rewrite compact_lookup_total by (assumption || lia).
  do 2 f_equal. rewrite map_map. apply map_ext_in. intros c Hc.
  rewrite Forall_forall in IH.
  destruct (Hfields c Hc) as [Hwfc Hrows].
  rewrite <- Hrows. apply IH.
  - apply list_elem_of_In. assumption.
  - assumption.
  - unfold rowCount. rewrite Hrows. assumption.
  - assumption.
Qed.

Lemma keeps_rows_list b offsets elements :
  keeps_rows elements → keeps_rows (ListVectorBatch b offsets elements).
Proof.
  intros IH Hwf f_data true_size i Hi Hs.
  destruct (wf_list _ _ _ Hwf) as (Hnn & Hok & Hwfe).
  unfold rowCount in Hi. cbn [base] in Hi.
  cbn [filter get base filter_base notNull].
  rewrite compact_lookup_total by (assumption || lia).
  do 2 f_equal.
  rewrite (span_retained f_data offsets _ _ Hok) by assumption.
  rewrite map_map. apply map_ext_in. intros e He.
  destruct (span_selected f_data offsets _ _ Hok i e Hi Hs He) as [Hlt Hsel].
  apply IH; assumption.
Qed.

Lemma keeps_rows_map b offsets keys elements :
  keeps_rows keys → keeps_rows elements →
  keeps_rows (MapVectorBatch b offsets keys elements).
Proof.
  intros IHk IHe Hwf f_data true_size i Hi Hs.
  destruct (wf_map _ _ _ _ Hwf) as (Hnn & Hok & Hrows & Hwfk & Hwfe).
  unfold rowCount in Hi. cbn [base] in Hi.
  cbn [filter get base filter_base notNull].
  rewrite compact_lookup_total by (assumption || lia).
  do 2 f_equal.
  rewrite (span_retained f_data offsets _ _ Hok) by assumption.
  rewrite map_map. apply map_ext_in. intros e He.
  destruct (span_selected f_data offsets _ _ Hok i e Hi Hs He) as [Hlt Hsel].
  f_equal.
  - apply IHk; assumption.
  - rewrite Hrows in Hlt, Hsel |- *. apply IHe; assumption.
Qed.

Lemma lookup_map {A B} (f : A → B) (l : list A) (i : nat) :
  map f l !! i = f <$> l !! i.
Proof.
  revert i. induction l as [| x l IH]; intros [| i]; cbn; auto.
Qed.

Lemma keeps_rows_union b tags offsets children :
  Forall keeps_rows children →
  keeps_rows (UnionVectorBatch b tags offsets children).
Proof.
  intros IH Hwf f_data true_size i Hi Hs.
  destruct (wf_union _ _ _ _ Hwf) as (Hnn & Htags & Hoffs & Hpt & Hch).
  unfold rowCount in Hi. cbn [base] in Hi.
  rewrite filter_union. cbn [get base filter_base notNull].
  rewrite !compact_lookup_total
    by (assumption || lia || (rewrite length_union_offsets; lia)).
  rewrite union_offsets_lookup by lia. rewrite Nat2Z.id.
  specialize (Hpt i Hi). unfold points_into in Hpt.
  apply andb_prop in Hpt as [Hpt Hin].
  apply andb_prop in Hpt as [Htag Hoff].
  apply Z.leb_le in Htag, Hoff.
  destruct (children !! Z.to_nat (tags !!! i)) as [c |] eqn:Hc;
    [| discriminate].
  apply Z.ltb_lt in Hin.
  assert (Hsize : map rowCount children !!! Z.to_nat (tags !!! i)
                  = rowCount c).
  { apply list_lookup_total_correct. rewrite lookup_map, Hc. reflexivity. }
  rewrite Hsize. do 2 f_equal.
  rewrite !lookup_map, Hc.
  rewrite (filter_children_lookup rule _ _ _ _ 0 _ _ c Hc).
  cbn [fmap option_fmap option_map Nat.add]. f_equal.
  assert (Hcin : In c children)
    by (apply list_elem_of_In, list_elem_of_lookup_2 with (Z.to_nat (tags !!! i));
        exact Hc).
  rewrite Forall_forall in IH. apply IH.
  - apply list_elem_of_In. exact Hcin.
  - apply Hch. exact Hcin.
  - unfold rowCount. lia.
  - rewrite selected_union_selection by (unfold rowCount; lia).
    rewrite Z2Nat.id by assumption.
    apply is_marked_row; assumption.
Qed.

Lemma filter_keeps_rows v : keeps_rows v.
Proof.
  induction v using batch_ind;
    first [ apply keeps_rows_struct; assumption
          | apply keeps_rows_list; assumption
          | apply keeps_rows_map; assumption
          | apply keeps_rows_union; assumption
          | unfold keeps_rows; flat_case ].
Qed.

(** The rows of the filtered batch are the selected rows, in order. *)
Lemma map_seq_gather {A} (g g' : nat → A) f_data a r :
  (∀ i, (i < length f_data)%nat → selected f_data i = true →
        g' (r + rank f_data i)%nat = g (a + i)%nat) →
  map g' (seq r (rank f_data (length f_data)))
  = gather f_data (map g (seq a (length f_data))).
Proof.
  revert a r. induction f_data as [| s f_data IH]; intros a r Hg.
  - reflexivity.
  - cbn [length seq map gather rank].
    assert (Hrest : ∀ r', (∀ i, (i < length f_data)%nat →
                selected f_data i = true →
                g' (r' + rank f_data i)%nat = g (S a + i)%nat) →
              map g' (seq r' (rank f_data (length f_data)))
              = gather f_data (map g (seq (S a) (length f_data))))
      by (intros r' Hr'; apply IH; exact Hr').
    destruct (is_true s) eqn:Hs.
    + cbn [Nat.add seq map]. f_equal.
      * specialize (Hg 0%nat). cbn in Hg. rewrite !Nat.add_0_r in Hg.
        apply Hg; [lia | unfold selected; cbn; exact Hs].
      * apply Hrest. intros i Hi Hsel.
        specialize (Hg (S i)). cbn [length rank] in Hg. rewrite Hs in Hg.
        replace (S r + rank f_data i)%nat
          with (r + (1 + rank f_data i))%nat by lia.
        replace (S a + i)%nat with (a + S i)%nat by lia.
        apply Hg; [lia | exact Hsel].
    + cbn [Nat.add]. apply Hrest. intros i Hi Hsel.
      specialize (Hg (S i)). cbn [length rank] in Hg. rewrite Hs in Hg.
      replace (S a + i)%nat with (a + S i)%nat by lia.
      apply Hg; [lia | exact Hsel].
Qed.

Lemma filter_rows v f_data :
  wf v = true → length f_data = rowCount v →
  rows (filter rule v f_data (numElements (base v)) (count_true f_data))
  = gather f_data (rows v).
Proof.
  intros Hwf Hlen. unfold rows, rowCount at 1.
  rewrite numElements_filter. unfold count_true. rewrite Nat2Z.id.
  rewrite <- Hlen. apply map_seq_gather. intros i Hi Hs.
  cbn [Nat.add]. apply filter_keeps_rows; [assumption | lia | assumption].
Qed.

Lemma gather_all_true {A} f_data (buf : list A) :
  forallb is_true f_data = true → length f_data = length buf →
  gather f_data buf = buf.
Proof.
  revert buf. induction f_data as [| s f_data IH]; intros buf Hall Hlen.
  - destruct buf; [reflexivity | discriminate].
  - destruct buf as [| x buf]; [discriminate |].
    cbn in Hall. apply andb_prop in Hall as [Hs Hall].
    cbn [gather]. rewrite Hs. f_equal. apply IH; [assumption |].
    cbn in Hlen. lia.
Qed.

(** C7. Identity on an all-true selection: for every batch variant that
    meets the invariants of the data model, [filter] with a selection
    of [numElements] trues and [true_size = numElements] leaves
    [numElements] and the rows (validity, values, order) as they
    were. *)
Theorem filter_all_true (v : ColumnVectorBatch) (f_data : list Z) :
  wf v = true → length f_data = rowCount v →
  forallb is_true f_data = true →
  numElements (base (filter rule v f_data (numElements (base v))
                       (numElements (base v))))
  = numElements (base v)
  ∧ rows (filter rule v f_data (numElements (base v)) (numElements (base v)))
    = rows v.
Proof.
  intros Hwf Hlen Hall. split; [apply numElements_filter |].
  assert (Hn : 0 ≤ numElements (base v))
    by (destruct v; cbn [wf] in Hwf;
        apply andb_prop in Hwf as [Hwf _];
        apply andb_prop in Hwf as [Hwf _];
        apply Z.leb_le in Hwf; exact Hwf).
  assert (Hcount : count_true f_data = numElements (base v)).
  { unfold count_true. rewrite all_true_rank by (assumption || lia).
    rewrite Hlen. unfold rowCount. lia. }
  rewrite <- Hcount at 2. rewrite filter_rows by assumption.
  apply gather_all_true; [assumption |].
  unfold rows. rewrite length_map, length_seq. assumption.
Qed.

End FilterGet.

(** *** A batch of every variant *)

Definition carry_always : ColumnVectorBatch → hasNulls_rule :=
  λ _, CarryForward.

(** Three rows of a struct with a field of each kind. *)
Definition every_variant : ColumnVectorBatch :=
  StructVectorBatch (plain 3 [1; 1; 0])
    [LongVectorBatch (plain 3 [1; 0; 1]) [7; 8; 9; 0];
     DoubleVectorBatch (plain 3 [1; 1; 1]) [0.5; 1.5; 2.5]%float;
     StringVectorBatch (plain 3 [1; 1; 1]) [0; 2; 2] [2; 0; 3]
       [97; 98; 99; 100; 101] [] false;
     EncodedStringVectorBatch
       {| capacity := 3; numElements := 3; notNull := [1; 1; 1];
          hasNulls := false; isEncoded := true |}
       [] [] [] [] false dict_abc [2; 0; 1];
     list_203;
     MapVectorBatch (plain 3 [1; 1; 1]) [1; 2; 2; 3]
       (LongVectorBatch (plain 3 [1; 1; 1]) [30; 31; 32])
       (TimestampVectorBatch (plain 3 [1; 1; 1]) [40; 41; 42] [0; 5; 9]);
     union_3;
     Decimal64VectorBatch (plain 3 [1; 1; 1]) 10 2 [100; 250; 399] [];
     Decimal128VectorBatch (plain 3 [1; 1; 1]) 38 4
       [170141183460469231731687303715884105727; 0; -1] []].

Example every_variant_wf : wf every_variant = true.
Proof. vm_compute. reflexivity. Qed.

Example every_variant_filtered :
  rows (filter scan_always every_variant [0; 1; 1] 3 2)
  = gather [0; 1; 1] (rows every_variant).
Proof. vm_compute. reflexivity. Qed.

Lemma filter_all_true_witness :
  numElements (base (filter carry_always every_variant [1; 1; 255] 3 3)) = 3
  ∧ rows (filter carry_always every_variant [1; 1; 255] 3 3)
    = rows every_variant.
Proof.
  apply (filter_all_true carry_always every_variant [1; 1; 255]).
  - vm_compute. reflexivity.
  - reflexivity.
  - reflexivity.
Defined.

End Vector.

(** ** More on BloomFilter (bloom_filter.h) *)

Module BloomProps.

Import Bloom.

(** [x & (x - 1) == 0] for a positive [x] says that [x] is a power of
    two. *)
Lemma land_pred_zero (x : Z) :
  0 < x → Z.land x (x - 1) = 0 → x = 2 ^ Z.log2 x.
Proof.
  intros Hx Hland.
  destruct (Z.log2_spec x Hx) as [Hlo Hhi].
  destruct (Z.eq_dec x (2 ^ Z.log2 x)) as [Heq | Hne]; [exact Heq |].
  exfalso.
  assert (Hlog : Z.log2 (x - 1) = Z.log2 x).
  { apply Z.log2_unique; [apply Z.log2_nonneg |].
    rewrite <- Z.add_1_r in Hhi. lia. }
  assert (Hbit : Z.testbit (Z.land x (x - 1)) (Z.log2 x) = true).
  { rewrite Z.land_spec, Z.bit_log2 by assumption.
    rewrite <- Hlog. rewrite Z.bit_log2; [reflexivity |].
    pose proof (Z.pow_pos_nonneg 2 (Z.log2 x) ltac:(lia) (Z.log2_nonneg x)).
    lia. }
  rewrite Hland, Z.bits_0 in Hbit. discriminate.
Qed.

Section Props.

Variable dchecks : bool.
Variable HASH_MURMUR3_X64_64 : HashStrategyPB.
Variable murmur_hash3_x64_64 : hash_func_t.
Variable _optimal_bit_num : Z → float → Z.
Context {impl : BloomFilterImpl}.
Context {impl_ok : BloomFilterImplOk murmur_hash3_x64_64}.

Local Abbreviation init_for_write :=
  (init_for_write dchecks HASH_MURMUR3_X64_64 murmur_hash3_x64_64
     _optimal_bit_num).
Local Abbreviation init_for_read :=
  (init_for_read dchecks HASH_MURMUR3_X64_64 murmur_hash3_x64_64).
Local Abbreviation live :=
  (live dchecks HASH_MURMUR3_X64_64 murmur_hash3_x64_64 _optimal_bit_num).

(** X1. An [init] that returns a status other than [OK] has built no
    filter: the write path leaves the object as it was, the read path
    leaves the buffer pointer, the two sizes and the flag pointer as
    they were (it may have installed the hash function). *)
Theorem init_failure_builds_nothing :
  (∀ n fpp strategy bf0 st bf,
      init_for_write n fpp strategy bf0 = Returned (st, bf) → st ≠ OK →
      bf = bf0)
  ∧ (∀ buf size strategy bf0 st bf,
        init_for_read buf size strategy bf0 = Returned (st, bf) → st ≠ OK →
        _data bf = _data bf0 ∧ _num_bytes bf = _num_bytes bf0
        ∧ _size bf = _size bf0 ∧ _has_null bf = _has_null bf0).
Proof.
  split.
  - intros n fpp strategy bf0 st bf Hret Hst.
    destruct (init_for_write_inv _ _ _ _ _ _ _ _ _ _ Hret)
      as [(_ & -> & _) | (_ & _ & ->)]; [contradiction | reflexivity].
  - intros buf size strategy bf0 st bf Hret Hst.
    destruct (init_for_read_inv _ _ _ _ _ _ _ _ _ Hret)
      as [(_ & _ & _ & -> & _) | [(_ & _ & _ & ->) | (_ & _ & ->)]];
      [contradiction | cbn; auto | auto].
Qed.

(** X3. Flagging a null is read back, and touches no byte of the bit
    array: after [set_has_null(b)] (or [add_bytes(nullptr, _)], which
    is [set_has_null(true)]) on a filter in use, [has_null()] is [b],
    the first [num_bytes()] bytes are the ones before, and the sizes are
    unchanged. *)
Theorem set_has_null_round_trip (bf : BloomFilter) (b : bool) :
  live bf →
  ∃ d bf' d',
    data bf = Some d
    ∧ set_has_null b bf = Returned bf'
    ∧ (b = true → ∀ sz, add_bytes None sz bf = Returned bf')
    ∧ has_null bf' = Returned b
    ∧ data bf' = Some d'
    ∧ take (Z.to_nat (num_bytes bf)) d' = take (Z.to_nat (num_bytes bf)) d
    ∧ num_bytes bf' = num_bytes bf ∧ size bf' = size bf.
Proof.
  intros Hlive. apply (live_layout _ _ _ _ (impl_ok := impl_ok)) in Hlive.
  destruct (set_has_null_returns _ b bf Hlive) as (d & Hd & Hset).
  exists d. eexists. eexists.
  split; [exact Hd |]. split; [exact Hset |].
  split; [intros -> sz; exact Hset |].
  split.
  - rewrite (has_null_after_store murmur_hash3_x64_64) by assumption.
    destruct b; reflexivity.
  - split; [reflexivity |]. split; [| split; reflexivity].
    unfold num_bytes. apply take_insert_ge. lia.
Qed.

(** X4. The read path takes the flag from the wire: after a successful
    [init(buf, size, strategy)], [data()] is the first [size] bytes of
    [buf] and [has_null()] says whether byte [size - 1] of [buf] is
    nonzero. *)
Theorem init_for_read_wire (buf : list Z) (sz : Z) (strategy : HashStrategyPB)
    (bf0 bf : BloomFilter) :
  is_u32 sz →
  init_for_read buf sz strategy bf0 = Returned (OK, bf) →
  data bf = Some (take (Z.to_nat sz) buf)
  ∧ has_null bf = Returned (negb (buf !!! Z.to_nat (sz - 1) =? 0)).
Proof.
  intros Hu Hret. unfold is_u32 in Hu.
  destruct (init_for_read_inv _ _ _ _ _ _ _ _ _ Hret)
    as [(_ & Hnz & Hlen & _ & ->) | [(_ & _ & Hst & _) | (_ & Hst & _)]];
    try discriminate.
  split; [reflexivity |].
  unfold has_null. cbn [_has_null _data deref obind].
  rewrite to_u32_id by (unfold is_u32; lia).
  unfold load. destruct (Z.leb_spec 0 (sz - 1)); [| lia].
  rewrite lookup_take_lt by lia.
  rewrite (list_lookup_lookup_total_lt buf) by lia. reflexivity.
Qed.

(** X5. [reset()] is idempotent, and a filter right after the write-path
    [init] is its own reset: the buffer [init] leaves is the one
    [reset()] leaves. *)
Theorem reset_idempotent :
  (∀ bf bf1, live bf → reset bf = Returned bf1 → reset bf1 = Returned bf1)
  ∧ (∀ n fpp strategy bf0 bf,
        init_for_write n fpp strategy bf0 = Returned (OK, bf) →
        reset bf = Returned bf).
Proof.
  split.
  - intros bf bf1 Hlive Hreset.
    apply (live_layout _ _ _ _ (impl_ok := impl_ok)) in Hlive.
    rewrite (reset_returns murmur_hash3_x64_64) in Hreset by assumption.
    injection Hreset as <-.
    assert (Hl1 : layout_ok murmur_hash3_x64_64
                    (with_data (replicate (Z.to_nat (_size bf)) 0) bf)).
    { apply with_data_layout; [assumption |].
      destruct Hlive as (d & _ & _ & Hsz & Hnb & _).
      rewrite length_replicate. lia. }
    rewrite (reset_returns murmur_hash3_x64_64) by assumption. reflexivity.
  - intros n fpp strategy bf0 bf Hret.
    pose proof (init_for_write_layout _ _ _ _ _ _ _ _ _ Hret) as Hl.
    rewrite (reset_returns murmur_hash3_x64_64) by assumption.
    destruct (init_for_write_inv _ _ _ _ _ _ _ _ _ _ Hret)
      as [(_ & _ & ->) | (_ & Hst & _)]; [| discriminate].
    reflexivity.
Qed.

End Props.

(** X2. Where [DCHECK]s are compiled in, a write-path [init] that
    returns has passed [DCHECK((_num_bytes & (_num_bytes - 1)) == 0)]:
    whatever [_optimal_bit_num] computes, [num_bytes()] is then 0 or a
    power of two below [2 ^ 29]. *)
Theorem checked_init_power_of_two (HASH_MURMUR3_X64_64 : HashStrategyPB)
    (murmur_hash3_x64_64 : hash_func_t) (_optimal_bit_num : Z → float → Z)
    (n : Z) (fpp : float) (strategy : HashStrategyPB) (bf0 bf : BloomFilter) :
  init_for_write true HASH_MURMUR3_X64_64 murmur_hash3_x64_64
    _optimal_bit_num n fpp strategy bf0 = Returned (OK, bf) →
  num_bytes bf = 0 ∨ ∃ k, 0 ≤ k < 29 ∧ num_bytes bf = 2 ^ k.
Proof.
  intros Hret.
  destruct (init_for_write_inv _ _ _ _ _ _ _ _ _ _ Hret)
    as [(Heq & _ & Hbf) | (_ & Hst & _)]; [| discriminate].
  unfold init_for_write in Hret.
  destruct (decide (strategy = HASH_MURMUR3_X64_64)); [| done].
  unfold DCHECK in Hret. cbn [andb] in Hret.
  set (nb := to_u32 (_optimal_bit_num n fpp) / 8) in *.
  destruct (Z.eqb_spec (Z.land nb (to_u32 (nb - 1))) 0) as [Hland | Hland];
    [| discriminate].
  rewrite Hbf. unfold num_bytes. cbn [_num_bytes].
  pose proof (to_u32_range (_optimal_bit_num n fpp)) as Hr. unfold is_u32 in Hr.
  assert (Hnb : 0 ≤ nb < 2 ^ 29)
    by (split; [apply Z.div_pos; lia | apply Z.div_lt_upper_bound; lia]).
  destruct (Z.eq_dec nb 0) as [Hz | Hnz]; [left; exact Hz | right].
  rewrite to_u32_id in Hland by (unfold is_u32; lia).
  exists (Z.log2 nb). split.
  - split; [apply Z.log2_nonneg |].
    apply Z.log2_lt_pow2; lia.
  - apply land_pred_zero; [lia | exact Hland].
Qed.

Import Fixture.

Lemma set_has_null_round_trip_witness :
  ∃ d bf' d',
    data fresh = Some d
    ∧ set_has_null true fresh = Returned bf'
    ∧ (true = true → ∀ sz, add_bytes (impl := impl) None sz fresh = Returned bf')
    ∧ has_null bf' = Returned true
    ∧ data bf' = Some d'
    ∧ take 32 d' = take 32 d
    ∧ num_bytes bf' = 32 ∧ size bf' = 33.
Proof.
  exact (set_has_null_round_trip false 0 sum_hash fixed_bit_num
           (impl_ok := impl_ok) fresh true fresh_live).
Defined.

Lemma init_for_read_wire_witness :
  data readback = Some [1; 0; 128; 0; 1]
  ∧ has_null readback = Returned true.
Proof.
  apply (init_for_read_wire false 0 sum_hash [1; 0; 128; 0; 1] 5 0
           BloomFilter_ctor readback).
  - unfold is_u32. lia.
  - exact readback_init.
Defined.

Lemma reset_idempotent_witness :
  reset (with_data (replicate 33 0) flagged)
  = Returned (with_data (replicate 33 0) flagged).
Proof.
  apply (proj1 (reset_idempotent false 0 sum_hash fixed_bit_num
                  (impl_ok := impl_ok)) flagged).
  - exact flagged_live.
  - reflexivity.
Defined.

Lemma checked_init_power_of_two_witness :
  num_bytes fresh = 0 ∨ ∃ k, 0 ≤ k < 29 ∧ num_bytes fresh = 2 ^ k.
Proof.
  apply (checked_init_power_of_two 0 sum_hash fixed_bit_num 1000
           0.0625%float 0 BloomFilter_ctor fresh).
  reflexivity.
Defined.

End BloomProps.

(** ** More on StringDictionary (Vector.hh) *)

Module DictionaryProps.

Import Dictionary.

(** The bytes of entry [code], empty where the lookup throws. *)
Definition entry (d : StringDictionary) (code : Z) : list Z :=
  match getValueByIndex d code with
  | Returned v => view d v
  | Crash _ => []
  end.

(** The offsets do not decrease, start at or after 0 and fit [int64_t],
    as does their number. *)
Definition offsets_sorted (d : StringDictionary) : Prop :=
  0 ≤ dictionaryOffset d !!! 0%nat
  ∧ (∀ i, (S i < length (dictionaryOffset d))%nat →
          dictionaryOffset d !!! i ≤ dictionaryOffset d !!! S i)
  ∧ (∀ i, (i < length (dictionaryOffset d))%nat →
          dictionaryOffset d !!! i < 2 ^ 63)
  ∧ offsetCount d < 2 ^ 63.

Lemma take_add_drop {A} (l : list A) (a b : nat) :
  take (a + b) l = take a l ++ take b (drop a l).
Proof.
  revert l. induction a as [| a IH]; intros l; [reflexivity |].
  destruct l as [| x l]; [rewrite !take_nil, drop_nil, take_nil; reflexivity |].
  cbn [Nat.add take drop app]. f_equal. apply IH.
Qed.

Lemma offsets_sorted_mono (d : StringDictionary) (a b : nat) :
  offsets_sorted d → (a ≤ b < length (dictionaryOffset d))%nat →
  0 ≤ dictionaryOffset d !!! a ≤ dictionaryOffset d !!! b.
Proof.
  intros (H0 & Hstep & _) Hab.
  assert (Hmono : ∀ i j, (i ≤ j ≤ pred (length (dictionaryOffset d)))%nat →
            dictionaryOffset d !!! i ≤ dictionaryOffset d !!! j).
  { apply Vector.offsets_mono. intros i Hi. apply Hstep. lia. }
  pose proof (Hmono 0%nat a ltac:(lia)). pose proof (Hmono a b ltac:(lia)).
  lia.
Qed.

Lemma getValueByIndex_in_range (d : StringDictionary) (n : nat) :
  offsets_sorted d → (S n < length (dictionaryOffset d))%nat →
  getValueByIndex d (Z.of_nat n)
  = Returned (dictionaryOffset d !!! n,
              dictionaryOffset d !!! S n - dictionaryOffset d !!! n).
Proof.
  intros Hs Hn. pose proof Hs as (_ & _ & Hfit & Hcount).
  unfold offsetCount in Hcount.
  assert (Hi : is_i64 (Z.of_nat n)) by (unfold is_i64; lia).
  assert (Hg : (Z.of_nat n <? 0)
               || (offsetCount d <=? to_u64 (to_u64 (Z.of_nat n) + 1)) = false).
  { apply not_true_iff_false. intros Hg.
    apply (getValueByIndex_guard d _ Hi) in Hg. unfold offsetCount in Hg. lia. }
  unfold getValueByIndex. rewrite Hg.
  replace (Z.to_nat (Z.of_nat n + 1)) with (S n) by lia.
  rewrite Nat2Z.id.
  pose proof (offsets_sorted_mono d n (S n) Hs ltac:(lia)).
  pose proof (Hfit (S n) ltac:(lia)).
  rewrite to_i64_id by (unfold is_i64; lia). reflexivity.
Qed.

(** X6. The entries of a dictionary tile its blob: where the offsets do
    not decrease, the bytes [getValueByIndex] hands out for the codes
    [0, 1, ..., n - 1], one after the other, are the blob from
    [offsets[0]] to [offsets[n]], with no gap and no overlap. *)
Theorem entries_tile_blob (d : StringDictionary) (n : nat) :
  offsets_sorted d → Z.of_nat n ≤ keyCount d →
  concat (entry d <$> seqZ 0 (Z.of_nat n))
  = take (Z.to_nat (dictionaryOffset d !!! n - dictionaryOffset d !!! 0%nat))
      (drop (Z.to_nat (dictionaryOffset d !!! 0%nat)) (dictionaryBlob d)).
Proof.
  intros Hs. unfold keyCount, offsetCount.
  induction n as [| n IH]; intros Hn.
  - rewrite Z.sub_diag. reflexivity.
  - rewrite Nat2Z.inj_succ, <- Z.add_1_r.
    rewrite seqZ_app by lia. rewrite fmap_app, concat_app, IH by lia.
    rewrite seqZ_cons, seqZ_nil by lia.
    cbn [fmap list_fmap concat]. rewrite app_nil_r, Z.add_0_l.
    unfold entry. rewrite getValueByIndex_in_range by (assumption || lia).
    unfold view. cbn [fst snd].
    pose proof (offsets_sorted_mono d 0 n Hs ltac:(lia)).
    pose proof (offsets_sorted_mono d n (S n) Hs ltac:(lia)).
    replace (Z.to_nat (dictionaryOffset d !!! S n - dictionaryOffset d !!! 0%nat))
      with (Z.to_nat (dictionaryOffset d !!! n - dictionaryOffset d !!! 0%nat)
            + Z.to_nat (dictionaryOffset d !!! S n - dictionaryOffset d !!! n))%nat
      by lia.
    rewrite take_add_drop, drop_drop. do 3 f_equal. lia.
Qed.

Lemma entries_tile_blob_witness :
  concat (entry dict_abc <$> seqZ 0 3) = [97; 98; 98; 99; 99; 99].
Proof.
  apply (entries_tile_blob dict_abc 3).
  - repeat split.
    + vm_compute. discriminate.
    + intros i Hi. cbn in Hi.
      destruct i as [| [| [| i]]]; [vm_compute; discriminate .. | lia].
    + intros i Hi. cbn in Hi.
      destruct i as [| [| [| [| i]]]]; [reflexivity .. | lia].
  - vm_compute. discriminate.
Defined.

End DictionaryProps.

(** ** Loops over an index *)

Module Loops.

(** [for (i = first; ...; ++i) body], over the indices in [idxs]. *)
Fixpoint for_each {S} (idxs : list Z) (body : Z → S → outcome S) (s : S)
  : outcome S :=
  match idxs with
  | [] => Returned s
  | i :: idxs => let* s := body i s in for_each idxs body s
  end.

(** [for (i = lo; i < hi; ++i) body] *)
Definition for_range {S} (lo hi : Z) (body : Z → S → outcome S) (s : S)
  : outcome S :=
  for_each (seqZ lo (hi - lo)) body s.

Lemma for_each_app {S} (idxs js : list Z) (body : Z → S → outcome S) (s : S) :
  for_each (idxs ++ js) body s
  = let* s := for_each idxs body s in for_each js body s.
Proof.
  revert s. induction idxs as [| i idxs IH]; intros s; cbn [for_each app obind].
  - reflexivity.
  - destruct (body i s) as [s' | c]; cbn [obind]; [apply IH | reflexivity].
Qed.

Lemma for_range_empty {S} (lo hi : Z) (body : Z → S → outcome S) (s : S) :
  hi ≤ lo → for_range lo hi body s = Returned s.
Proof. intros Hle. unfold for_range. rewrite seqZ_nil by lia. reflexivity. Qed.

Lemma for_range_snoc {S} (lo hi : Z) (body : Z → S → outcome S) (s : S) :
  lo ≤ hi →
  for_range lo (hi + 1) body s
  = let* s := for_range lo hi body s in body hi s.
Proof.
  intros Hle. unfold for_range.
  replace (hi + 1 - lo) with ((hi - lo) + 1) by lia.
  rewrite seqZ_app by lia. rewrite for_each_app.
  replace (lo + (hi - lo)) with hi by lia.
  rewrite (seqZ_cons hi 1) by lia.
  rewrite (seqZ_nil (Z.succ hi)) by lia.
  destruct (for_each (seqZ lo (hi - lo)) body s) as [s' | c];
    cbn [obind for_each]; [| reflexivity].
  destruct (body hi s'); reflexivity.
Qed.

(** Induction over the iterations of a loop: a loop over [[lo, hi)] is
    taken from [hi = lo] upwards. *)
Lemma for_range_ind {S} (lo : Z) (body : Z → S → outcome S) (s : S)
    (P : Z → outcome S → Prop) :
  P lo (Returned s) →
  (∀ hi r, lo ≤ hi → P hi r → P (hi + 1) (let* s := r in body hi s)) →
  ∀ hi, lo ≤ hi → P hi (for_range lo hi body s).
Proof.
  intros Hbase Hstep hi Hle.
  replace hi with (lo + Z.of_nat (Z.to_nat (hi - lo))) by lia.
  induction (Z.to_nat (hi - lo)) as [| k IH].
  - rewrite Z.add_0_r, for_range_empty by lia. exact Hbase.
  - rewrite Nat2Z.inj_succ.
    replace (lo + Z.succ (Z.of_nat k)) with (lo + Z.of_nat k + 1) by lia.
    rewrite for_range_snoc by lia. apply Hstep; [lia | exact IH].
Qed.

End Loops.

(** ** count and count_nullable (exprs/agg/count.h) *)

Module Count.

Import Loops.

(** [struct AggregateFunctionCountData { int64_t count = 0; }] *)
Record AggregateFunctionCountData : Type := { count : Z }.

(** [count += x] on the [int64_t] member: the sum is taken on 64 bits
    and wraps around. *)
Definition add (x : Z) (state : AggregateFunctionCountData)
  : AggregateFunctionCountData :=
  {| count := to_i64 (count state + x) |}.

(** The [Int64Column] behind a [Column*] after [down_cast]:
    [is_numeric()] and the [Buffer<int64_t>] of [get_data()]. *)
Record Int64Column : Type := {
  is_numeric : bool;
  get_data : list Z;
}.

Definition with_get_data (d : list Z) (c : Int64Column) : Int64Column :=
  {| is_numeric := is_numeric c; get_data := d |}.

(** [column->append(v)] *)
Definition append (v : Z) (c : Int64Column) : Int64Column :=
  with_get_data (get_data c ++ [v]) c.

(** The [NullableColumn] members the functions read: [has_null()], the
    bytes of [immutable_null_column_data()] and [size()]. *)
Record NullableColumn : Type := {
  has_null : bool;
  immutable_null_column_data : list Z;
  size : Z;
}.

(** A [const Column*]: its virtual [is_null(row)], and for a column
    whose [is_nullable()] is true the [NullableColumn] it is cast to. *)
Inductive Column : Type :=
  | NotNullable (is_null : Z → bool)
  | Nullable (is_null : Z → bool) (nullable_column : NullableColumn).

Definition is_nullable (c : Column) : bool :=
  match c with NotNullable _ => false | Nullable _ _ => true end.

Definition is_null (c : Column) : Z → bool :=
  match c with NotNullable f => f | Nullable f _ => f end.

(** An [AggDataPtr] is a byte pointer; what the functions use of it is
    the state found at an offset from it. *)
Definition AggDataPtr : Type := Z → AggregateFunctionCountData.

(** [v[i]] on an array or a vector. *)
Definition at_index {A} (v : list A) (i : Z) : outcome A :=
  if 0 <=? i then
    match v !! Z.to_nat i with
    | Some a => Returned a
    | None => Crash OutOfBounds
    end
  else Crash OutOfBounds.

(** [!x] as an integer. *)
Definition lnot (x : Z) : Z := if x =? 0 then 1 else 0.

(** [v.resize(n)] and [v.assign(n, x)] of [std::vector]. *)
Definition resize (n : Z) (v : list Z) : list Z :=
  take (Z.to_nat n) v ++ replicate (Z.to_nat n - length v) 0.

Definition assign (n x : Z) : list Z := replicate (Z.to_nat n) x.

(** *** [class CountAggregateFunction]: count of rows *)

Module CountAggregateFunction.

Section Build.

Variable dchecks : bool.

Local Abbreviation DCHECK := (Bloom.DCHECK dchecks).

(** [reset]: [this->data(state).count = 0] *)
Definition reset (state : AggregateFunctionCountData)
  : AggregateFunctionCountData :=
  {| count := 0 |}.

(** [update]: [++this->data(state).count] *)
Definition update (columns : list Column) (state : AggregateFunctionCountData)
    (row_num : Z) : AggregateFunctionCountData :=
  add 1 state.

(** [update_batch_single_state(ctx, batch_size, columns, state)] *)
Definition update_batch_single_state (batch_size : Z) (columns : list Column)
    (state : AggregateFunctionCountData) : AggregateFunctionCountData :=
  add batch_size state.

(** [update_batch_single_state(ctx, state, columns, peer_group_start,
    peer_group_end, frame_start, frame_end)], the overload for window
    frames. *)
Definition update_batch_single_state_frame
    (state : AggregateFunctionCountData) (columns : list Column)
    (peer_group_start peer_group_end frame_start frame_end : Z)
  : AggregateFunctionCountData :=
  add (to_i64 (frame_end - frame_start)) state.

(** [merge] *)
Definition merge (column : Int64Column) (state : AggregateFunctionCountData)
    (row_num : Z) : outcome AggregateFunctionCountData :=
  DCHECK (is_numeric column)
    (let* v := at_index (get_data column) row_num in
     Returned (add v state)).

(** [get_values]: the column after the call. *)
Definition get_values (state : AggregateFunctionCountData) (dst : Int64Column)
    (start end_ : Z) : outcome Int64Column :=
  DCHECK (start <? end_)
    (let* d := for_range start end_
                 (λ i d, Bloom.store d i (count state)) (get_data dst) in
     Returned (with_get_data d dst)).

(** [serialize_to_column]: the column after the call. *)
Definition serialize_to_column (state : AggregateFunctionCountData)
    (to : Int64Column) : outcome Int64Column :=
  DCHECK (is_numeric to) (Returned (append (count state) to)).

(** [batch_serialize]: the column after the call. *)
Definition batch_serialize (batch_size : Z) (agg_states : list AggDataPtr)
    (state_offset : Z) (to : Int64Column) : outcome Int64Column :=
  let* result_data :=
    for_range 0 batch_size
      (λ i result_data,
         let* p := at_index agg_states i in
         Returned (result_data ++ [count (p state_offset)]))
      (get_data to) in
  Returned (with_get_data result_data to).

(** [finalize_to_column] *)
Definition finalize_to_column (state : AggregateFunctionCountData)
    (to : Int64Column) : outcome Int64Column :=
  DCHECK (is_numeric to) (Returned (append (count state) to)).

(** [batch_finalize] *)
Definition batch_finalize (batch_size : Z) (agg_states : list AggDataPtr)
    (state_offsets : Z) (to : Int64Column) : outcome Int64Column :=
  batch_serialize batch_size agg_states state_offsets to.

(** [convert_to_serialize_format]: the column [*dst] after the call. *)
Definition convert_to_serialize_format (src : list Column) (chunk_size : Z)
    (dst : Int64Column) : outcome Int64Column :=
  Returned (with_get_data (assign chunk_size 1) dst).

Definition get_name : string := "count".

End Build.

End CountAggregateFunction.

(** *** [class CountNullableAggregateFunction]: count of rows that are
    not null *)

Module CountNullableAggregateFunction.

Section Build.

Variable dchecks : bool.

Local Abbreviation DCHECK := (Bloom.DCHECK dchecks).

(** [reset] *)
Definition reset (state : AggregateFunctionCountData)
  : AggregateFunctionCountData :=
  {| count := 0 |}.

(** [update]: [count += !columns[0]->is_null(row_num)] *)
Definition update (columns : list Column) (state : AggregateFunctionCountData)
    (row_num : Z) : outcome AggregateFunctionCountData :=
  let* column := at_index columns 0 in
  Returned (add (Z.b2z (negb (is_null column row_num))) state).

(** The loop the two batch updates share:
    [for (size_t i = lo; i < hi; ++i) count += !null_data[i]]. *)
Definition count_not_null (null_data : list Z) (lo hi : Z)
    (state : AggregateFunctionCountData) : outcome AggregateFunctionCountData :=
  for_range lo hi
    (λ i state,
       let* b := at_index null_data i in Returned (add (lnot b) state))
    state.

(** [update_batch_single_state(ctx, batch_size, columns, state)] *)
Definition update_batch_single_state (batch_size : Z) (columns : list Column)
    (state : AggregateFunctionCountData) : outcome AggregateFunctionCountData :=
  let* column := at_index columns 0 in
  match column with
  | Nullable _ nullable_column =>
      if has_null nullable_column then
        count_not_null (immutable_null_column_data nullable_column)
          0 batch_size state
      else Returned (add (size nullable_column) state)
  | NotNullable _ => Returned (add batch_size state)
  end.

(** The overload for window frames.  The loop index is a [size_t]
    compared with the [int64_t] bound, so both ends are taken as
    unsigned. *)
Definition update_batch_single_state_frame
    (state : AggregateFunctionCountData) (columns : list Column)
    (peer_group_start peer_group_end frame_start frame_end : Z)
  : outcome AggregateFunctionCountData :=
  let* column := at_index columns 0 in
  match column with
  | Nullable _ nullable_column =>
      if has_null nullable_column then
        count_not_null (immutable_null_column_data nullable_column)
          (to_u64 frame_start) (to_u64 frame_end) state
      else Returned (add (to_i64 (frame_end - frame_start)) state)
  | NotNullable _ => Returned (add (to_i64 (frame_end - frame_start)) state)
  end.

(** [merge] *)
Definition merge (column : Int64Column) (state : AggregateFunctionCountData)
    (row_num : Z) : outcome AggregateFunctionCountData :=
  DCHECK (is_numeric column)
    (let* v := at_index (get_data column) row_num in
     Returned (add v state)).

(** [convert_to_serialize_format]: the column [*dst] after the call. *)
Definition convert_to_serialize_format (src : list Column) (chunk_size : Z)
    (dst : Int64Column) : outcome Int64Column :=
  let* column := at_index src 0 in
  match column with
  | Nullable _ nullable_column =>
      if has_null nullable_column then
        let null_data := immutable_null_column_data nullable_column in
        let* dst_data :=
          for_range 0 chunk_size
            (λ i dst_data,
               let* b := at_index null_data i in
               Bloom.store dst_data i (lnot b))
            (resize chunk_size (get_data dst)) in
        Returned (with_get_data dst_data dst)
      else Returned (with_get_data (assign chunk_size 1) dst)
  | NotNullable _ => Returned (with_get_data (assign chunk_size 1) dst)
  end.

Definition get_name : string := "count_nullable".

End Build.

End CountNullableAggregateFunction.

(** *** Properties *)

Lemma to_i64_add_l (a b : Z) : to_i64 (to_i64 a + b) = to_i64 (a + b).
Proof.
  unfold to_i64, wrap_signed. f_equal.
  replace ((a + 2 ^ (64 - 1)) mod 2 ^ 64 - 2 ^ (64 - 1) + b + 2 ^ (64 - 1))
    with ((a + 2 ^ (64 - 1)) mod 2 ^ 64 + b) by lia.
  rewrite Zplus_mod_idemp_l. f_equal. lia.
Qed.

Lemma to_i64_add_r (a b : Z) : to_i64 (a + to_i64 b) = to_i64 (a + b).
Proof. rewrite Z.add_comm, to_i64_add_l. f_equal. lia. Qed.

Lemma add_add (x y : Z) (state : AggregateFunctionCountData) :
  add x (add y state) = add (y + x) state.
Proof.
  unfold add. cbn [count]. f_equal. rewrite to_i64_add_l. f_equal. lia.
Qed.

Lemma add_to_i64 (x : Z) (state : AggregateFunctionCountData) :
  add (to_i64 x) state = add x state.
Proof. unfold add. f_equal. apply to_i64_add_r. Qed.

Lemma at_index_in_range {A} `{Inhabited A} (v : list A) (i : Z) :
  0 ≤ i < Z.of_nat (length v) →
  at_index v i = Returned (v !!! Z.to_nat i).
Proof.
  intros Hi. unfold at_index.
  destruct (Z.leb_spec 0 i); [| lia].
  rewrite (list_lookup_lookup_total_lt v) by lia. reflexivity.
Qed.

Lemma at_index_beyond {A} (v : list A) (i : Z) :
  Z.of_nat (length v) ≤ i → at_index v i = Crash OutOfBounds.
Proof.
  intros Hi. unfold at_index.
  destruct (Z.leb_spec 0 i); [| reflexivity].
  rewrite lookup_ge_None_2 by lia. reflexivity.
Qed.

(** Two loops whose bodies agree on the indices they visit agree. *)
Lemma for_range_ext {S} (lo hi : Z) (f g : Z → S → outcome S) (s : S) :
  (∀ i s, lo ≤ i < hi → f i s = g i s) →
  for_range lo hi f s = for_range lo hi g s.
Proof.
  intros Hfg. destruct (Z.le_gt_cases lo hi) as [Hle | Hgt].
  - revert Hfg.
    apply (for_range_ind lo f s
             (λ hi r, (∀ i s, lo ≤ i < hi → f i s = g i s) →
                      r = for_range lo hi g s)); [| | exact Hle].
    + intros _. rewrite for_range_empty by lia. reflexivity.
    + intros h r Hh IH Hfg. rewrite for_range_snoc by lia.
      rewrite IH by (intros; apply Hfg; lia).
      destruct (for_range lo h g s) as [s' | c]; cbn [obind];
        [apply Hfg; lia | reflexivity].
  - rewrite !for_range_empty by lia. reflexivity.
Qed.

(** The states the functions work on hold an [int64_t]. *)
Definition is_state (state : AggregateFunctionCountData) : Prop :=
  is_i64 (count state).

Lemma add_0 (state : AggregateFunctionCountData) :
  is_state state → add 0 state = state.
Proof.
  destruct state as [c]. unfold is_state, add. cbn [count]. intros Hc.
  rewrite Z.add_0_r, to_i64_id by exact Hc. reflexivity.
Qed.

(** A loop that adds [x] at every index adds [x] times the number of
    indices. *)
Lemma for_range_add (lo hi x : Z) (state : AggregateFunctionCountData) :
  is_state state → lo ≤ hi →
  for_range lo hi (λ _ s, Returned (add x s)) state
  = Returned (add (x * (hi - lo)) state).
Proof.
  intros Hstate.
  apply (for_range_ind lo (λ _ s, Returned (add x s)) state
           (λ hi r, r = Returned (add (x * (hi - lo)) state))).
  - rewrite Z.sub_diag, Z.mul_0_r, add_0 by exact Hstate. reflexivity.
  - intros h r Hh ->. cbn [obind]. rewrite add_add. do 2 f_equal. lia.
Qed.

(** The number of rows of [[lo, hi)] that a null mask does not mark. *)
Definition not_null_rows (null_data : list Z) (lo hi : Z) : Z :=
  Z.of_nat (length (filter (λ b, b = 0)
                      (take (Z.to_nat (hi - lo))
                         (drop (Z.to_nat lo) null_data)))).

Lemma not_null_rows_empty (null_data : list Z) (lo : Z) :
  not_null_rows null_data lo lo = 0.
Proof. unfold not_null_rows. rewrite Z.sub_diag. reflexivity. Qed.

Lemma not_null_rows_snoc (null_data : list Z) (lo hi : Z) :
  0 ≤ lo ≤ hi → hi < Z.of_nat (length null_data) →
  not_null_rows null_data lo (hi + 1)
  = not_null_rows null_data lo hi + lnot (null_data !!! Z.to_nat hi).
Proof.
  intros Hlo Hhi. unfold not_null_rows.
  replace (Z.to_nat (hi + 1 - lo)) with (S (Z.to_nat (hi - lo))) by lia.
  assert (Hat : drop (Z.to_nat lo) null_data !! Z.to_nat (hi - lo)
                = Some (null_data !!! Z.to_nat hi)).
  { rewrite lookup_drop.
    replace (Z.to_nat lo + Z.to_nat (hi - lo))%nat with (Z.to_nat hi) by lia.
    apply list_lookup_lookup_total_lt. lia. }
  rewrite (take_S_r _ _ _ Hat), filter_app, length_app, Nat2Z.inj_add.
  f_equal. unfold lnot. rewrite filter_cons, filter_nil.
  destruct (decide (null_data !!! Z.to_nat hi = 0)) as [-> | Hnz].
  - reflexivity.
  - destruct (Z.eqb_spec (null_data !!! Z.to_nat hi) 0); [contradiction |].
    reflexivity.
Qed.

Lemma not_null_rows_bounds (null_data : list Z) (lo hi : Z) :
  lo ≤ hi → 0 ≤ not_null_rows null_data lo hi ≤ hi - lo.
Proof.
  intros Hle. unfold not_null_rows. split; [lia |].
  pose proof (length_filter (λ b, b = 0)
                (take (Z.to_nat (hi - lo)) (drop (Z.to_nat lo) null_data))).
  rewrite length_take in *. lia.
Qed.

Lemma at_index_lookup {A} (v : list A) (i : Z) (a : A) :
  0 ≤ i → v !! Z.to_nat i = Some a → at_index v i = Returned a.
Proof.
  intros Hi Hat. unfold at_index.
  destruct (Z.leb_spec 0 i); [| lia]. rewrite Hat. reflexivity.
Qed.

Lemma at_index_0 {A} (a : A) (v : list A) : at_index (a :: v) 0 = Returned a.
Proof. reflexivity. Qed.

Lemma for_range_split {S} (lo m hi : Z) (f : Z → S → outcome S) (s : S) :
  lo ≤ m ≤ hi →
  for_range lo hi f s = let* s := for_range lo m f s in for_range m hi f s.
Proof.
  intros Hm. unfold for_range.
  replace (hi - lo) with ((m - lo) + (hi - m)) by lia.
  rewrite seqZ_app, for_each_app by lia.
  replace (lo + (m - lo)) with m by lia. reflexivity.
Qed.

(** A loop stops at the first index whose body crashes. *)
Lemma for_range_crash {S} (lo m hi : Z) (f : Z → S → outcome S) (s s' : S)
    (c : crash) :
  lo ≤ m < hi → for_range lo m f s = Returned s' → f m s' = Crash c →
  for_range lo hi f s = Crash c.
Proof.
  intros Hm Hpre Hat. rewrite (for_range_split lo m hi) by lia.
  rewrite Hpre. cbn [obind]. unfold for_range.
  rewrite seqZ_cons by lia. cbn [for_each]. rewrite Hat. reflexivity.
Qed.

Section Props.

Variable dchecks : bool.

(** The loop over a null mask adds the number of unmarked rows. *)
Lemma count_not_null_spec (null_data : list Z) (lo hi : Z)
    (state : AggregateFunctionCountData) :
  is_state state → 0 ≤ lo ≤ hi → hi ≤ Z.of_nat (length null_data) →
  CountNullableAggregateFunction.count_not_null null_data lo hi state
  = Returned (add (not_null_rows null_data lo hi) state).
Proof.
  intros Hstate [Hlo Hle]. unfold CountNullableAggregateFunction.count_not_null.
  apply (for_range_ind lo _ state
           (λ hi r, hi ≤ Z.of_nat (length null_data) →
                    r = Returned (add (not_null_rows null_data lo hi) state)));
    [| | exact Hle].
  - intros _. rewrite not_null_rows_empty, add_0 by exact Hstate. reflexivity.
  - intros h r Hh IH Hlen. rewrite IH by lia. cbn [obind].
    rewrite at_index_in_range by lia. cbn [obind].
    rewrite add_add, not_null_rows_snoc by lia. reflexivity.
Qed.


(** What [is_null] of [columns[0]] answers on the rows [[lo, hi)]: for
    a nullable column with nulls, what its null mask holds; for any
    other column, that no row is null. *)
Definition is_null_agrees (column : Column) (lo hi : Z) : Prop :=
  match column with
  | NotNullable f => ∀ i, lo ≤ i < hi → f i = false
  | Nullable f nc =>
      if has_null nc then
        hi ≤ Z.of_nat (length (immutable_null_column_data nc))
        ∧ ∀ i, lo ≤ i < hi →
            f i = negb (immutable_null_column_data nc !!! Z.to_nat i =? 0)
      else ∀ i, lo ≤ i < hi → f i = false
  end.

(** The batch is the whole column: a nullable column without nulls has
    [n] rows. *)
Definition is_whole (column : Column) (n : Z) : Prop :=
  match column with
  | NotNullable _ => True
  | Nullable _ nc => has_null nc = false → size nc = n
  end.

(** The null mask of a nullable column with nulls has a byte for each
    of the first [n] rows. *)
Definition mask_covers (column : Column) (n : Z) : Prop :=
  match column with
  | NotNullable _ => True
  | Nullable _ nc =>
      has_null nc = true →
      n ≤ Z.of_nat (length (immutable_null_column_data nc))
  end.

Lemma update_rows_not_null (column : Column) (rest : list Column) (lo hi : Z)
    (state : AggregateFunctionCountData) :
  is_state state → lo ≤ hi →
  (∀ i, lo ≤ i < hi → is_null column i = false) →
  for_range lo hi
    (λ i s, CountNullableAggregateFunction.update (column :: rest) s i) state
  = Returned (add (hi - lo) state).
Proof.
  intros Hstate Hle Hnull.
  rewrite (for_range_ext lo hi _ (λ _ s, Returned (add 1 s))).
  - rewrite for_range_add by assumption. do 2 f_equal. lia.
  - intros i s Hi. unfold CountNullableAggregateFunction.update.
    rewrite at_index_0. cbn [obind].
    rewrite Hnull by exact Hi. reflexivity.
Qed.

Lemma update_rows_mask (f : Z → bool) (nc : NullableColumn)
    (rest : list Column) (lo hi : Z) (state : AggregateFunctionCountData) :
  0 ≤ lo → hi ≤ Z.of_nat (length (immutable_null_column_data nc)) →
  (∀ i, lo ≤ i < hi →
     f i = negb (immutable_null_column_data nc !!! Z.to_nat i =? 0)) →
  for_range lo hi
    (λ i s, CountNullableAggregateFunction.update (Nullable f nc :: rest) s i)
    state
  = CountNullableAggregateFunction.count_not_null
      (immutable_null_column_data nc) lo hi state.
Proof.
  intros Hlo Hlen Hnull. unfold CountNullableAggregateFunction.count_not_null.
  apply for_range_ext. intros i s Hi.
  unfold CountNullableAggregateFunction.update.
  rewrite at_index_0. cbn [obind is_null].
  rewrite at_index_in_range by lia. cbn [obind].
  rewrite Hnull by exact Hi. unfold lnot.
  destruct (_ =? 0); reflexivity.
Qed.

(** X7. For [count], the batch update is the row update repeated: over
    [batch_size] rows, and over the rows of a frame. *)
Theorem count_batch_is_repeated_update (columns : list Column)
    (state : AggregateFunctionCountData) :
  is_state state →
  (∀ batch_size, 0 ≤ batch_size →
     for_range 0 batch_size
       (λ i s, Returned (CountAggregateFunction.update columns s i)) state
     = Returned (CountAggregateFunction.update_batch_single_state
                   batch_size columns state))
  ∧ (∀ peer_group_start peer_group_end frame_start frame_end,
       frame_start ≤ frame_end →
       for_range frame_start frame_end
         (λ i s, Returned (CountAggregateFunction.update columns s i)) state
       = Returned (CountAggregateFunction.update_batch_single_state_frame
                     state columns peer_group_start peer_group_end
                     frame_start frame_end)).
Proof.
  intros Hstate. split.
  - intros n Hn. unfold CountAggregateFunction.update.
    rewrite for_range_add by assumption.
    unfold CountAggregateFunction.update_batch_single_state.
    do 2 f_equal. lia.
  - intros pgs pge fs fe Hle. unfold CountAggregateFunction.update.
    rewrite for_range_add by assumption.
    unfold CountAggregateFunction.update_batch_single_state_frame.
    rewrite add_to_i64. do 2 f_equal. lia.
Qed.

(** X8. For [count_nullable], the batch update of a whole column is the
    row update repeated over its rows. *)
Theorem nullable_batch_is_repeated_update (column : Column)
    (rest : list Column) (batch_size : Z) (state : AggregateFunctionCountData) :
  is_state state → 0 ≤ batch_size →
  is_null_agrees column 0 batch_size → is_whole column batch_size →
  CountNullableAggregateFunction.update_batch_single_state
    batch_size (column :: rest) state
  = for_range 0 batch_size
      (λ i s, CountNullableAggregateFunction.update (column :: rest) s i)
      state.
Proof.
  intros Hstate Hn Hnull Hwhole.
  unfold CountNullableAggregateFunction.update_batch_single_state.
  rewrite at_index_0. cbn [obind].
  destruct column as [f | f nc]; cbn [is_null_agrees is_whole] in *.
  - rewrite update_rows_not_null by assumption. do 2 f_equal. lia.
  - destruct (has_null nc).
    + destruct Hnull as [Hlen Hnull].
      rewrite update_rows_mask by (assumption || lia). reflexivity.
    + rewrite update_rows_not_null by assumption.
      rewrite Hwhole by reflexivity. do 2 f_equal. lia.
Qed.

(** X9. For [count_nullable], the frame update is the row update
    repeated over the rows of the frame. *)
Theorem nullable_frame_is_repeated_update (column : Column)
    (rest : list Column)
    (peer_group_start peer_group_end frame_start frame_end : Z)
    (state : AggregateFunctionCountData) :
  is_state state → 0 ≤ frame_start → frame_start ≤ frame_end →
  frame_end < 2 ^ 63 →
  is_null_agrees column frame_start frame_end →
  CountNullableAggregateFunction.update_batch_single_state_frame
    state (column :: rest) peer_group_start peer_group_end
    frame_start frame_end
  = for_range frame_start frame_end
      (λ i s, CountNullableAggregateFunction.update (column :: rest) s i)
      state.
Proof.
  intros Hstate Hlo Hle Hhi Hnull.
  unfold CountNullableAggregateFunction.update_batch_single_state_frame.
  rewrite at_index_0. cbn [obind].
  rewrite !to_u64_id by (unfold is_u64; lia).
  destruct column as [f | f nc]; cbn [is_null_agrees] in *.
  - rewrite update_rows_not_null by assumption. apply f_equal, add_to_i64.
  - destruct (has_null nc).
    + destruct Hnull as [Hlen Hnull].
      rewrite update_rows_mask by (assumption || lia). reflexivity.
    + rewrite update_rows_not_null by assumption. apply f_equal, add_to_i64.
Qed.

(** X10. On a nullable column with nulls, the batch update of
    [count_nullable] adds the number of rows the mask leaves unmarked,
    which is at most [batch_size]; where the mask is shorter than
    [batch_size], it reads past the mask. *)
Theorem nullable_batch_counts_not_null (f : Z → bool) (nc : NullableColumn)
    (rest : list Column) (batch_size : Z) (state : AggregateFunctionCountData) :
  is_state state → has_null nc = true → 0 ≤ batch_size →
  0 ≤ not_null_rows (immutable_null_column_data nc) 0 batch_size ≤ batch_size
  ∧ CountNullableAggregateFunction.update_batch_single_state
      batch_size (Nullable f nc :: rest) state
    = if batch_size <=? Z.of_nat (length (immutable_null_column_data nc))
      then Returned (add (not_null_rows (immutable_null_column_data nc)
                            0 batch_size) state)
      else Crash OutOfBounds.
Proof.
  intros Hstate Hhas Hn. split.
  { pose proof (not_null_rows_bounds (immutable_null_column_data nc)
                  0 batch_size Hn). lia. }
  unfold CountNullableAggregateFunction.update_batch_single_state.
  rewrite at_index_0. cbn [obind].
  rewrite Hhas.
  destruct (Z.leb_spec batch_size
              (Z.of_nat (length (immutable_null_column_data nc))))
    as [Hle | Hgt].
  - apply count_not_null_spec; [assumption | lia | lia].
  - unfold CountNullableAggregateFunction.count_not_null.
    eapply (for_range_crash 0
              (Z.of_nat (length (immutable_null_column_data nc))));
      [lia | apply count_not_null_spec; [assumption | lia | lia] |].
    rewrite at_index_beyond by lia. reflexivity.
Qed.

Lemma length_resize (n : Z) (v : list Z) :
  length (resize n v) = Z.to_nat n.
Proof. unfold resize. rewrite length_app, length_take, length_replicate. lia. Qed.

(** The loop of [convert_to_serialize_format] writes [!null_data[i]] at
    every index. *)
Lemma convert_loop_spec (null_data d : list Z) (n : Z) :
  0 ≤ n → n ≤ Z.of_nat (length null_data) → length d = Z.to_nat n →
  for_range 0 n
    (λ i dst_data, let* b := at_index null_data i in
                   Bloom.store dst_data i (lnot b)) d
  = Returned (lnot <$> take (Z.to_nat n) null_data).
Proof.
  intros Hn Hlen Hd.
  assert (Hinv : ∀ hi, 0 ≤ hi → hi ≤ n →
            for_range 0 hi
              (λ i dst_data, let* b := at_index null_data i in
                             Bloom.store dst_data i (lnot b)) d
            = Returned ((lnot <$> take (Z.to_nat hi) null_data)
                          ++ drop (Z.to_nat hi) d)).
  { intros hi Hhi.
    apply (for_range_ind 0 _ d
             (λ hi r, hi ≤ n →
                r = Returned ((lnot <$> take (Z.to_nat hi) null_data)
                                ++ drop (Z.to_nat hi) d))); [| | exact Hhi].
    - intros _. reflexivity.
    - intros h r Hh IH Hhn. rewrite IH by lia. cbn [obind].
      rewrite at_index_in_range by lia. cbn [obind].
      unfold Bloom.store.
      rewrite length_app, length_fmap, length_take, length_drop.
      destruct (Z.leb_spec 0 h); [| lia].
      destruct (Z.ltb_spec h
                  (Z.of_nat (Z.to_nat h `min` length null_data
                             + (length d - Z.to_nat h)))); [| lia].
      cbn [andb]. f_equal.
      rewrite insert_app_r_alt
        by (rewrite length_fmap, length_take; lia).
      rewrite length_fmap, length_take.
      replace (Z.to_nat h - Z.to_nat h `min` length null_data)%nat
        with 0%nat by lia.
      replace (Z.to_nat (h + 1)) with (S (Z.to_nat h)) by lia.
      assert (Hat : null_data !! Z.to_nat h
                    = Some (null_data !!! Z.to_nat h))
        by (apply list_lookup_lookup_total_lt; lia).
      rewrite (take_S_r _ _ _ Hat), fmap_app, <- app_assoc. f_equal.
      destruct (drop (Z.to_nat h) d) as [| x tl] eqn:Hdrop.
      { apply (f_equal length) in Hdrop. rewrite length_drop in Hdrop.
        cbn in Hdrop. lia. }
      assert (Htl : drop (Z.to_nat h + 1) d = tl)
        by (rewrite <- drop_drop, Hdrop; reflexivity).
      rewrite Nat.add_1_r in Htl. rewrite Htl. reflexivity. }
  rewrite Hinv by lia. rewrite drop_ge by lia. rewrite app_nil_r.
  reflexivity.
Qed.

(** Merging a column row by row adds up its cells. *)
Lemma merge_rows_ones (column : Int64Column) (n : Z)
    (state : AggregateFunctionCountData) :
  is_state state → 0 ≤ n → is_numeric column = true →
  get_data column = assign n 1 →
  for_range 0 n (λ i s, CountNullableAggregateFunction.merge dchecks column s i)
    state
  = Returned (add n state).
Proof.
  intros Hstate Hn Hnum Hdata.
  rewrite (for_range_ext 0 n _ (λ _ s, Returned (add 1 s))).
  - rewrite for_range_add by assumption. do 2 f_equal. lia.
  - intros i s Hi. unfold CountNullableAggregateFunction.merge, Bloom.DCHECK.
    rewrite Hnum, andb_false_r, Hdata.
    unfold assign.
    rewrite (at_index_lookup _ i 1);
      [reflexivity | lia | apply lookup_replicate_2; lia].
Qed.

(** X11. The two phases of [count_nullable] agree: merging, row by row,
    the column that [convert_to_serialize_format] builds from a chunk
    gives what the batch update gives on the chunk. *)
Theorem nullable_convert_then_merge (column : Column) (rest : list Column)
    (chunk_size : Z) (dst : Int64Column) (state : AggregateFunctionCountData) :
  is_state state → 0 ≤ chunk_size → is_numeric dst = true →
  mask_covers column chunk_size → is_whole column chunk_size →
  ∃ dst',
    CountNullableAggregateFunction.convert_to_serialize_format
      (column :: rest) chunk_size dst = Returned dst'
    ∧ Z.of_nat (length (get_data dst')) = chunk_size
    ∧ for_range 0 chunk_size
        (λ i s, CountNullableAggregateFunction.merge dchecks dst' s i) state
      = CountNullableAggregateFunction.update_batch_single_state
          chunk_size (column :: rest) state.
Proof.
  intros Hstate Hn Hnum Hmask Hwhole.
  unfold CountNullableAggregateFunction.convert_to_serialize_format,
    CountNullableAggregateFunction.update_batch_single_state.
  rewrite !at_index_0. cbn [obind].
  assert (Hones : ∀ x,
            let dst' := with_get_data (assign chunk_size 1) dst in
            Z.of_nat (length (get_data dst')) = chunk_size
            ∧ (x = chunk_size →
               for_range 0 chunk_size
                 (λ i s, CountNullableAggregateFunction.merge dchecks dst' s i)
                 state
               = Returned (add x state))).
  { intros x dst'. split.
    - subst dst'. cbn [get_data with_get_data]. unfold assign.
      rewrite length_replicate. lia.
    - intros ->. apply merge_rows_ones; (assumption || reflexivity). }
  destruct column as [f | f nc]; cbn [is_whole mask_covers] in Hwhole, Hmask.
  - eexists. split; [reflexivity |]. destruct (Hones chunk_size) as [Hl Hm].
    split; [exact Hl | apply Hm; reflexivity].
  - destruct (has_null nc) eqn:Hhas.
    + specialize (Hmask eq_refl).
      rewrite convert_loop_spec
        by (try rewrite length_resize; (assumption || lia)).
      cbn [obind]. eexists. split; [reflexivity |].
      cbn [get_data with_get_data]. split.
      { rewrite length_fmap, length_take. lia. }
      unfold CountNullableAggregateFunction.count_not_null.
      apply for_range_ext. intros i s Hi.
      unfold CountNullableAggregateFunction.merge, Bloom.DCHECK.
      cbn [is_numeric get_data with_get_data].
      rewrite Hnum, andb_false_r.
      rewrite (at_index_in_range (immutable_null_column_data nc)) by lia.
      rewrite (at_index_lookup _ i
                 (lnot (immutable_null_column_data nc !!! Z.to_nat i)));
        [reflexivity | lia |].
      rewrite list_lookup_fmap, lookup_take_lt by lia.
      rewrite (list_lookup_lookup_total_lt (immutable_null_column_data nc))
        by lia.
      reflexivity.
    + eexists. split; [reflexivity |].
      destruct (Hones (size nc)) as [Hl Hm].
      split; [exact Hl | apply Hm, Hwhole; reflexivity].
Qed.

(** X12. The two phases of [count] agree: merging, row by row, the
    column that [convert_to_serialize_format] builds for a chunk gives
    what the batch update gives on the chunk. *)
Theorem count_convert_then_merge (src columns : list Column) (chunk_size : Z)
    (dst : Int64Column) (state : AggregateFunctionCountData) :
  is_state state → 0 ≤ chunk_size → is_numeric dst = true →
  ∃ dst',
    CountAggregateFunction.convert_to_serialize_format src chunk_size dst
    = Returned dst'
    ∧ for_range 0 chunk_size
        (λ i s, CountAggregateFunction.merge dchecks dst' s i) state
      = Returned (CountAggregateFunction.update_batch_single_state
                    chunk_size columns state).
Proof.
  intros Hstate Hn Hnum. eexists. split; [reflexivity |].
  apply (merge_rows_ones (with_get_data (assign chunk_size 1) dst));
    (assumption || reflexivity).
Qed.

(** X13. What [serialize_to_column] appends, [merge] reads back: merging
    the row that a state was serialized to adds the count of that state,
    and the rows the column held before stay. *)
Theorem serialize_then_merge (state other : AggregateFunctionCountData)
    (to : Int64Column) :
  is_numeric to = true →
  ∃ to',
    CountAggregateFunction.serialize_to_column dchecks state to = Returned to'
    ∧ CountAggregateFunction.finalize_to_column dchecks state to = Returned to'
    ∧ take (length (get_data to)) (get_data to') = get_data to
    ∧ CountAggregateFunction.merge dchecks to' other
        (Z.of_nat (length (get_data to)))
      = Returned (add (count state) other).
Proof.
  intros Hnum.
  unfold CountAggregateFunction.serialize_to_column,
    CountAggregateFunction.finalize_to_column,
    CountAggregateFunction.merge, Bloom.DCHECK.
  rewrite Hnum, andb_false_r. eexists. split; [reflexivity |].
  split; [reflexivity |].
  cbn [append with_get_data get_data is_numeric]. split.
  - rewrite take_app_length. reflexivity.
  - rewrite Hnum, andb_false_r.
    rewrite (at_index_lookup _ _ (count state)); [reflexivity | lia |].
    rewrite Nat2Z.id. apply list_lookup_middle. reflexivity.
Qed.

(** X14. [batch_serialize] appends the counts of the first [batch_size]
    states, in order, and reads past [agg_states] where it holds fewer
    states than that. *)
Theorem batch_serialize_appends (batch_size : Z) (agg_states : list AggDataPtr)
    (state_offset : Z) (to : Int64Column) :
  0 ≤ batch_size →
  CountAggregateFunction.batch_serialize batch_size agg_states state_offset to
  = if batch_size <=? Z.of_nat (length agg_states)
    then Returned
           (with_get_data
              (get_data to
                 ++ ((λ p : AggDataPtr, count (p state_offset))
                       <$> take (Z.to_nat batch_size) agg_states)) to)
    else Crash OutOfBounds.
Proof.
  intros Hn. unfold CountAggregateFunction.batch_serialize.
  set (body := λ (i : Z) (result_data : list Z),
         let* p := at_index agg_states i in
         Returned (result_data ++ [count (p state_offset)])).
  assert (Hinv : ∀ hi, 0 ≤ hi → hi ≤ Z.of_nat (length agg_states) →
            for_range 0 hi body (get_data to)
            = Returned (get_data to
                          ++ ((λ p : AggDataPtr, count (p state_offset))
                                <$> take (Z.to_nat hi) agg_states))).
  { intros hi Hhi.
    apply (for_range_ind 0 body (get_data to)
             (λ hi r, hi ≤ Z.of_nat (length agg_states) →
                r = Returned (get_data to
                                ++ ((λ p : AggDataPtr, count (p state_offset))
                                      <$> take (Z.to_nat hi) agg_states))));
      [| | exact Hhi].
    - intros _. cbn. rewrite app_nil_r. reflexivity.
    - intros h r Hh IH Hlen. rewrite IH by lia. cbn [obind]. unfold body.
      destruct (lookup_lt_is_Some_2 agg_states (Z.to_nat h)) as [p Hp];
        [lia |].
      rewrite (at_index_lookup _ _ p) by (assumption || lia). cbn [obind].
      replace (Z.to_nat (h + 1)) with (S (Z.to_nat h)) by lia.
      rewrite (take_S_r _ _ _ Hp), fmap_app, app_assoc. reflexivity. }
  destruct (Z.leb_spec batch_size (Z.of_nat (length agg_states)))
    as [Hle | Hgt].
  - rewrite Hinv by lia. reflexivity.
  - assert (Hc : for_range 0 batch_size body (get_data to)
                 = Crash OutOfBounds); [| rewrite Hc; reflexivity].
    eapply (for_range_crash 0 (Z.of_nat (length agg_states)));
      [lia | apply Hinv; lia |].
    unfold body. rewrite at_index_beyond by lia. reflexivity.
Qed.

(** X15. [get_values] writes the count into the cells [[start, end)]
    and into no other, and writes past the column where it has fewer
    than [end] cells. *)
Theorem get_values_fills (state : AggregateFunctionCountData)
    (dst : Int64Column) (start end_ : Z) :
  0 ≤ start → start < end_ →
  CountAggregateFunction.get_values dchecks state dst start end_
  = if end_ <=? Z.of_nat (length (get_data dst))
    then Returned
           (with_get_data
              (take (Z.to_nat start) (get_data dst)
                 ++ replicate (Z.to_nat (end_ - start)) (count state)
                 ++ drop (Z.to_nat end_) (get_data dst)) dst)
    else Crash OutOfBounds.
Proof.
  intros Hstart Hlt. unfold CountAggregateFunction.get_values, Bloom.DCHECK.
  destruct (Z.ltb_spec start end_); [| lia]. rewrite andb_false_r.
  set (d := get_data dst).
  set (body := λ (i : Z) (d : list Z), Bloom.store d i (count state)).
  assert (Hinv : ∀ hi, start ≤ hi → hi ≤ Z.of_nat (length d) →
            for_range start hi body d
            = Returned (take (Z.to_nat start) d
                          ++ replicate (Z.to_nat (hi - start)) (count state)
                          ++ drop (Z.to_nat hi) d)).
  { intros hi Hhi.
    apply (for_range_ind start body d
             (λ hi r, hi ≤ Z.of_nat (length d) →
                r = Returned (take (Z.to_nat start) d
                                ++ replicate (Z.to_nat (hi - start))
                                     (count state)
                                ++ drop (Z.to_nat hi) d)));
      [| | exact Hhi].
    - intros _. rewrite Z.sub_diag. change (Z.to_nat 0) with 0%nat.
      cbn [replicate app]. rewrite take_drop. reflexivity.
    - intros h r Hh IH Hlen. rewrite IH by lia. cbn [obind].
      unfold body, Bloom.store.
      rewrite !length_app, length_take, length_replicate, length_drop.
      destruct (Z.leb_spec 0 h); [| lia].
      destruct (Z.ltb_spec h
                  (Z.of_nat (Z.to_nat start `min` length d
                             + (Z.to_nat (h - start)
                                + (length d - Z.to_nat h))))); [| lia].
      cbn [andb]. f_equal.
      rewrite insert_app_r_alt by (rewrite length_take; lia).
      rewrite length_take. f_equal.
      rewrite insert_app_r_alt by (rewrite length_replicate; lia).
      rewrite length_replicate.
      replace (Z.to_nat h - Z.to_nat start `min` length d
               - Z.to_nat (h - start))%nat with 0%nat by lia.
      replace (Z.to_nat (h + 1 - start)) with (Z.to_nat (h - start) + 1)%nat
        by lia.
      rewrite replicate_add, <- app_assoc. f_equal.
      destruct (drop (Z.to_nat h) d) as [| x tl] eqn:Hdrop.
      { apply (f_equal length) in Hdrop. rewrite length_drop in Hdrop.
        cbn in Hdrop. lia. }
      assert (Htl : drop (Z.to_nat h + 1) d = tl)
        by (rewrite <- drop_drop, Hdrop; reflexivity).
      replace (Z.to_nat (h + 1)) with (Z.to_nat h + 1)%nat by lia.
      rewrite Htl. reflexivity. }
  destruct (Z.leb_spec end_ (Z.of_nat (length d))) as [Hle | Hgt].
  - rewrite Hinv by lia. reflexivity.
  - destruct (Z.le_gt_cases start (Z.of_nat (length d))) as [Hin | Hout].
    + assert (Hc : for_range start end_ body d = Crash OutOfBounds);
        [| rewrite Hc; reflexivity].
      eapply (for_range_crash start (Z.of_nat (length d)));
        [lia | apply Hinv; lia |].
      unfold body, Bloom.store.
      rewrite !length_app, length_take, length_replicate, length_drop.
      destruct (Z.ltb_spec (Z.of_nat (length d))
                  (Z.of_nat (Z.to_nat start `min` length d
                             + (Z.to_nat (Z.of_nat (length d) - start)
                                + (length d - Z.to_nat (Z.of_nat (length d)))))));
        [lia |].
      rewrite andb_false_r. reflexivity.
    + rewrite (for_range_crash start start end_ body d d OutOfBounds);
        [reflexivity | lia | apply for_range_empty; lia |].
      unfold body, Bloom.store.
      destruct (Z.ltb_spec start (Z.of_nat (length d))); [lia |].
      rewrite andb_false_r. reflexivity.
Qed.

End Props.

(** *** A column of four rows, the second of them null *)

Module Fixture.

Definition null_data : list Z := [0; 1; 0; 0].

Definition nullable_column : NullableColumn :=
  {| has_null := true; immutable_null_column_data := null_data; size := 4 |}.

Definition column : Column :=
  Nullable (λ i, negb (null_data !!! Z.to_nat i =? 0)) nullable_column.

Definition five : AggregateFunctionCountData := {| count := 5 |}.

Definition int64_column : Int64Column :=
  {| is_numeric := true; get_data := [7; 7; 7] |}.

Definition states : list AggDataPtr :=
  [λ _, {| count := 1 |}; λ off, {| count := off |}; λ _, {| count := 3 |}].

Lemma five_is_state : is_state five.
Proof. unfold is_state, is_i64. cbn. lia. Qed.

Lemma column_agrees : is_null_agrees column 0 4.
Proof. split; [cbn; lia | intros i _; reflexivity]. Qed.

Example update_batch_single_state_column :
  CountNullableAggregateFunction.update_batch_single_state 4 [column] five
  = Returned {| count := 8 |}.
Proof. reflexivity. Qed.

Example convert_to_serialize_format_column :
  CountNullableAggregateFunction.convert_to_serialize_format
    [column] 4 int64_column
  = Returned {| is_numeric := true; get_data := [1; 0; 1; 1] |}.
Proof. reflexivity. Qed.

Example get_values_middle :
  CountAggregateFunction.get_values true five int64_column 1 2
  = Returned {| is_numeric := true; get_data := [7; 5; 7] |}.
Proof. reflexivity. Qed.

Lemma count_batch_is_repeated_update_witness :
  for_range 0 3
    (λ i s, Returned (CountAggregateFunction.update [column] s i)) five
  = Returned (CountAggregateFunction.update_batch_single_state
                3 [column] five).
Proof.
  apply (proj1 (count_batch_is_repeated_update [column] five five_is_state)).
  lia.
Defined.

Lemma nullable_batch_is_repeated_update_witness :
  CountNullableAggregateFunction.update_batch_single_state 4 [column] five
  = for_range 0 4
      (λ i s, CountNullableAggregateFunction.update [column] s i) five.
Proof.
  apply (nullable_batch_is_repeated_update column [] 4 five).
  - exact five_is_state.
  - lia.
  - exact column_agrees.
  - intros Hfalse. discriminate Hfalse.
Defined.

Lemma nullable_frame_is_repeated_update_witness :
  CountNullableAggregateFunction.update_batch_single_state_frame
    five [column] 0 4 1 3
  = for_range 1 3
      (λ i s, CountNullableAggregateFunction.update [column] s i) five.
Proof.
  apply (nullable_frame_is_repeated_update column [] 0 4 1 3 five).
  - exact five_is_state.
  - lia.
  - lia.
  - lia.
  - split; [cbn; lia | intros i _; reflexivity].
Defined.

Lemma nullable_batch_counts_not_null_witness :
  0 ≤ not_null_rows null_data 0 4 ≤ 4
  ∧ CountNullableAggregateFunction.update_batch_single_state 4 [column] five
    = Returned (add (not_null_rows null_data 0 4) five).
Proof.
  apply (nullable_batch_counts_not_null _ nullable_column [] 4 five).
  - exact five_is_state.
  - reflexivity.
  - lia.
Defined.

Lemma nullable_convert_then_merge_witness :
  ∃ dst',
    CountNullableAggregateFunction.convert_to_serialize_format
      [column] 4 int64_column = Returned dst'
    ∧ Z.of_nat (length (get_data dst')) = 4
    ∧ for_range 0 4
        (λ i s, CountNullableAggregateFunction.merge true dst' s i) five
      = CountNullableAggregateFunction.update_batch_single_state
          4 [column] five.
Proof.
  apply (nullable_convert_then_merge true column [] 4 int64_column five).
  - exact five_is_state.
  - lia.
  - reflexivity.
  - intros _. cbn. lia.
  - intros Hfalse. discriminate Hfalse.
Defined.

Lemma count_convert_then_merge_witness :
  ∃ dst',
    CountAggregateFunction.convert_to_serialize_format [column] 4 int64_column
    = Returned dst'
    ∧ for_range 0 4 (λ i s, CountAggregateFunction.merge true dst' s i) five
      = Returned (CountAggregateFunction.update_batch_single_state
                    4 [column] five).
Proof.
  apply (count_convert_then_merge true [column] [column] 4 int64_column five).
  - exact five_is_state.
  - lia.
  - reflexivity.
Defined.

Lemma serialize_then_merge_witness :
  ∃ to',
    CountAggregateFunction.serialize_to_column true five int64_column
    = Returned to'
    ∧ CountAggregateFunction.finalize_to_column true five int64_column
      = Returned to'
    ∧ take 3 (get_data to') = [7; 7; 7]
    ∧ CountAggregateFunction.merge true to' five 3 = Returned (add 5 five).
Proof.
  apply (serialize_then_merge true five five int64_column). reflexivity.
Defined.

Lemma batch_serialize_appends_witness :
  CountAggregateFunction.batch_serialize 2 states 9 int64_column
  = Returned {| is_numeric := true; get_data := [7; 7; 7; 1; 9] |}.
Proof.
  apply (batch_serialize_appends 2 states 9 int64_column). lia.
Defined.

Lemma get_values_fills_witness :
  CountAggregateFunction.get_values true five int64_column 1 5
  = Crash OutOfBounds.
Proof.
  apply (get_values_fills true five int64_column 1 5); lia.
Defined.

End Fixture.

End Count.

(** ** TypeDescriptor and its thrift form (runtime/types.cpp) *)

Module Types.

(** The enumerators of [PrimitiveType] that types.cpp names; the other
    enumerators are told apart by their value. *)
Inductive PrimitiveType : Type :=
  | TYPE_CHAR
  | TYPE_VARCHAR
  | TYPE_HLL
  | TYPE_DECIMAL
  | TYPE_DECIMALV2
  | TYPE_DECIMAL32
  | TYPE_DECIMAL64
  | TYPE_DECIMAL128
  | TYPE_ARRAY
  | TYPE_MAP
  | TYPE_STRUCT
  | TYPE_OTHER (value : Z).

(** [TPrimitiveType::type], a thrift enum, by its value. *)
Definition TPrimitiveType : Type := Z.

Inductive TTypeNodeType : Type := SCALAR | ARRAY | MAP | STRUCT.

(** The thrift structs, with the fields types.cpp reads and writes.
    An optional field comes with its [__isset] flag. *)
Module TScalarType.
Record t : Type := {
  type : TPrimitiveType;
  len : Z;
  precision : Z;
  scale : Z;
  __isset_len : bool;
  __isset_precision : bool;
  __isset_scale : bool;
}.

(** [TScalarType()] *)
Definition ctor : t :=
  {| type := 0; len := 0; precision := 0; scale := 0;
     __isset_len := false; __isset_precision := false;
     __isset_scale := false |}.

Definition __set_type (v : TPrimitiveType) (s : t) : t :=
  {| type := v; len := len s; precision := precision s; scale := scale s;
     __isset_len := __isset_len s; __isset_precision := __isset_precision s;
     __isset_scale := __isset_scale s |}.

Definition __set_len (v : Z) (s : t) : t :=
  {| type := type s; len := v; precision := precision s; scale := scale s;
     __isset_len := true; __isset_precision := __isset_precision s;
     __isset_scale := __isset_scale s |}.

Definition __set_scale (v : Z) (s : t) : t :=
  {| type := type s; len := len s; precision := precision s; scale := v;
     __isset_len := __isset_len s; __isset_precision := __isset_precision s;
     __isset_scale := true |}.

Definition __set_precision (v : Z) (s : t) : t :=
  {| type := type s; len := len s; precision := v; scale := scale s;
     __isset_len := __isset_len s; __isset_precision := true;
     __isset_scale := __isset_scale s |}.
End TScalarType.

Module TStructField.
Record t : Type := { name : string }.
End TStructField.

Module TTypeNode.
Record t : Type := {
  type : TTypeNodeType;
  scalar_type : TScalarType.t;
  struct_fields : list TStructField.t;
  __isset_scalar_type : bool;
  __isset_struct_fields : bool;
}.

(** [TTypeNode()], what [types.emplace_back()] appends. *)
Definition ctor : t :=
  {| type := SCALAR; scalar_type := TScalarType.ctor; struct_fields := [];
     __isset_scalar_type := false; __isset_struct_fields := false |}.

Definition __set_type (v : TTypeNodeType) (n : t) : t :=
  {| type := v; scalar_type := scalar_type n;
     struct_fields := struct_fields n;
     __isset_scalar_type := __isset_scalar_type n;
     __isset_struct_fields := __isset_struct_fields n |}.

Definition __set_scalar_type (v : TScalarType.t) (n : t) : t :=
  {| type := type n; scalar_type := v; struct_fields := struct_fields n;
     __isset_scalar_type := true;
     __isset_struct_fields := __isset_struct_fields n |}.

Definition __set_struct_fields (v : list TStructField.t) (n : t) : t :=
  {| type := type n; scalar_type := scalar_type n; struct_fields := v;
     __isset_scalar_type := __isset_scalar_type n;
     __isset_struct_fields := true |}.
End TTypeNode.

Module TTypeDesc.
Record t : Type := {
  types : list TTypeNode.t;
  __isset_types : bool;
}.
End TTypeDesc.

(** The protobuf messages, with the fields types.cpp reads and writes.
    An optional field comes with its [has_] flag; the [int32] of a
    node's [type()] is taken as the [TTypeNodeType] it is cast to. *)
Module PScalarType.
Record t : Type := {
  type : TPrimitiveType;
  len : Z;
  precision : Z;
  scale : Z;
  has_len : bool;
  has_precision : bool;
  has_scale : bool;
}.

Definition ctor : t :=
  {| type := 0; len := 0; precision := 0; scale := 0;
     has_len := false; has_precision := false; has_scale := false |}.

Definition set_type (v : TPrimitiveType) (s : t) : t :=
  {| type := v; len := len s; precision := precision s; scale := scale s;
     has_len := has_len s; has_precision := has_precision s;
     has_scale := has_scale s |}.

Definition set_len (v : Z) (s : t) : t :=
  {| type := type s; len := v; precision := precision s; scale := scale s;
     has_len := true; has_precision := has_precision s;
     has_scale := has_scale s |}.

Definition set_scale (v : Z) (s : t) : t :=
  {| type := type s; len := len s; precision := precision s; scale := v;
     has_len := has_len s; has_precision := has_precision s;
     has_scale := true |}.

Definition set_precision (v : Z) (s : t) : t :=
  {| type := type s; len := len s; precision := v; scale := scale s;
     has_len := has_len s; has_precision := true;
     has_scale := has_scale s |}.
End PScalarType.

Module PStructField.
Record t : Type := { name : string }.
End PStructField.

Module PTypeNode.
Record t : Type := {
  type : TTypeNodeType;
  scalar_type : PScalarType.t;
  struct_fields : list PStructField.t;
  has_scalar_type : bool;
}.

(** The node that [add_types()] appends. *)
Definition ctor : t :=
  {| type := SCALAR; scalar_type := PScalarType.ctor; struct_fields := [];
     has_scalar_type := false |}.

Definition set_type (v : TTypeNodeType) (n : t) : t :=
  {| type := v; scalar_type := scalar_type n;
     struct_fields := struct_fields n;
     has_scalar_type := has_scalar_type n |}.

(** [*node->mutable_scalar_type() = v] *)
Definition with_scalar_type (v : PScalarType.t) (n : t) : t :=
  {| type := type n; scalar_type := v; struct_fields := struct_fields n;
     has_scalar_type := true |}.

(** [node->add_struct_fields()->set_name(v)] *)
Definition add_struct_fields (v : string) (n : t) : t :=
  {| type := type n; scalar_type := scalar_type n;
     struct_fields := struct_fields n ++ [{| PStructField.name := v |}];
     has_scalar_type := has_scalar_type n |}.
End PTypeNode.

Module PTypeDesc.
Record t : Type := { types : list PTypeNode.t }.
End PTypeDesc.

(** [struct TypeDescriptor] *)
#[warnings="-register-all"]
Inductive TypeDescriptor : Type :=
  Build_TypeDescriptor {
    type : PrimitiveType;
    len : Z;
    precision : Z;
    scale : Z;
    children : list TypeDescriptor;
    field_names : list string;
  }.

(** A call that may abort, and that is followed for a bounded number of
    nested calls: [None] where the bound is reached. *)
Definition bounded (A : Type) : Type := option (outcome A).

Definition bbind {A B} (m : bounded A) (k : A → bounded B) : bounded B :=
  match m with
  | Some (Returned a) => k a
  | Some (Crash c) => Some (Crash c)
  | None => None
  end.

Notation "'let?' x := m 'in' k" := (bbind m (fun x => k))
  (at level 10, x name, m at level 100, k at level 200, only parsing).

Section Build.

Variable dchecks : bool.

(** [thrift_to_type] and [starrocks::to_thrift], the conversions between
    [TPrimitiveType] and [PrimitiveType] that types.cpp calls. *)
Variable thrift_to_type : TPrimitiveType → PrimitiveType.
Variable primitive_to_thrift : PrimitiveType → TPrimitiveType.

Definition BCHECK {A} (cond : bool) (k : bounded A) : bounded A :=
  if dchecks && negb cond then Some (Crash CheckFailed) else k.

(** The loop of the [STRUCT] case: one child per struct field, each read
    by [construct] from where the one before stopped. *)
Definition struct_children (construct : Z → bounded (TypeDescriptor * Z))
  : list TStructField.t → list string → list TypeDescriptor → Z →
    bounded (list string * list TypeDescriptor * Z) :=
  fix loop fields field_names children idx :=
    match fields with
    | [] => Some (Returned (field_names, children, idx))
    | field :: fields =>
        let field_names := field_names ++ [TStructField.name field] in
        let? r := construct idx in
        loop fields field_names (children ++ [r.1]) r.2
    end.

(** [TypeDescriptor(const std::vector<TTypeNode>& types, int* idx)]: the
    object built and [*idx] after the call, followed for [fuel] nested
    constructor calls. *)
Fixpoint TypeDescriptor_ctor_within (fuel : nat) (types : list TTypeNode.t) (idx : Z)
  : bounded (TypeDescriptor * Z) :=
  match fuel with
  | O => None
  | S fuel =>
      BCHECK (0 <=? idx)
        (BCHECK (to_u64 idx <? Z.of_nat (length types))
           (let? node := Some (Count.at_index types idx) in
            match TTypeNode.type node with
            | SCALAR =>
                BCHECK (TTypeNode.__isset_scalar_type node)
                  (let idx := to_i32 (idx + 1) in
                   let scalar_type := TTypeNode.scalar_type node in
                   let type := thrift_to_type (TScalarType.type scalar_type) in
                   let len :=
                     if TScalarType.__isset_len scalar_type
                     then TScalarType.len scalar_type else -1 in
                   let scale :=
                     if TScalarType.__isset_scale scalar_type
                     then TScalarType.scale scalar_type else -1 in
                   let precision :=
                     if TScalarType.__isset_precision scalar_type
                     then TScalarType.precision scalar_type else -1 in
                   let this :=
                     {| type := type; len := len; precision := precision;
                        scale := scale; children := [];
                        field_names := [] |} in
                   match type with
                   | TYPE_DECIMAL | TYPE_DECIMALV2 | TYPE_DECIMAL32
                   | TYPE_DECIMAL64 | TYPE_DECIMAL128 =>
                       BCHECK (TScalarType.__isset_precision scalar_type)
                         (BCHECK (TScalarType.__isset_scale scalar_type)
                            (Some (Returned (this, idx))))
                   | _ => Some (Returned (this, idx))
                   end)
            | STRUCT =>
                let idx := to_i32 (idx + 1) in
                let? r := struct_children (TypeDescriptor_ctor_within fuel types)
                            (TTypeNode.struct_fields node) [] [] idx in
                Some (Returned
                        ({| type := TYPE_STRUCT; len := -1; precision := -1;
                            scale := -1; children := r.1.2;
                            field_names := r.1.1 |}, r.2))
            | ARRAY =>
                BCHECK (negb (TTypeNode.__isset_scalar_type node))
                  (BCHECK (to_u64 idx
                           <? to_u64 (Z.of_nat (length types) - 1))
                     (let idx := to_i32 (idx + 1) in
                      let? r := TypeDescriptor_ctor_within fuel types idx in
                      Some (Returned
                              ({| type := TYPE_ARRAY; len := -1;
                                  precision := -1; scale := -1;
                                  children := [r.1]; field_names := [] |},
                               r.2))))
            | MAP =>
                BCHECK (negb (TTypeNode.__isset_scalar_type node))
                  (BCHECK (to_u64 idx
                           <? to_u64 (Z.of_nat (length types) - 2))
                     (let idx := to_i32 (idx + 1) in
                      let? k := TypeDescriptor_ctor_within fuel types idx in
                      let? v := TypeDescriptor_ctor_within fuel types k.2 in
                      Some (Returned
                              ({| type := TYPE_MAP; len := -1;
                                  precision := -1; scale := -1;
                                  children := [k.1; v.1];
                                  field_names := [] |},
                               v.2))))
            end))
  end.

(** A constructor call on [types] nests at most [types.size()] deep. *)
Definition TypeDescriptor_ctor (types : list TTypeNode.t) (idx : Z)
  : bounded (TypeDescriptor * Z) :=
  TypeDescriptor_ctor_within (S (length types)) types idx.

(** The node that [to_thrift] appends for a descriptor, before it goes
    on to the children. *)
Definition scalar_node (type : PrimitiveType) (len scale precision : Z)
  : TTypeNode.t :=
  let curr_node := TTypeNode.__set_type SCALAR TTypeNode.ctor in
  let curr_node := TTypeNode.__set_scalar_type TScalarType.ctor curr_node in
  let scalar_type := TTypeNode.scalar_type curr_node in
  let scalar_type :=
    TScalarType.__set_type (primitive_to_thrift type) scalar_type in
  let scalar_type :=
    if len =? -1 then scalar_type
    else TScalarType.__set_len len scalar_type in
  let scalar_type :=
    if scale =? -1 then scalar_type
    else TScalarType.__set_scale scale scalar_type in
  let scalar_type :=
    if precision =? -1 then scalar_type
    else TScalarType.__set_precision precision scalar_type in
  {| TTypeNode.type := TTypeNode.type curr_node;
     TTypeNode.scalar_type := scalar_type;
     TTypeNode.struct_fields := TTypeNode.struct_fields curr_node;
     TTypeNode.__isset_scalar_type := TTypeNode.__isset_scalar_type curr_node;
     TTypeNode.__isset_struct_fields :=
       TTypeNode.__isset_struct_fields curr_node |}.

Definition struct_node (field_names : list string) : TTypeNode.t :=
  let curr_node := TTypeNode.__set_type STRUCT TTypeNode.ctor in
  let curr_node := TTypeNode.__set_struct_fields [] curr_node in
  TTypeNode.__set_struct_fields
    (foldl (λ struct_fields field_name,
              struct_fields ++ [{| TStructField.name := field_name |}])
       (TTypeNode.struct_fields curr_node) field_names)
    curr_node.

(** [thrift_type->types.emplace_back(); curr_node = ...], with
    [__isset.types] set. *)
Definition emplace_back (node : TTypeNode.t) (thrift_type : TTypeDesc.t)
  : TTypeDesc.t :=
  {| TTypeDesc.types := TTypeDesc.types thrift_type ++ [node];
     TTypeDesc.__isset_types := true |}.

(** [void TypeDescriptor::to_thrift(TTypeDesc* thrift_type) const]: the
    [TTypeDesc] after the call. *)
Fixpoint to_thrift (this : TypeDescriptor) (thrift_type : TTypeDesc.t)
  : outcome TTypeDesc.t :=
  match this with
  | Build_TypeDescriptor type len precision scale children field_names =>
      match type with
      | TYPE_ARRAY =>
          let thrift_type :=
            emplace_back (TTypeNode.__set_type ARRAY TTypeNode.ctor)
              thrift_type in
          Bloom.DCHECK dchecks (1 =? Z.of_nat (length children))
            match children with
            | child :: _ => to_thrift child thrift_type
            | [] => Crash OutOfBounds
            end
      | TYPE_MAP =>
          let thrift_type :=
            emplace_back (TTypeNode.__set_type MAP TTypeNode.ctor)
              thrift_type in
          Bloom.DCHECK dchecks (2 =? Z.of_nat (length children))
            match children with
            | key :: children =>
                let* thrift_type := to_thrift key thrift_type in
                match children with
                | value :: _ => to_thrift value thrift_type
                | [] => Crash OutOfBounds
                end
            | [] => Crash OutOfBounds
            end
      | TYPE_STRUCT =>
          let thrift_type := emplace_back (struct_node field_names)
                               thrift_type in
          (fix each children thrift_type :=
             match children with
             | [] => Returned thrift_type
             | child :: children =>
                 let* thrift_type := to_thrift child thrift_type in
                 each children thrift_type
             end) children thrift_type
      | _ =>
          Returned (emplace_back (scalar_node type len scale precision)
                      thrift_type)
      end
  end.

(** The loop of the [STRUCT] case of the protobuf constructor, which
    reads the child before it takes the name. *)
Definition struct_children_pb
    (construct : Z → bounded (TypeDescriptor * Z))
  : list PStructField.t → list string → list TypeDescriptor → Z →
    bounded (list string * list TypeDescriptor * Z) :=
  fix loop fields field_names children idx :=
    match fields with
    | [] => Some (Returned (field_names, children, idx))
    | field :: fields =>
        let? r := construct idx in
        let children := children ++ [r.1] in
        loop fields (field_names ++ [PStructField.name field]) children r.2
    end.

(** [TypeDescriptor(const google::protobuf::RepeatedPtrField<PTypeNode>&
    types, int* idx)]: the object built and [*idx] after the call,
    followed for [fuel] nested constructor calls.  [types.size()] is an
    [int] here. *)
Fixpoint TypeDescriptor_ctor_pb_within (fuel : nat) (types : list PTypeNode.t)
    (idx : Z) : bounded (TypeDescriptor * Z) :=
  match fuel with
  | O => None
  | S fuel =>
      BCHECK (0 <=? idx)
        (BCHECK (idx <? Z.of_nat (length types))
           (let? node := Some (Count.at_index types idx) in
            match PTypeNode.type node with
            | SCALAR =>
                BCHECK (PTypeNode.has_scalar_type node)
                  (let idx := to_i32 (idx + 1) in
                   let scalar_type := PTypeNode.scalar_type node in
                   let type := thrift_to_type (PScalarType.type scalar_type) in
                   let len :=
                     if PScalarType.has_len scalar_type
                     then PScalarType.len scalar_type else -1 in
                   let scale :=
                     if PScalarType.has_scale scalar_type
                     then PScalarType.scale scalar_type else -1 in
                   let precision :=
                     if PScalarType.has_precision scalar_type
                     then PScalarType.precision scalar_type else -1 in
                   let this :=
                     {| type := type; len := len; precision := precision;
                        scale := scale; children := [];
                        field_names := [] |} in
                   match type with
                   | TYPE_CHAR | TYPE_VARCHAR | TYPE_HLL =>
                       BCHECK (PScalarType.has_len scalar_type)
                         (Some (Returned (this, idx)))
                   | TYPE_DECIMAL | TYPE_DECIMALV2 =>
                       BCHECK (PScalarType.has_precision scalar_type)
                         (BCHECK (PScalarType.has_scale scalar_type)
                            (Some (Returned (this, idx))))
                   | _ => Some (Returned (this, idx))
                   end)
            | STRUCT =>
                let idx := to_i32 (idx + 1) in
                let? r := struct_children_pb
                            (TypeDescriptor_ctor_pb_within fuel types)
                            (PTypeNode.struct_fields node) [] [] idx in
                Some (Returned
                        ({| type := TYPE_STRUCT; len := -1; precision := -1;
                            scale := -1; children := r.1.2;
                            field_names := r.1.1 |}, r.2))
            | ARRAY =>
                BCHECK (negb (PTypeNode.has_scalar_type node))
                  (BCHECK (idx <? Z.of_nat (length types) - 1)
                     (let idx := to_i32 (idx + 1) in
                      let? r := TypeDescriptor_ctor_pb_within fuel types idx in
                      Some (Returned
                              ({| type := TYPE_ARRAY; len := -1;
                                  precision := -1; scale := -1;
                                  children := [r.1]; field_names := [] |},
                               r.2))))
            | MAP =>
                BCHECK (negb (PTypeNode.has_scalar_type node))
                  (BCHECK (idx <? Z.of_nat (length types) - 2)
                     (let idx := to_i32 (idx + 1) in
                      let? k := TypeDescriptor_ctor_pb_within fuel types idx in
                      let? v := TypeDescriptor_ctor_pb_within fuel types k.2 in
                      Some (Returned
                              ({| type := TYPE_MAP; len := -1;
                                  precision := -1; scale := -1;
                                  children := [k.1; v.1];
                                  field_names := [] |},
                               v.2))))
            end))
  end.

Definition TypeDescriptor_ctor_pb (types : list PTypeNode.t) (idx : Z)
  : bounded (TypeDescriptor * Z) :=
  TypeDescriptor_ctor_pb_within (S (length types)) types idx.

(** The node that [to_protobuf] adds for a descriptor, before it goes
    on to the children. *)
Definition scalar_pnode (type : PrimitiveType) (len scale precision : Z)
  : PTypeNode.t :=
  let node := PTypeNode.set_type SCALAR PTypeNode.ctor in
  let scalar_type := PTypeNode.scalar_type node in
  let scalar_type :=
    PScalarType.set_type (primitive_to_thrift type) scalar_type in
  let scalar_type :=
    if len =? -1 then scalar_type
    else PScalarType.set_len len scalar_type in
  let scalar_type :=
    if scale =? -1 then scalar_type
    else PScalarType.set_scale scale scalar_type in
  let scalar_type :=
    if precision =? -1 then scalar_type
    else PScalarType.set_precision precision scalar_type in
  PTypeNode.with_scalar_type scalar_type node.

Definition struct_pnode (field_names : list string) : PTypeNode.t :=
  let node := PTypeNode.set_type STRUCT PTypeNode.ctor in
  foldl (λ node field_name, PTypeNode.add_struct_fields field_name node)
    node field_names.

(** [proto_type->add_types()], with what the node is then set to. *)
Definition add_types (node : PTypeNode.t) (proto_type : PTypeDesc.t)
  : PTypeDesc.t :=
  {| PTypeDesc.types := PTypeDesc.types proto_type ++ [node] |}.

(** [void TypeDescriptor::to_protobuf(PTypeDesc* proto_type) const]: the
    [PTypeDesc] after the call. *)
Fixpoint to_protobuf (this : TypeDescriptor) (proto_type : PTypeDesc.t)
  : outcome PTypeDesc.t :=
  match this with
  | Build_TypeDescriptor type len precision scale children field_names =>
      match type with
      | TYPE_ARRAY =>
          let proto_type :=
            add_types (PTypeNode.set_type ARRAY PTypeNode.ctor) proto_type in
          Bloom.DCHECK dchecks (1 =? Z.of_nat (length children))
            match children with
            | child :: _ => to_protobuf child proto_type
            | [] => Crash OutOfBounds
            end
      | TYPE_MAP =>
          let proto_type :=
            add_types (PTypeNode.set_type MAP PTypeNode.ctor) proto_type in
          Bloom.DCHECK dchecks (2 =? Z.of_nat (length children))
            match children with
            | key :: children =>
                let* proto_type := to_protobuf key proto_type in
                match children with
                | value :: _ => to_protobuf value proto_type
                | [] => Crash OutOfBounds
                end
            | [] => Crash OutOfBounds
            end
      | TYPE_STRUCT =>
          let proto_type := add_types (struct_pnode field_names) proto_type in
          (fix each children proto_type :=
             match children with
             | [] => Returned proto_type
             | child :: children =>
                 let* proto_type := to_protobuf child proto_type in
                 each children proto_type
             end) children proto_type
      | _ =>
          Returned (add_types (scalar_pnode type len scale precision)
                      proto_type)
      end
  end.

(** *** The shape of a descriptor *)

(** The number of nodes of a descriptor, itself included. *)
Fixpoint node_count (t : TypeDescriptor) : nat :=
  match t with
  | Build_TypeDescriptor _ _ _ _ children _ =>
      S (sum_list_with node_count children)
  end.

Definition is_decimal (ty : PrimitiveType) : bool :=
  match ty with
  | TYPE_DECIMAL | TYPE_DECIMALV2 | TYPE_DECIMAL32 | TYPE_DECIMAL64
  | TYPE_DECIMAL128 => true
  | _ => false
  end.

(** The invariant of a descriptor that a wire form keeps: an array has
    one child and a map two, a struct has a name for each child, these
    three carry no length, precision or scale, and any other type is a
    scalar without children which the two conversions of primitive
    types take back to itself, and which has the fields the wire form
    asks of it ([scalar_ok]). *)
Fixpoint well_formed_with (scalar_ok : PrimitiveType → Z → Z → Z → Prop)
    (t : TypeDescriptor) : Prop :=
  match t with
  | Build_TypeDescriptor type len precision scale children field_names =>
      match type with
      | TYPE_ARRAY =>
          length children = 1%nat ∧ field_names = []
          ∧ len = -1 ∧ precision = -1 ∧ scale = -1
      | TYPE_MAP =>
          length children = 2%nat ∧ field_names = []
          ∧ len = -1 ∧ precision = -1 ∧ scale = -1
      | TYPE_STRUCT =>
          length field_names = length children
          ∧ len = -1 ∧ precision = -1 ∧ scale = -1
      | _ =>
          children = [] ∧ field_names = []
          ∧ thrift_to_type (primitive_to_thrift type) = type
          ∧ scalar_ok type len precision scale
      end
      ∧ (fix all (cs : list TypeDescriptor) : Prop :=
           match cs with
           | [] => True
           | c :: cs => well_formed_with scalar_ok c ∧ all cs
           end) children
  end.

(** For the thrift form, a decimal has a precision and a scale. *)
Definition thrift_scalar_ok (type : PrimitiveType) (len precision scale : Z)
  : Prop :=
  is_decimal type = true → precision ≠ -1 ∧ scale ≠ -1.

Definition well_formed : TypeDescriptor → Prop :=
  well_formed_with thrift_scalar_ok.

(** For the protobuf form, a character type has a length, and a decimal
    of the first two kinds a precision and a scale. *)
Definition protobuf_scalar_ok (type : PrimitiveType) (len precision scale : Z)
  : Prop :=
  match type with
  | TYPE_CHAR | TYPE_VARCHAR | TYPE_HLL => len ≠ -1
  | TYPE_DECIMAL | TYPE_DECIMALV2 => precision ≠ -1 ∧ scale ≠ -1
  | _ => True
  end.

Definition well_formed_pb : TypeDescriptor → Prop :=
  well_formed_with protobuf_scalar_ok.

(** *** Reading a call *)

Lemma to_i32_id (x : Z) : - 2 ^ 31 ≤ x < 2 ^ 31 → to_i32 x = x.
Proof.
  unfold to_i32, wrap_signed. intros Hx. rewrite Z.mod_small; lia.
Qed.

Lemma bbind_returned {A B} (m : bounded A) (k : A → bounded B) (b : B) :
  bbind m k = Some (Returned b) →
  ∃ a, m = Some (Returned a) ∧ k a = Some (Returned b).
Proof.
  destruct m as [[a | c] |]; cbn [bbind]; intros Hk; try discriminate.
  exists a. split; [reflexivity | exact Hk].
Qed.

Lemma BCHECK_returned {A} (cond : bool) (k : bounded A) (a : A) :
  BCHECK cond k = Some (Returned a) → k = Some (Returned a).
Proof.
  unfold BCHECK. destruct (dchecks && negb cond); [discriminate | auto].
Qed.

Lemma BCHECK_true {A} (cond : bool) (k : bounded A) :
  cond = true → BCHECK cond k = k.
Proof. intros ->. unfold BCHECK. rewrite andb_false_r. reflexivity. Qed.


Lemma at_index_returned {A} (v : list A) (i : Z) (a : A) :
  Count.at_index v i = Returned a →
  0 ≤ i < Z.of_nat (length v) ∧ v !! Z.to_nat i = Some a.
Proof.
  unfold Count.at_index. destruct (Z.leb_spec 0 i); [| discriminate].
  destruct (v !! Z.to_nat i) as [a' |] eqn:Hat; [| discriminate].
  intros [= ->]. apply lookup_lt_Some in Hat as Hlt.
  split; [lia | reflexivity].
Qed.

(** *** The constructor consumes the nodes of what it builds *)



(** *** The constructor ends *)








(** *** From a descriptor to thrift and back *)

(** The node [to_thrift] appends for a descriptor itself. *)
Definition own_node (t : TypeDescriptor) : TTypeNode.t :=
  match type t with
  | TYPE_ARRAY => TTypeNode.__set_type ARRAY TTypeNode.ctor
  | TYPE_MAP => TTypeNode.__set_type MAP TTypeNode.ctor
  | TYPE_STRUCT => struct_node (field_names t)
  | _ => scalar_node (type t) (len t) (scale t) (precision t)
  end.

(** The nodes of a descriptor: its own, then those of its children in
    order. *)
Fixpoint thrift_nodes (t : TypeDescriptor) : list TTypeNode.t :=
  match t with
  | Build_TypeDescriptor type len precision scale children field_names =>
      own_node (Build_TypeDescriptor type len precision scale children
                  field_names)
      :: concat (map thrift_nodes children)
  end.

Definition emplace_all (nodes : list TTypeNode.t) (thrift_type : TTypeDesc.t)
  : TTypeDesc.t :=
  {| TTypeDesc.types := TTypeDesc.types thrift_type ++ nodes;
     TTypeDesc.__isset_types := true |}.

Section Induction.

Variable P : TypeDescriptor → Prop.

Hypothesis P_children :
  ∀ type len precision scale children field_names,
    Forall P children →
    P (Build_TypeDescriptor type len precision scale children field_names).

Fixpoint descriptor_ind (t : TypeDescriptor) : P t :=
  match t with
  | Build_TypeDescriptor type len precision scale children field_names =>
      P_children type len precision scale children field_names
        ((fix all (cs : list TypeDescriptor) : Forall P cs :=
            match cs with
            | [] => @List.Forall_nil _ P
            | c :: cs => @List.Forall_cons _ P c cs (descriptor_ind c) (all cs)
            end) children)
  end.

End Induction.

Definition all_well_formed (scalar_ok : PrimitiveType → Z → Z → Z → Prop)
  : list TypeDescriptor → Prop :=
  fix all (cs : list TypeDescriptor) : Prop :=
    match cs with
    | [] => True
    | c :: cs => well_formed_with scalar_ok c ∧ all cs
    end.

Lemma all_well_formed_Forall (scalar_ok : PrimitiveType → Z → Z → Z → Prop)
    (cs : list TypeDescriptor) :
  all_well_formed scalar_ok cs → Forall (well_formed_with scalar_ok) cs.
Proof.
  induction cs as [| c cs IH]; cbn; [constructor |].
  intros [Hc Hcs]. constructor; auto.
Qed.

Lemma well_formed_children (scalar_ok : PrimitiveType → Z → Z → Z → Prop)
    (t : TypeDescriptor) :
  well_formed_with scalar_ok t →
  Forall (well_formed_with scalar_ok) (children t).
Proof.
  destruct t as [ty l p sc cs fn]. cbn [well_formed_with children].
  intros [_ Hall]. apply all_well_formed_Forall. exact Hall.
Qed.

Lemma length_thrift_nodes (t : TypeDescriptor) :
  length (thrift_nodes t) = node_count t.
Proof.
  induction t as [ty l p sc cs fn IH] using descriptor_ind.
  cbn [thrift_nodes node_count length]. f_equal.
  induction IH as [| c cs Hc _ IHcs]; cbn [map concat sum_list_with];
    [reflexivity |].
  rewrite length_app, Hc, IHcs. reflexivity.
Qed.

Lemma node_count_pos (t : TypeDescriptor) : (0 < node_count t)%nat.
Proof. destruct t. cbn [node_count]. lia. Qed.

Lemma emplace_all_app (a b : list TTypeNode.t) (d : TTypeDesc.t) :
  emplace_all b (emplace_all a d) = emplace_all (a ++ b) d.
Proof. unfold emplace_all. cbn. rewrite app_assoc. reflexivity. Qed.

Lemma emplace_back_all (node : TTypeNode.t) (d : TTypeDesc.t) :
  emplace_back node d = emplace_all [node] d.
Proof. reflexivity. Qed.

Lemma emplace_all_nil (d : TTypeDesc.t) :
  TTypeDesc.__isset_types d = true → emplace_all [] d = d.
Proof.
  destruct d as [ts b]. cbn. intros ->. unfold emplace_all. cbn.
  rewrite app_nil_r. reflexivity.
Qed.

(** The loop of [to_thrift] over the children of a struct. *)
Definition each_to_thrift
  : list TypeDescriptor → TTypeDesc.t → outcome TTypeDesc.t :=
  fix each children thrift_type :=
    match children with
    | [] => Returned thrift_type
    | child :: children =>
        let* thrift_type := to_thrift child thrift_type in
        each children thrift_type
    end.

Lemma each_to_thrift_nodes (cs : list TypeDescriptor) :
  Forall (λ c, ∀ d, to_thrift c d = Returned (emplace_all (thrift_nodes c) d))
    cs →
  ∀ d, TTypeDesc.__isset_types d = true →
       each_to_thrift cs d
       = Returned (emplace_all (concat (map thrift_nodes cs)) d).
Proof.
  induction 1 as [| c cs Hc _ IH]; intros d Hd; cbn [each_to_thrift map concat].
  - rewrite emplace_all_nil by exact Hd. reflexivity.
  - rewrite Hc. cbn [obind]. rewrite IH by reflexivity.
    rewrite emplace_all_app. reflexivity.
Qed.

(** [to_thrift] on a well-formed descriptor appends its nodes. *)
Lemma to_thrift_well_formed (t : TypeDescriptor) :
  well_formed t →
  ∀ d, to_thrift t d = Returned (emplace_all (thrift_nodes t) d).
Proof.
  induction t as [ty l p sc cs fn IH] using descriptor_ind.
  intros Hwf d.
  pose proof (well_formed_children _ _ Hwf) as Hcs. cbn [children] in Hcs.
  assert (IH' : Forall (λ c, ∀ d, to_thrift c d
                                  = Returned (emplace_all (thrift_nodes c) d))
                  cs).
  { clear Hwf. induction IH as [| c cs Hc _ IHcs]; [constructor |].
    inversion Hcs; subst. constructor; auto. }
  cbn [to_thrift thrift_nodes]. unfold own_node. cbn [type].
  destruct Hwf as [Hshape _].
  destruct ty; cbn [field_names len scale precision];
    try (destruct Hshape as (Hnil & _); rewrite Hnil, emplace_back_all;
         reflexivity).
  - destruct Hshape as (Hlen & _).
    destruct cs as [| c [| ? ?]]; try discriminate Hlen.
    unfold Bloom.DCHECK. change (1 =? Z.of_nat (length [c])) with true.
    cbn [negb]. rewrite andb_false_r. inversion IH' as [| ? ? Hc _]; subst.
    rewrite Hc, emplace_back_all, emplace_all_app. cbn [map concat app].
    rewrite app_nil_r. reflexivity.
  - destruct Hshape as (Hlen & _).
    destruct cs as [| k [| v [| ? ?]]]; try discriminate Hlen.
    unfold Bloom.DCHECK. change (2 =? Z.of_nat (length [k; v])) with true.
    cbn [negb]. rewrite andb_false_r.
    inversion IH' as [| ? ? Hk IHv]; subst.
    inversion IHv as [| ? ? Hv _]; subst.
    rewrite Hk. cbn [obind]. rewrite Hv.
    rewrite emplace_back_all, !emplace_all_app. cbn [map concat app].
    rewrite app_nil_r. reflexivity.
  - change (each_to_thrift cs (emplace_back (struct_node fn) d)
            = Returned (emplace_all
                          (struct_node fn :: concat (map thrift_nodes cs)) d)).
    rewrite each_to_thrift_nodes by (assumption || reflexivity).
    rewrite emplace_back_all, emplace_all_app. reflexivity.
Qed.

Lemma scalar_node_fields (ty : PrimitiveType) (l sc p : Z) :
  let node := scalar_node ty l sc p in
  let scalar_type := TTypeNode.scalar_type node in
  TTypeNode.type node = SCALAR
  ∧ TTypeNode.__isset_scalar_type node = true
  ∧ TScalarType.type scalar_type = primitive_to_thrift ty
  ∧ (if TScalarType.__isset_len scalar_type
     then TScalarType.len scalar_type else -1) = l
  ∧ (if TScalarType.__isset_scale scalar_type
     then TScalarType.scale scalar_type else -1) = sc
  ∧ (if TScalarType.__isset_precision scalar_type
     then TScalarType.precision scalar_type else -1) = p
  ∧ TScalarType.__isset_scale scalar_type = negb (sc =? -1)
  ∧ TScalarType.__isset_precision scalar_type = negb (p =? -1).
Proof.
  unfold scalar_node.
  destruct (Z.eqb_spec l (-1)), (Z.eqb_spec sc (-1)), (Z.eqb_spec p (-1));
    cbn; repeat split; congruence.
Qed.

Lemma struct_node_fields (fn : list string) :
  TTypeNode.type (struct_node fn) = STRUCT
  ∧ TTypeNode.struct_fields (struct_node fn)
    = (λ n, {| TStructField.name := n |}) <$> fn.
Proof.
  unfold struct_node. cbn. split; [reflexivity |].
  assert (Hfold : ∀ acc,
            foldl (λ struct_fields field_name,
                     struct_fields ++ [{| TStructField.name := field_name |}])
              acc fn
            = acc ++ ((λ n, {| TStructField.name := n |}) <$> fn)).
  { induction fn as [| n fn IH]; intros acc; cbn [foldl fmap list_fmap].
    - rewrite app_nil_r. reflexivity.
    - rewrite IH, <- app_assoc. reflexivity. }
  apply Hfold.
Qed.

(** What the constructor makes of the nodes of a well-formed
    descriptor, wherever they lie in the vector. *)
Definition reads_back (t : TypeDescriptor) : Prop :=
  ∀ fuel types pre post idx,
    types = pre ++ thrift_nodes t ++ post →
    idx = Z.of_nat (length pre) →
    (node_count t ≤ fuel)%nat →
    Z.of_nat (length types) < 2 ^ 31 →
    TypeDescriptor_ctor_within fuel types idx
    = Some (Returned (t, idx + Z.of_nat (node_count t))).

Lemma struct_children_reads_back (fuel : nat) (types : list TTypeNode.t)
    (cs : list TypeDescriptor) :
  Forall reads_back cs →
  Z.of_nat (length types) < 2 ^ 31 →
  (sum_list_with node_count cs ≤ fuel)%nat →
  ∀ names pre post field_names children idx,
    length names = length cs →
    types = pre ++ concat (map thrift_nodes cs) ++ post →
    idx = Z.of_nat (length pre) →
    struct_children (TypeDescriptor_ctor_within fuel types)
      ((λ n, {| TStructField.name := n |}) <$> names)
      field_names children idx
    = Some (Returned (field_names ++ names, children ++ cs,
                      idx + Z.of_nat (sum_list_with node_count cs))).
Proof.
  intros Hcs Hlen.
  induction Hcs as [| c cs Hc _ IH];
    intros Hfuel names pre post field_names children idx Hnames Htypes Hidx.
  - destruct names; [| discriminate Hnames].
    cbn. rewrite !app_nil_r, Z.add_0_r. reflexivity.
  - destruct names as [| n names]; [discriminate Hnames |].
    cbn [fmap list_fmap struct_children TStructField.name].
    cbn [sum_list_with] in Hfuel.
    cbn [map concat] in Htypes. rewrite <- app_assoc in Htypes.
    rewrite (Hc fuel types pre _ idx Htypes Hidx) by (lia || assumption).
    cbn [bbind fst snd].
    rewrite (IH ltac:(lia) names (pre ++ thrift_nodes c) post).
    + cbn [sum_list_with]. rewrite <- !app_assoc. cbn [app].
      do 3 f_equal. lia.
    + cbn in Hnames. lia.
    + rewrite Htypes, <- app_assoc. reflexivity.
    + rewrite length_app, length_thrift_nodes. lia.
Qed.

(** The first steps of a constructor call on a node inside the
    vector. *)
Ltac ctor_enter Hnode :=
  cbn [TypeDescriptor_ctor_within];
  rewrite BCHECK_true by (apply Z.leb_le; lia);
  rewrite BCHECK_true
    by (rewrite to_u64_id by (unfold is_u64; lia); apply Z.ltb_lt; lia);
  rewrite Hnode; cbn [bbind];
  rewrite (to_i32_id (_ + 1)) by lia.

Lemma ctor_within_scalar_node (fuel : nat) (types : list TTypeNode.t)
    (idx : Z) (ty : PrimitiveType) (l sc p : Z) :
  Count.at_index types idx = Returned (scalar_node ty l sc p) →
  0 ≤ idx < Z.of_nat (length types) → Z.of_nat (length types) < 2 ^ 31 →
  thrift_to_type (primitive_to_thrift ty) = ty →
  (is_decimal ty = true → p ≠ -1 ∧ sc ≠ -1) →
  TypeDescriptor_ctor_within (S fuel) types idx
  = Some (Returned (Build_TypeDescriptor ty l p sc [] [], idx + 1)).
Proof.
  intros Hnode Hidx Hlen Hconv Hdec.
  destruct (scalar_node_fields ty l sc p)
    as (Hty & Hset & Hprim & Hl & Hsc & Hp & Hisc & Hip).
  ctor_enter Hnode.
  rewrite Hty, BCHECK_true by exact Hset. cbn zeta.
  rewrite Hprim, Hconv, Hl, Hsc, Hp, Hisc, Hip.
  destruct ty; cbn [is_decimal] in Hdec; try reflexivity;
    destruct (Hdec eq_refl) as [Hp1 Hsc1];
    rewrite !BCHECK_true; try reflexivity;
    apply negb_true_iff, Z.eqb_neq; assumption.
Qed.

Lemma ctor_within_thrift_nodes (t : TypeDescriptor) :
  well_formed t → reads_back t.
Proof.
  induction t as [ty l p sc cs fn IH] using descriptor_ind.
  intros Hwf.
  pose proof (well_formed_children _ _ Hwf) as Hcs. cbn [children] in Hcs.
  assert (IH' : Forall reads_back cs).
  { clear Hwf. induction IH as [| c cs Hc _ IHcs]; [constructor |].
    inversion Hcs; subst. constructor; auto. }
  clear IH Hcs. destruct Hwf as [Hshape _].
  intros fuel types pre post idx Htypes Hidx Hfuel Hlen.
  destruct fuel as [| fuel]; [cbn [node_count] in Hfuel; lia |].
  cbn [thrift_nodes] in Htypes.
  pose proof Hlen as Hlen'.
  rewrite Htypes, length_app, length_app in Hlen'.
  cbn [length] in Hlen'.
  assert (Hsize : Z.of_nat (length types)
                  = idx + 1
                    + Z.of_nat (length (concat (map thrift_nodes cs)))
                    + Z.of_nat (length post))
    by (rewrite Htypes, !length_app; cbn [length]; lia).
  assert (Hnode : Count.at_index types idx
                  = Returned (own_node (Build_TypeDescriptor ty l p sc cs fn))).
  { apply Count.at_index_lookup; [lia |].
    rewrite Hidx, Nat2Z.id, Htypes. cbn [app].
    apply list_lookup_middle. reflexivity. }
  unfold own_node in Hnode. cbn [type len scale precision field_names] in Hnode.
  destruct ty;
    try (destruct Hshape as (-> & -> & Hconv & Hok);
         rewrite (ctor_within_scalar_node fuel types idx _ l sc p Hnode)
           by first [ assumption | lia ];
         cbn [node_count sum_list_with]; do 3 f_equal; lia).
  - (* TYPE_ARRAY *)
    destruct Hshape as (Hone & -> & -> & -> & ->).
    destruct cs as [| c [| ? ?]]; try discriminate Hone.
    pose proof (List.Forall_inv IH') as Hc.
    cbn [map concat] in *. rewrite app_nil_r in *.
    ctor_enter Hnode. cbn [TTypeNode.type TTypeNode.__set_type
                             TTypeNode.__isset_scalar_type TTypeNode.ctor].
    rewrite BCHECK_true by reflexivity.
    pose proof (length_thrift_nodes c) as Hnc.
    pose proof (node_count_pos c) as Hpos.
    rewrite BCHECK_true
      by (rewrite !to_u64_id by (unfold is_u64; lia); apply Z.ltb_lt; lia).
    cbn [node_count sum_list_with] in Hfuel.
    rewrite (Hc fuel types
               (pre ++ [TTypeNode.__set_type ARRAY TTypeNode.ctor])
               post (idx + 1)).
    + cbn [bbind fst snd node_count sum_list_with]. do 3 f_equal. lia.
    + rewrite Htypes, <- app_assoc. reflexivity.
    + rewrite length_app. cbn [length]. lia.
    + lia.
    + exact Hlen.
  - (* TYPE_MAP *)
    destruct Hshape as (Htwo & -> & -> & -> & ->).
    destruct cs as [| k [| v [| ? ?]]]; try discriminate Htwo.
    pose proof (List.Forall_inv IH') as Hk.
    pose proof (List.Forall_inv (List.Forall_inv_tail IH')) as Hv.
    cbn [map concat] in *. rewrite app_nil_r in *.
    rewrite length_app in *.
    ctor_enter Hnode. cbn [TTypeNode.type TTypeNode.__set_type
                             TTypeNode.__isset_scalar_type TTypeNode.ctor].
    rewrite BCHECK_true by reflexivity.
    pose proof (length_thrift_nodes k) as Hnk.
    pose proof (length_thrift_nodes v) as Hnv.
    pose proof (node_count_pos k) as Hposk.
    pose proof (node_count_pos v) as Hposv.
    cbn [node_count sum_list_with] in Hfuel.
    rewrite BCHECK_true
      by (rewrite !to_u64_id by (unfold is_u64; lia); apply Z.ltb_lt; lia).
    rewrite (Hk fuel types (pre ++ [TTypeNode.__set_type MAP TTypeNode.ctor])
               (thrift_nodes v ++ post) (idx + 1)).
    + cbn [bbind fst snd].
      rewrite (Hv fuel types
                 (pre ++ [TTypeNode.__set_type MAP TTypeNode.ctor]
                    ++ thrift_nodes k) post).
      * cbn [bbind fst snd node_count sum_list_with]. do 3 f_equal. lia.
      * rewrite Htypes. cbn [app]. rewrite <- !app_assoc. reflexivity.
      * rewrite !length_app. cbn [length]. lia.
      * lia.
      * exact Hlen.
    + rewrite Htypes. cbn [app]. rewrite <- !app_assoc. reflexivity.
    + rewrite length_app. cbn [length]. lia.
    + lia.
    + exact Hlen.
  - (* TYPE_STRUCT *)
    destruct Hshape as (Hnames & -> & -> & ->).
    destruct (struct_node_fields fn) as [Hty Hfields].
    ctor_enter Hnode. rewrite Hty, Hfields.
    cbn [node_count sum_list_with] in Hfuel.
    rewrite (struct_children_reads_back fuel types cs IH' Hlen ltac:(lia)
               fn (pre ++ [struct_node fn]) post).
    + cbn [bbind fst snd app node_count]. do 3 f_equal. lia.
    + exact Hnames.
    + rewrite Htypes, <- app_assoc. reflexivity.
    + rewrite length_app. cbn [length]. lia.
Qed.

(** X17. A well-formed descriptor survives its thrift form: [to_thrift]
    returns, having appended the nodes of the descriptor after the ones
    the [TTypeDesc] held, and the constructor, started at the first of
    them, builds the same descriptor again and stops right behind the
    last of them, whatever follows in the vector. *)
Theorem thrift_round_trip (t : TypeDescriptor) (thrift_type : TTypeDesc.t)
    (rest : list TTypeNode.t) :
  well_formed t →
  Z.of_nat (length (TTypeDesc.types thrift_type) + node_count t + length rest)
  < 2 ^ 31 →
  ∃ thrift_type',
    to_thrift t thrift_type = Returned thrift_type'
    ∧ TTypeDesc.__isset_types thrift_type' = true
    ∧ take (length (TTypeDesc.types thrift_type)) (TTypeDesc.types thrift_type')
      = TTypeDesc.types thrift_type
    ∧ length (TTypeDesc.types thrift_type')
      = (length (TTypeDesc.types thrift_type) + node_count t)%nat
    ∧ TypeDescriptor_ctor (TTypeDesc.types thrift_type' ++ rest)
        (Z.of_nat (length (TTypeDesc.types thrift_type)))
      = Some (Returned (t, Z.of_nat (length (TTypeDesc.types thrift_type')))).
Proof.
  intros Hwf Hlen. eexists. split; [apply to_thrift_well_formed, Hwf |].
  unfold emplace_all. cbn [TTypeDesc.types TTypeDesc.__isset_types].
  split; [reflexivity |]. split; [apply take_app_length |].
  split; [rewrite length_app, length_thrift_nodes; reflexivity |].
  unfold TypeDescriptor_ctor.
  rewrite (ctor_within_thrift_nodes t Hwf _ _ (TTypeDesc.types thrift_type)
             rest _ (eq_sym (app_assoc _ _ _)) eq_refl).
  - rewrite length_app, length_thrift_nodes. do 3 f_equal. lia.
  - rewrite !length_app, length_thrift_nodes. lia.
  - rewrite !length_app, length_thrift_nodes. lia.
Qed.

(** X18. What the constructor builds has the shape of the node it
    started at: a scalar has no children and no field names, an array
    has one child and a map two, and a struct has one child for each
    struct field of the node and their names, in order; the last three
    carry -1 as length, precision and scale. *)
Theorem TypeDescriptor_ctor_shape (types : list TTypeNode.t) (idx : Z)
    (t : TypeDescriptor) (idx' : Z) :
  TypeDescriptor_ctor types idx = Some (Returned (t, idx')) →
  ∃ node,
    types !! Z.to_nat idx = Some node
    ∧ match TTypeNode.type node with
      | SCALAR =>
          type t = thrift_to_type (TScalarType.type (TTypeNode.scalar_type node))
          ∧ children t = [] ∧ field_names t = []
      | ARRAY =>
          type t = TYPE_ARRAY ∧ length (children t) = 1%nat
          ∧ field_names t = []
          ∧ len t = -1 ∧ precision t = -1 ∧ scale t = -1
      | MAP =>
          type t = TYPE_MAP ∧ length (children t) = 2%nat
          ∧ field_names t = []
          ∧ len t = -1 ∧ precision t = -1 ∧ scale t = -1
      | STRUCT =>
          type t = TYPE_STRUCT
          ∧ length (children t) = length (TTypeNode.struct_fields node)
          ∧ field_names t = TStructField.name <$> TTypeNode.struct_fields node
          ∧ len t = -1 ∧ precision t = -1 ∧ scale t = -1
      end.
Proof.
  unfold TypeDescriptor_ctor. cbn [TypeDescriptor_ctor_within]. intros Hret.
  do 2 apply BCHECK_returned in Hret.
  apply bbind_returned in Hret as (node & Hnode & Hret).
  injection Hnode as Hnode. apply at_index_returned in Hnode as [_ Hat].
  exists node. split; [exact Hat |].
  destruct (TTypeNode.type node).
  - apply BCHECK_returned in Hret. cbn zeta in Hret.
    destruct (thrift_to_type _) eqn:Hty;
      repeat apply BCHECK_returned in Hret;
      injection Hret as <- <-; cbn; auto.
  - do 2 apply BCHECK_returned in Hret.
    apply bbind_returned in Hret as ([c idx1] & _ & Hret).
    injection Hret as <- <-. cbn. auto 7.
  - do 2 apply BCHECK_returned in Hret.
    apply bbind_returned in Hret as ([k idx1] & _ & Hret).
    apply bbind_returned in Hret as ([v idx2] & _ & Hret).
    injection Hret as <- <-. cbn. auto 7.
  - apply bbind_returned in Hret as ([[names cs] idx1] & Hloop & Hret).
    injection Hret as <- <-. cbn [type children field_names len precision
                                    scale fst snd].
    assert (Hgen : ∀ fields names0 cs0 i,
              struct_children
                (TypeDescriptor_ctor_within (length types) types)
                fields names0 cs0 i
              = Some (Returned (names, cs, idx1)) →
              length cs = (length cs0 + length fields)%nat
              ∧ names = names0 ++ (TStructField.name <$> fields)).
    { clear. induction fields as [| f fields IH]; intros names0 cs0 i;
        cbn [struct_children].
      - intros [= <- <- <-]. rewrite app_nil_r. cbn. split; [lia | done].
      - intros Hret.
        apply bbind_returned in Hret as (r & _ & Hret).
        apply IH in Hret as [-> ->].
        rewrite length_app, <- app_assoc. cbn. split; [lia | done]. }
    apply Hgen in Hloop as [Hcs ->]. cbn in Hcs. auto 7.
Qed.

(** *** The protobuf constructor ends too *)








(** *** From a descriptor to protobuf and back *)

Definition own_pnode (t : TypeDescriptor) : PTypeNode.t :=
  match type t with
  | TYPE_ARRAY => PTypeNode.set_type ARRAY PTypeNode.ctor
  | TYPE_MAP => PTypeNode.set_type MAP PTypeNode.ctor
  | TYPE_STRUCT => struct_pnode (field_names t)
  | _ => scalar_pnode (type t) (len t) (scale t) (precision t)
  end.

Fixpoint protobuf_nodes (t : TypeDescriptor) : list PTypeNode.t :=
  match t with
  | Build_TypeDescriptor type len precision scale children field_names =>
      own_pnode (Build_TypeDescriptor type len precision scale children
                   field_names)
      :: concat (map protobuf_nodes children)
  end.

Definition add_all (nodes : list PTypeNode.t) (proto_type : PTypeDesc.t)
  : PTypeDesc.t :=
  {| PTypeDesc.types := PTypeDesc.types proto_type ++ nodes |}.

Lemma length_protobuf_nodes (t : TypeDescriptor) :
  length (protobuf_nodes t) = node_count t.
Proof.
  induction t as [ty l p sc cs fn IH] using descriptor_ind.
  cbn [protobuf_nodes node_count length]. f_equal.
  induction IH as [| c cs Hc _ IHcs]; cbn [map concat sum_list_with];
    [reflexivity |].
  rewrite length_app, Hc, IHcs. reflexivity.
Qed.

Lemma add_all_app (a b : list PTypeNode.t) (d : PTypeDesc.t) :
  add_all b (add_all a d) = add_all (a ++ b) d.
Proof. unfold add_all. cbn. rewrite app_assoc. reflexivity. Qed.

Lemma add_all_nil (d : PTypeDesc.t) : add_all [] d = d.
Proof. destruct d. unfold add_all. cbn. rewrite app_nil_r. reflexivity. Qed.

Definition each_to_protobuf
  : list TypeDescriptor → PTypeDesc.t → outcome PTypeDesc.t :=
  fix each children proto_type :=
    match children with
    | [] => Returned proto_type
    | child :: children =>
        let* proto_type := to_protobuf child proto_type in
        each children proto_type
    end.

Lemma each_to_protobuf_nodes (cs : list TypeDescriptor) :
  Forall (λ c, ∀ d, to_protobuf c d = Returned (add_all (protobuf_nodes c) d))
    cs →
  ∀ d, each_to_protobuf cs d
       = Returned (add_all (concat (map protobuf_nodes cs)) d).
Proof.
  induction 1 as [| c cs Hc _ IH]; intros d;
    cbn [each_to_protobuf map concat].
  - rewrite add_all_nil. reflexivity.
  - rewrite Hc. cbn [obind]. rewrite IH, add_all_app. reflexivity.
Qed.

(** [to_protobuf] does not look at the fields of a scalar, so it adds
    the nodes of any descriptor of the right shape. *)
Lemma to_protobuf_well_formed (scalar_ok : PrimitiveType → Z → Z → Z → Prop)
    (t : TypeDescriptor) :
  well_formed_with scalar_ok t →
  ∀ d, to_protobuf t d = Returned (add_all (protobuf_nodes t) d).
Proof.
  induction t as [ty l p sc cs fn IH] using descriptor_ind.
  intros Hwf d.
  pose proof (well_formed_children _ _ Hwf) as Hcs. cbn [children] in Hcs.
  assert (IH' : Forall (λ c, ∀ d, to_protobuf c d
                                  = Returned (add_all (protobuf_nodes c) d))
                  cs).
  { clear Hwf. induction IH as [| c cs Hc _ IHcs]; [constructor |].
    inversion Hcs; subst. constructor; auto. }
  cbn [to_protobuf protobuf_nodes]. unfold own_pnode. cbn [type].
  destruct Hwf as [Hshape _].
  destruct ty; cbn [field_names len scale precision];
    try (destruct Hshape as (Hnil & _); rewrite Hnil; reflexivity).
  - destruct Hshape as (Hlen & _).
    destruct cs as [| c [| ? ?]]; try discriminate Hlen.
    unfold Bloom.DCHECK. change (1 =? Z.of_nat (length [c])) with true.
    cbn [negb]. rewrite andb_false_r.
    rewrite (List.Forall_inv IH').
    change (add_types ?n d) with (add_all [n] d).
    rewrite add_all_app. cbn [map concat app].
    rewrite app_nil_r. reflexivity.
  - destruct Hshape as (Hlen & _).
    destruct cs as [| k [| v [| ? ?]]]; try discriminate Hlen.
    unfold Bloom.DCHECK. change (2 =? Z.of_nat (length [k; v])) with true.
    cbn [negb]. rewrite andb_false_r.
    rewrite (List.Forall_inv IH'). cbn [obind].
    rewrite (List.Forall_inv (List.Forall_inv_tail IH')).
    change (add_types ?n d) with (add_all [n] d).
    rewrite !add_all_app. cbn [map concat app].
    rewrite app_nil_r. reflexivity.
  - change (each_to_protobuf cs (add_all [struct_pnode fn] d)
            = Returned (add_all
                          (struct_pnode fn :: concat (map protobuf_nodes cs))
                          d)).
    rewrite each_to_protobuf_nodes by assumption.
    rewrite add_all_app. reflexivity.
Qed.

Lemma scalar_pnode_fields (ty : PrimitiveType) (l sc p : Z) :
  let node := scalar_pnode ty l sc p in
  let scalar_type := PTypeNode.scalar_type node in
  PTypeNode.type node = SCALAR
  ∧ PTypeNode.has_scalar_type node = true
  ∧ PScalarType.type scalar_type = primitive_to_thrift ty
  ∧ (if PScalarType.has_len scalar_type
     then PScalarType.len scalar_type else -1) = l
  ∧ (if PScalarType.has_scale scalar_type
     then PScalarType.scale scalar_type else -1) = sc
  ∧ (if PScalarType.has_precision scalar_type
     then PScalarType.precision scalar_type else -1) = p
  ∧ PScalarType.has_len scalar_type = negb (l =? -1)
  ∧ PScalarType.has_scale scalar_type = negb (sc =? -1)
  ∧ PScalarType.has_precision scalar_type = negb (p =? -1).
Proof.
  unfold scalar_pnode.
  destruct (Z.eqb_spec l (-1)), (Z.eqb_spec sc (-1)), (Z.eqb_spec p (-1));
    cbn; repeat split; congruence.
Qed.

Lemma struct_pnode_fields (fn : list string) :
  PTypeNode.type (struct_pnode fn) = STRUCT
  ∧ PTypeNode.struct_fields (struct_pnode fn)
    = (λ n, {| PStructField.name := n |}) <$> fn.
Proof.
  unfold struct_pnode.
  assert (Hfold : ∀ node,
            let node' :=
              foldl (λ node field_name,
                       PTypeNode.add_struct_fields field_name node) node fn in
            PTypeNode.type node' = PTypeNode.type node
            ∧ PTypeNode.struct_fields node'
              = PTypeNode.struct_fields node
                  ++ ((λ n, {| PStructField.name := n |}) <$> fn)).
  { induction fn as [| n fn IH]; intros node; cbn [foldl fmap list_fmap].
    - rewrite app_nil_r. split; reflexivity.
    - destruct (IH (PTypeNode.add_struct_fields n node)) as [Hty Hfs].
      cbn zeta. rewrite Hty, Hfs. cbn. rewrite <- app_assoc.
      split; reflexivity. }
  apply Hfold.
Qed.

Definition reads_back_pb (t : TypeDescriptor) : Prop :=
  ∀ fuel types pre post idx,
    types = pre ++ protobuf_nodes t ++ post →
    idx = Z.of_nat (length pre) →
    (node_count t ≤ fuel)%nat →
    Z.of_nat (length types) < 2 ^ 31 →
    TypeDescriptor_ctor_pb_within fuel types idx
    = Some (Returned (t, idx + Z.of_nat (node_count t))).

Lemma struct_children_pb_reads_back (fuel : nat) (types : list PTypeNode.t)
    (cs : list TypeDescriptor) :
  Forall reads_back_pb cs →
  Z.of_nat (length types) < 2 ^ 31 →
  (sum_list_with node_count cs ≤ fuel)%nat →
  ∀ names pre post field_names children idx,
    length names = length cs →
    types = pre ++ concat (map protobuf_nodes cs) ++ post →
    idx = Z.of_nat (length pre) →
    struct_children_pb (TypeDescriptor_ctor_pb_within fuel types)
      ((λ n, {| PStructField.name := n |}) <$> names)
      field_names children idx
    = Some (Returned (field_names ++ names, children ++ cs,
                      idx + Z.of_nat (sum_list_with node_count cs))).
Proof.
  intros Hcs Hlen.
  induction Hcs as [| c cs Hc _ IH];
    intros Hfuel names pre post field_names children idx Hnames Htypes Hidx.
  - destruct names; [| discriminate Hnames].
    cbn. rewrite !app_nil_r, Z.add_0_r. reflexivity.
  - destruct names as [| n names]; [discriminate Hnames |].
    cbn [fmap list_fmap struct_children_pb PStructField.name].
    cbn [sum_list_with] in Hfuel.
    cbn [map concat] in Htypes. rewrite <- app_assoc in Htypes.
    rewrite (Hc fuel types pre _ idx Htypes Hidx) by (lia || assumption).
    cbn [bbind fst snd].
    rewrite (IH ltac:(lia) names (pre ++ protobuf_nodes c) post).
    + cbn [sum_list_with]. rewrite <- !app_assoc. cbn [app].
      do 3 f_equal. lia.
    + cbn in Hnames. lia.
    + rewrite Htypes, <- app_assoc. reflexivity.
    + rewrite length_app, length_protobuf_nodes. lia.
Qed.

Ltac ctor_pb_enter Hnode :=
  cbn [TypeDescriptor_ctor_pb_within];
  rewrite BCHECK_true by (apply Z.leb_le; lia);
  rewrite BCHECK_true by (apply Z.ltb_lt; lia);
  rewrite Hnode; cbn [bbind];
  rewrite (to_i32_id (_ + 1)) by lia.

Lemma negb_eqb_true (x : Z) : x ≠ -1 → negb (x =? -1) = true.
Proof. intros Hx. apply negb_true_iff, Z.eqb_neq. exact Hx. Qed.

Lemma ctor_pb_within_scalar_node (fuel : nat) (types : list PTypeNode.t)
    (idx : Z) (ty : PrimitiveType) (l sc p : Z) :
  Count.at_index types idx = Returned (scalar_pnode ty l sc p) →
  0 ≤ idx < Z.of_nat (length types) → Z.of_nat (length types) < 2 ^ 31 →
  thrift_to_type (primitive_to_thrift ty) = ty →
  protobuf_scalar_ok ty l p sc →
  TypeDescriptor_ctor_pb_within (S fuel) types idx
  = Some (Returned (Build_TypeDescriptor ty l p sc [] [], idx + 1)).
Proof.
  intros Hnode Hidx Hlen Hconv Hok.
  destruct (scalar_pnode_fields ty l sc p)
    as (Hty & Hset & Hprim & Hl & Hsc & Hp & Hil & Hisc & Hip).
  ctor_pb_enter Hnode.
  rewrite Hty, BCHECK_true by exact Hset. cbn zeta.
  rewrite Hprim, Hconv, Hl, Hsc, Hp, Hil, Hisc, Hip.
  destruct ty; cbn [protobuf_scalar_ok] in Hok; try reflexivity;
    rewrite !BCHECK_true; try reflexivity;
    apply negb_eqb_true; tauto.
Qed.

Lemma ctor_pb_within_protobuf_nodes (t : TypeDescriptor) :
  well_formed_pb t → reads_back_pb t.
Proof.
  induction t as [ty l p sc cs fn IH] using descriptor_ind.
  intros Hwf.
  pose proof (well_formed_children _ _ Hwf) as Hcs. cbn [children] in Hcs.
  assert (IH' : Forall reads_back_pb cs).
  { clear Hwf. induction IH as [| c cs Hc _ IHcs]; [constructor |].
    inversion Hcs; subst. constructor; auto. }
  clear IH Hcs. destruct Hwf as [Hshape _].
  intros fuel types pre post idx Htypes Hidx Hfuel Hlen.
  destruct fuel as [| fuel]; [cbn [node_count] in Hfuel; lia |].
  cbn [protobuf_nodes] in Htypes.
  assert (Hsize : Z.of_nat (length types)
                  = idx + 1
                    + Z.of_nat (length (concat (map protobuf_nodes cs)))
                    + Z.of_nat (length post))
    by (rewrite Htypes, !length_app; cbn [length]; lia).
  assert (Hnode : Count.at_index types idx
                  = Returned (own_pnode (Build_TypeDescriptor ty l p sc cs fn))).
  { apply Count.at_index_lookup; [lia |].
    rewrite Hidx, Nat2Z.id, Htypes. cbn [app].
    apply list_lookup_middle. reflexivity. }
  unfold own_pnode in Hnode. cbn [type len scale precision field_names] in Hnode.
  destruct ty;
    try (destruct Hshape as (-> & -> & Hconv & Hok);
         rewrite (ctor_pb_within_scalar_node fuel types idx _ l sc p Hnode)
           by first [ assumption | lia ];
         cbn [node_count sum_list_with]; do 3 f_equal; lia).
  - (* TYPE_ARRAY *)
    destruct Hshape as (Hone & -> & -> & -> & ->).
    destruct cs as [| c [| ? ?]]; try discriminate Hone.
    pose proof (List.Forall_inv IH') as Hc.
    cbn [map concat] in *. rewrite app_nil_r in *.
    ctor_pb_enter Hnode. cbn [PTypeNode.type PTypeNode.set_type
                                PTypeNode.has_scalar_type PTypeNode.ctor].
    rewrite BCHECK_true by reflexivity.
    pose proof (length_protobuf_nodes c) as Hnc.
    pose proof (node_count_pos c) as Hpos.
    rewrite BCHECK_true by (apply Z.ltb_lt; lia).
    cbn [node_count sum_list_with] in Hfuel.
    rewrite (Hc fuel types
               (pre ++ [PTypeNode.set_type ARRAY PTypeNode.ctor])
               post (idx + 1)).
    + cbn [bbind fst snd node_count sum_list_with]. do 3 f_equal. lia.
    + rewrite Htypes, <- app_assoc. reflexivity.
    + rewrite length_app. cbn [length]. lia.
    + lia.
    + exact Hlen.
  - (* TYPE_MAP *)
    destruct Hshape as (Htwo & -> & -> & -> & ->).
    destruct cs as [| k [| v [| ? ?]]]; try discriminate Htwo.
    pose proof (List.Forall_inv IH') as Hk.
    pose proof (List.Forall_inv (List.Forall_inv_tail IH')) as Hv.
    cbn [map concat] in *. rewrite app_nil_r in *.
    rewrite length_app in *.
    ctor_pb_enter Hnode. cbn [PTypeNode.type PTypeNode.set_type
                                PTypeNode.has_scalar_type PTypeNode.ctor].
    rewrite BCHECK_true by reflexivity.
    pose proof (length_protobuf_nodes k) as Hnk.
    pose proof (length_protobuf_nodes v) as Hnv.
    pose proof (node_count_pos k) as Hposk.
    pose proof (node_count_pos v) as Hposv.
    cbn [node_count sum_list_with] in Hfuel.
    rewrite BCHECK_true by (apply Z.ltb_lt; lia).
    rewrite (Hk fuel types (pre ++ [PTypeNode.set_type MAP PTypeNode.ctor])
               (protobuf_nodes v ++ post) (idx + 1)).
    + cbn [bbind fst snd].
      rewrite (Hv fuel types
                 (pre ++ [PTypeNode.set_type MAP PTypeNode.ctor]
                    ++ protobuf_nodes k) post).
      * cbn [bbind fst snd node_count sum_list_with]. do 3 f_equal. lia.
      * rewrite Htypes. cbn [app]. rewrite <- !app_assoc. reflexivity.
      * rewrite !length_app. cbn [length]. lia.
      * lia.
      * exact Hlen.
    + rewrite Htypes. cbn [app]. rewrite <- !app_assoc. reflexivity.
    + rewrite length_app. cbn [length]. lia.
    + lia.
    + exact Hlen.
  - (* TYPE_STRUCT *)
    destruct Hshape as (Hnames & -> & -> & ->).
    destruct (struct_pnode_fields fn) as [Hty Hfields].
    ctor_pb_enter Hnode. rewrite Hty, Hfields.
    cbn [node_count sum_list_with] in Hfuel.
    rewrite (struct_children_pb_reads_back fuel types cs IH' Hlen ltac:(lia)
               fn (pre ++ [struct_pnode fn]) post).
    + cbn [bbind fst snd app node_count]. do 3 f_equal. lia.
    + exact Hnames.
    + rewrite Htypes, <- app_assoc. reflexivity.
    + rewrite length_app. cbn [length]. lia.
Qed.

(** X20. A descriptor that is well-formed for protobuf survives its
    protobuf form: [to_protobuf] returns, having added the nodes of the
    descriptor after the ones the [PTypeDesc] held, and the protobuf
    constructor, started at the first of them, builds the same
    descriptor again and stops right behind the last of them. *)
Theorem protobuf_round_trip (t : TypeDescriptor) (proto_type : PTypeDesc.t)
    (rest : list PTypeNode.t) :
  well_formed_pb t →
  Z.of_nat (length (PTypeDesc.types proto_type) + node_count t + length rest)
  < 2 ^ 31 →
  ∃ proto_type',
    to_protobuf t proto_type = Returned proto_type'
    ∧ take (length (PTypeDesc.types proto_type)) (PTypeDesc.types proto_type')
      = PTypeDesc.types proto_type
    ∧ length (PTypeDesc.types proto_type')
      = (length (PTypeDesc.types proto_type) + node_count t)%nat
    ∧ TypeDescriptor_ctor_pb (PTypeDesc.types proto_type' ++ rest)
        (Z.of_nat (length (PTypeDesc.types proto_type)))
      = Some (Returned (t, Z.of_nat (length (PTypeDesc.types proto_type')))).
Proof.
  intros Hwf Hlen. eexists.
  split; [apply (to_protobuf_well_formed _ _ Hwf) |].
  unfold add_all. cbn [PTypeDesc.types].
  split; [apply take_app_length |].
  split; [rewrite length_app, length_protobuf_nodes; reflexivity |].
  unfold TypeDescriptor_ctor_pb.
  rewrite (ctor_pb_within_protobuf_nodes t Hwf _ _ (PTypeDesc.types proto_type)
             rest _ (eq_sym (app_assoc _ _ _)) eq_refl).
  - rewrite length_app, length_protobuf_nodes. do 3 f_equal. lia.
  - rewrite !length_app, length_protobuf_nodes. lia.
  - rewrite !length_app, length_protobuf_nodes. lia.
Qed.

(** *** Where the two wire forms differ *)

Lemma BCHECK_false {A} (cond : bool) (k : bounded A) :
  dchecks = true → cond = false → BCHECK cond k = Some (Crash CheckFailed).
Proof. intros Hd ->. unfold BCHECK. rewrite Hd. reflexivity. Qed.

Lemma at_index_snoc {A} (pre : list A) (x : A) :
  Count.at_index (pre ++ [x]) (Z.of_nat (length pre)) = Returned x.
Proof.
  apply Count.at_index_lookup; [lia |].
  rewrite Nat2Z.id. apply list_lookup_middle. reflexivity.
Qed.

Definition is_character (ty : PrimitiveType) : bool :=
  match ty with
  | TYPE_CHAR | TYPE_VARCHAR | TYPE_HLL => true
  | _ => false
  end.

Definition is_sized_decimal (ty : PrimitiveType) : bool :=
  match ty with
  | TYPE_DECIMAL32 | TYPE_DECIMAL64 | TYPE_DECIMAL128 => true
  | _ => false
  end.

(** X21. With [DCHECK]s compiled in, the two constructors do not accept
    the same scalars.  A character type without a length goes through
    thrift and back unchanged, but the protobuf constructor aborts on
    what [to_protobuf] wrote for it; a [DECIMAL32], [DECIMAL64] or
    [DECIMAL128] without precision or scale goes through protobuf and
    back unchanged, but the thrift constructor aborts on what
    [to_thrift] wrote for it. *)
Theorem wire_forms_differ (ty : PrimitiveType) (l p sc : Z)
    (thrift_type : TTypeDesc.t) (proto_type : PTypeDesc.t) :
  dchecks = true →
  thrift_to_type (primitive_to_thrift ty) = ty →
  Z.of_nat (length (TTypeDesc.types thrift_type)) + 1 < 2 ^ 31 →
  Z.of_nat (length (PTypeDesc.types proto_type)) + 1 < 2 ^ 31 →
  (is_character ty = true ∧ l = -1)
  ∨ (is_sized_decimal ty = true ∧ (p = -1 ∨ sc = -1)) →
  let t := Build_TypeDescriptor ty l p sc [] [] in
  ∃ thrift_type' proto_type',
    to_thrift t thrift_type = Returned thrift_type'
    ∧ to_protobuf t proto_type = Returned proto_type'
    ∧ let by_thrift :=
        TypeDescriptor_ctor (TTypeDesc.types thrift_type')
          (Z.of_nat (length (TTypeDesc.types thrift_type))) in
      let by_protobuf :=
        TypeDescriptor_ctor_pb (PTypeDesc.types proto_type')
          (Z.of_nat (length (PTypeDesc.types proto_type))) in
      if is_character ty
      then by_thrift
           = Some (Returned
                     (t, Z.of_nat (length (TTypeDesc.types thrift_type)) + 1))
           ∧ by_protobuf = Some (Crash CheckFailed)
      else by_thrift = Some (Crash CheckFailed)
           ∧ by_protobuf
             = Some (Returned
                       (t, Z.of_nat (length (PTypeDesc.types proto_type)) + 1)).
Proof.
  intros Hd Hconv Hlen Hplen Hcase t.
  exists (emplace_back (scalar_node ty l sc p) thrift_type),
         (add_types (scalar_pnode ty l sc p) proto_type).
  assert (Hscalar : is_character ty = true ∨ is_sized_decimal ty = true)
    by tauto.
  split; [destruct ty, Hscalar; try discriminate; reflexivity |].
  split; [destruct ty, Hscalar; try discriminate; reflexivity |].
  cbn [emplace_back add_types TTypeDesc.types PTypeDesc.types]. cbn zeta.
  pose proof (at_index_snoc (TTypeDesc.types thrift_type)
                (scalar_node ty l sc p)) as Hnode.
  pose proof (at_index_snoc (PTypeDesc.types proto_type)
                (scalar_pnode ty l sc p)) as Hpnode.
  set (types := TTypeDesc.types thrift_type ++ [scalar_node ty l sc p]) in *.
  set (ptypes := PTypeDesc.types proto_type ++ [scalar_pnode ty l sc p]) in *.
  assert (Hsize : Z.of_nat (length types)
                  = Z.of_nat (length (TTypeDesc.types thrift_type)) + 1)
    by (subst types; rewrite length_app; cbn [length]; lia).
  assert (Hpsize : Z.of_nat (length ptypes)
                   = Z.of_nat (length (PTypeDesc.types proto_type)) + 1)
    by (subst ptypes; rewrite length_app; cbn [length]; lia).
  destruct (scalar_node_fields ty l sc p)
    as (Hty & Hset & Hprim & Hl & Hsc & Hp & Hisc & Hip).
  destruct (scalar_pnode_fields ty l sc p)
    as (Hpty & Hpset & Hpprim & Hpl & Hpsc & Hpp & Hpil & Hpisc & Hpip).
  unfold TypeDescriptor_ctor, TypeDescriptor_ctor_pb.
  destruct (is_character ty) eqn:Hchar.
  - destruct Hcase as [[_ ->] | [Hdec _]];
      [| destruct ty; discriminate].
    split.
    + apply (ctor_within_scalar_node _ types _ ty _ sc p Hnode);
        [lia | lia | exact Hconv |].
      destruct ty; discriminate.
    + ctor_pb_enter Hpnode.
      rewrite Hpty, BCHECK_true by exact Hpset. cbn zeta.
      rewrite Hpprim, Hconv, Hpil.
      destruct ty; try discriminate Hchar;
        apply BCHECK_false; (exact Hd || reflexivity).
  - destruct Hcase as [[Hc _] | [Hdec Hunset]]; [discriminate |].
    split.
    + ctor_enter Hnode.
      rewrite Hty, BCHECK_true by exact Hset. cbn zeta.
      rewrite Hprim, Hconv, Hisc, Hip.
      assert (Hfail : ∀ A (k : bounded A),
                BCHECK (negb (p =? -1)) (BCHECK (negb (sc =? -1)) k)
                = Some (Crash CheckFailed)).
      { intros A k. destruct (Z.eqb_spec p (-1)) as [Hp1 | Hp1].
        - apply BCHECK_false; [exact Hd | reflexivity].
        - rewrite BCHECK_true by reflexivity.
          apply BCHECK_false; [exact Hd |].
          destruct Hunset as [Hu | ->]; [contradiction | reflexivity]. }
      destruct ty; try discriminate Hdec; apply Hfail.
    + apply (ctor_pb_within_scalar_node _ ptypes _ ty l sc p Hpnode);
        [lia | lia | exact Hconv |].
      destruct ty; try discriminate Hdec; exact I.
Qed.

End Build.

(** *** A struct of an array and a map *)

Module Fixture.

(** A pair of conversions for the examples: the named types get codes
    of their own, any other type is its value. *)
Definition primitive_to_thrift (ty : PrimitiveType) : TPrimitiveType :=
  match ty with
  | TYPE_CHAR => 1001
  | TYPE_DECIMAL64 => 1002
  | TYPE_OTHER v => v
  | _ => 1000
  end.

Definition thrift_to_type (v : TPrimitiveType) : PrimitiveType :=
  if v =? 1001 then TYPE_CHAR
  else if v =? 1002 then TYPE_DECIMAL64
  else TYPE_OTHER v.

Definition scalar (type : PrimitiveType) (len precision scale : Z)
  : TypeDescriptor :=
  {| type := type; len := len; precision := precision; scale := scale;
     children := []; field_names := [] |}.

Definition nested (type : PrimitiveType) (children : list TypeDescriptor)
    (field_names : list string) : TypeDescriptor :=
  {| type := type; len := -1; precision := -1; scale := -1;
     children := children; field_names := field_names |}.

(** [STRUCT{a ARRAY<INT>, b MAP<CHAR(10), DECIMAL64(10, 2)>}] *)
Definition row : TypeDescriptor :=
  nested TYPE_STRUCT
    [nested TYPE_ARRAY [scalar (TYPE_OTHER 5) (-1) (-1) (-1)] [];
     nested TYPE_MAP
       [scalar TYPE_CHAR 10 (-1) (-1); scalar TYPE_DECIMAL64 (-1) 10 2] []]
    ["a"; "b"]%string.

Definition empty : TTypeDesc.t :=
  {| TTypeDesc.types := []; TTypeDesc.__isset_types := false |}.

Definition row_nodes : list TTypeNode.t := thrift_nodes primitive_to_thrift row.

Lemma row_well_formed : well_formed thrift_to_type primitive_to_thrift row.
Proof.
  cbn. unfold thrift_scalar_ok. cbn.
  repeat split; (reflexivity || discriminate).
Qed.

Example to_thrift_row :
  to_thrift true primitive_to_thrift row empty
  = Returned {| TTypeDesc.types := row_nodes; TTypeDesc.__isset_types := true |}.
Proof. reflexivity. Qed.

Example TypeDescriptor_ctor_row :
  TypeDescriptor_ctor true thrift_to_type row_nodes 0
  = Some (Returned (row, 6)).
Proof. reflexivity. Qed.

(** An array node at the end of the vector has no child to read. *)
Example TypeDescriptor_ctor_dangling_array :
  TypeDescriptor_ctor true thrift_to_type (take 2 row_nodes) 1
  = Some (Crash CheckFailed)
  ∧ TypeDescriptor_ctor false thrift_to_type (take 2 row_nodes) 1
    = Some (Crash OutOfBounds).
Proof. split; reflexivity. Qed.


Lemma thrift_round_trip_witness :
  ∃ thrift_type',
    to_thrift true primitive_to_thrift row empty = Returned thrift_type'
    ∧ TTypeDesc.__isset_types thrift_type' = true
    ∧ take 0 (TTypeDesc.types thrift_type') = []
    ∧ length (TTypeDesc.types thrift_type') = (0 + node_count row)%nat
    ∧ TypeDescriptor_ctor true thrift_to_type
        (TTypeDesc.types thrift_type' ++ []) 0
      = Some (Returned (row, Z.of_nat (length (TTypeDesc.types thrift_type')))).
Proof.
  apply (thrift_round_trip true thrift_to_type primitive_to_thrift row empty []).
  - exact row_well_formed.
  - reflexivity.
Defined.

Lemma TypeDescriptor_ctor_shape_witness :
  ∃ node,
    row_nodes !! 0%nat = Some node
    ∧ match TTypeNode.type node with
      | SCALAR =>
          type row
          = thrift_to_type (TScalarType.type (TTypeNode.scalar_type node))
          ∧ children row = [] ∧ field_names row = []
      | ARRAY =>
          type row = TYPE_ARRAY ∧ length (children row) = 1%nat
          ∧ field_names row = []
          ∧ len row = -1 ∧ precision row = -1 ∧ scale row = -1
      | MAP =>
          type row = TYPE_MAP ∧ length (children row) = 2%nat
          ∧ field_names row = []
          ∧ len row = -1 ∧ precision row = -1 ∧ scale row = -1
      | STRUCT =>
          type row = TYPE_STRUCT
          ∧ length (children row) = length (TTypeNode.struct_fields node)
          ∧ field_names row = TStructField.name <$> TTypeNode.struct_fields node
          ∧ len row = -1 ∧ precision row = -1 ∧ scale row = -1
      end.
Proof.
  apply (TypeDescriptor_ctor_shape true thrift_to_type row_nodes 0 row 6).
  reflexivity.
Defined.

Definition empty_pb : PTypeDesc.t := {| PTypeDesc.types := [] |}.

Lemma row_well_formed_pb :
  well_formed_pb thrift_to_type primitive_to_thrift row.
Proof. cbn. repeat split; (reflexivity || discriminate). Qed.

Example TypeDescriptor_ctor_pb_row :
  TypeDescriptor_ctor_pb true thrift_to_type
    (protobuf_nodes primitive_to_thrift row) 0
  = Some (Returned (row, 6)).
Proof. reflexivity. Qed.


Lemma protobuf_round_trip_witness :
  ∃ proto_type',
    to_protobuf true primitive_to_thrift row empty_pb = Returned proto_type'
    ∧ take 0 (PTypeDesc.types proto_type') = []
    ∧ length (PTypeDesc.types proto_type') = (0 + node_count row)%nat
    ∧ TypeDescriptor_ctor_pb true thrift_to_type
        (PTypeDesc.types proto_type' ++ []) 0
      = Some (Returned (row, Z.of_nat (length (PTypeDesc.types proto_type')))).
Proof.
  apply (protobuf_round_trip true thrift_to_type primitive_to_thrift row
           empty_pb []).
  - exact row_well_formed_pb.
  - reflexivity.
Defined.

Lemma wire_forms_differ_witness :
  let t := scalar TYPE_CHAR (-1) (-1) (-1) in
  ∃ thrift_type' proto_type',
    to_thrift true primitive_to_thrift t empty = Returned thrift_type'
    ∧ to_protobuf true primitive_to_thrift t empty_pb = Returned proto_type'
    ∧ TypeDescriptor_ctor true thrift_to_type (TTypeDesc.types thrift_type') 0
      = Some (Returned (t, 0 + 1))
    ∧ TypeDescriptor_ctor_pb true thrift_to_type
        (PTypeDesc.types proto_type') 0
      = Some (Crash CheckFailed).
Proof.
  apply (wire_forms_differ true thrift_to_type primitive_to_thrift
           TYPE_CHAR (-1) (-1) (-1) empty empty_pb).
  - reflexivity.
  - reflexivity.
  - reflexivity.
  - reflexivity.
  - left. split; reflexivity.
Defined.

End Fixture.

End Types.

(** ** NMysqlChannel (mysql/nio/NMysqlChannel.java) *)

Module NMysqlChannel.

(** A [java.nio.ByteBuffer], by its position and its limit. *)
Record ByteBuffer : Type := { position : Z; limit : Z }.

Definition remaining (b : ByteBuffer) : Z := limit b - position b.

(** A call that returns, or throws an [IOException]. *)
Inductive result (A : Type) : Type :=
  | Normal (a : A)
  | IOException (message : string).

Arguments Normal {A} a.
Arguments IOException {A} message.

Section Channel.

(** The connection, with the peer and all that lies behind it. *)
Variable StreamConnection : Type.

(** [Channels.readBlocking(conn.getSourceChannel(), dstBuf)]: what it
    returns, with the buffer and the connection after the call. *)
Variable readBlocking :
  StreamConnection → ByteBuffer → result (Z * ByteBuffer * StreamConnection).

(** [int readAll(ByteBuffer dstBuf)]: [readLen], the buffer and the
    connection after the call, where the loop ends within [fuel]
    reads. *)
Fixpoint readAll (fuel : nat) (conn : StreamConnection) (dstBuf : ByteBuffer)
    (readLen : Z) : option (result (Z * ByteBuffer * StreamConnection)) :=
  match fuel with
  | O => None
  | S fuel =>
      if remaining dstBuf =? 0 then Some (Normal (readLen, dstBuf, conn))
      else
        match readBlocking conn dstBuf with
        | IOException message => Some (IOException message)
        | Normal (ret, dstBuf, conn) =>
            if ret =? -1 then Some (Normal (readLen, dstBuf, conn))
            else readAll fuel conn dstBuf (to_i32 (readLen + ret))
        end
  end.

(** What a blocking read does on a buffer with room: at the end of the
    stream it returns -1 and leaves the buffer, otherwise it returns
    the number of bytes it has put into the buffer, at least one. *)
Definition blocking_read : Prop :=
  ∀ conn dstBuf ret dstBuf' conn',
    0 < remaining dstBuf →
    readBlocking conn dstBuf = Normal (ret, dstBuf', conn') →
    (ret = -1 ∧ dstBuf' = dstBuf)
    ∨ (1 ≤ ret ≤ remaining dstBuf
       ∧ position dstBuf' = position dstBuf + ret
       ∧ limit dstBuf' = limit dstBuf).

Lemma readAll_from (n : nat) :
  blocking_read →
  ∀ conn dstBuf readLen,
    Z.to_nat (remaining dstBuf) = n →
    0 ≤ remaining dstBuf → 0 ≤ readLen →
    readLen + remaining dstBuf < 2 ^ 31 →
    ∃ r,
      (∀ fuel, (n < fuel)%nat → readAll fuel conn dstBuf readLen = Some r)
      ∧ ∀ readLen' dstBuf' conn',
          r = Normal (readLen', dstBuf', conn') →
          readLen' = readLen + (position dstBuf' - position dstBuf)
          ∧ limit dstBuf' = limit dstBuf
          ∧ position dstBuf ≤ position dstBuf' ≤ limit dstBuf
          ∧ (remaining dstBuf' = 0
             ∨ ∃ conn0, readBlocking conn0 dstBuf'
                        = Normal (-1, dstBuf', conn')).
Proof.
  intros Hread.
  induction n as [n IH] using lt_wf_ind.
  intros conn dstBuf readLen Hn Hrem Hlen Hfit.
  destruct (Z.eqb_spec (remaining dstBuf) 0) as [Hzero | Hroom].
  - exists (Normal (readLen, dstBuf, conn)). split.
    + intros [| fuel] Hfuel; [lia |]. cbn [readAll].
      rewrite Hzero. reflexivity.
    + intros ? ? ? [= <- <- <-]. unfold remaining in *.
      repeat split; (lia || auto).
  - destruct (readBlocking conn dstBuf) as [[[ret dstBuf1] conn1] | message]
      eqn:Hcall.
    + assert (Hsome : 0 < remaining dstBuf) by lia.
      destruct (Hread _ _ _ _ _ Hsome Hcall)
        as [[-> ->] | (Hret & Hpos & Hlim)].
      * exists (Normal (readLen, dstBuf, conn1)). split.
        -- intros [| fuel] Hfuel; [lia |]. cbn [readAll].
           destruct (Z.eqb_spec (remaining dstBuf) 0); [contradiction |].
           rewrite Hcall. reflexivity.
        -- intros ? ? ? [= <- <- <-]. unfold remaining in *.
           repeat split; (lia || eauto).
      * assert (Hrem1 : remaining dstBuf1 = remaining dstBuf - ret)
          by (unfold remaining; lia).
        destruct (IH (Z.to_nat (remaining dstBuf1)) ltac:(lia)
                    conn1 dstBuf1 (readLen + ret) eq_refl)
          as (r & Hr & Hprops); [lia | lia | lia |].
        exists r. split.
        -- intros [| fuel] Hfuel; [lia |]. cbn [readAll].
           destruct (Z.eqb_spec (remaining dstBuf) 0); [contradiction |].
           rewrite Hcall.
           destruct (Z.eqb_spec ret (-1)); [lia |].
           rewrite Types.to_i32_id by lia. apply Hr. lia.
        -- intros readLen' dstBuf' conn' Heq.
           destruct (Hprops _ _ _ Heq) as (-> & Hl & Hp & Hend).
           unfold remaining in *. repeat split; (lia || auto).
    + exists (IOException message). split; [| discriminate].
      intros [| fuel] Hfuel; [lia |]. cbn [readAll].
      destruct (Z.eqb_spec (remaining dstBuf) 0); [contradiction |].
      rewrite Hcall. reflexivity.
Qed.

(** X22. Where every blocking read either reports the end of the stream
    or puts at least one byte into the buffer, [readAll] ends within as
    many reads as the buffer has room, plus one.  What it returns is
    the number of bytes by which the buffer has advanced, at most the
    room there was; it returns with room left only when the last read
    has reported the end of the stream. *)
Theorem readAll_counts (conn : StreamConnection) (dstBuf : ByteBuffer) :
  blocking_read →
  0 ≤ remaining dstBuf < 2 ^ 31 →
  ∃ r,
    (∀ fuel, (Z.to_nat (remaining dstBuf) < fuel)%nat →
       readAll fuel conn dstBuf 0 = Some r)
    ∧ ∀ readLen dstBuf' conn',
        r = Normal (readLen, dstBuf', conn') →
        readLen = position dstBuf' - position dstBuf
        ∧ 0 ≤ readLen ≤ remaining dstBuf
        ∧ limit dstBuf' = limit dstBuf
        ∧ (remaining dstBuf' = 0
           ∨ ∃ conn0, readBlocking conn0 dstBuf'
                      = Normal (-1, dstBuf', conn')).
Proof.
  intros Hread Hrem.
  destruct (readAll_from _ Hread conn dstBuf 0 eq_refl)
    as (r & Hr & Hprops); [lia | lia | lia |].
  exists r. split; [exact Hr |].
  intros readLen dstBuf' conn' Heq.
  destruct (Hprops _ _ _ Heq) as (-> & Hl & Hp & Hend).
  unfold remaining in *. repeat split; (lia || auto).
Qed.

End Channel.

(** *** A peer that sends seven bytes and closes *)

Module Fixture.

(** The connection is the number of bytes the peer has yet to send; a
    read takes what there is, at most three bytes at a time. *)
Definition readBlocking (conn : nat) (dstBuf : ByteBuffer)
  : result (Z * ByteBuffer * nat) :=
  match conn with
  | O => Normal (-1, dstBuf, conn)
  | S _ =>
      let n := Z.min (Z.min (Z.of_nat conn) 3) (remaining dstBuf) in
      Normal (n, {| position := position dstBuf + n; limit := limit dstBuf |},
              (conn - Z.to_nat n)%nat)
  end.

Definition buffer (size : Z) : ByteBuffer := {| position := 0; limit := size |}.

Lemma readBlocking_blocking_read : blocking_read nat readBlocking.
Proof.
  intros conn dstBuf ret dstBuf' conn' Hroom. unfold readBlocking.
  destruct conn as [| conn].
  - intros [= <- <- <-]. left. split; reflexivity.
  - intros [= <- <- <-]. right. cbn [position limit]. lia.
Qed.

Example readAll_filled :
  readAll nat readBlocking 5 7%nat (buffer 4) 0
  = Some (Normal (4, {| position := 4; limit := 4 |}, 3%nat)).
Proof. reflexivity. Qed.

Example readAll_closed :
  readAll nat readBlocking 11 7%nat (buffer 10) 0
  = Some (Normal (7, {| position := 7; limit := 10 |}, 0%nat)).
Proof. reflexivity. Qed.

Lemma readAll_counts_witness :
  ∃ r,
    (∀ fuel, (Z.to_nat (remaining (buffer 10)) < fuel)%nat →
       readAll nat readBlocking fuel 7%nat (buffer 10) 0 = Some r)
    ∧ ∀ readLen dstBuf' conn',
        r = Normal (readLen, dstBuf', conn') →
        readLen = position dstBuf' - position (buffer 10)
        ∧ 0 ≤ readLen ≤ remaining (buffer 10)
        ∧ limit dstBuf' = limit (buffer 10)
        ∧ (remaining dstBuf' = 0
           ∨ ∃ conn0, readBlocking conn0 dstBuf'
                      = Normal (-1, dstBuf', conn')).
Proof.
  apply (readAll_counts nat readBlocking 7%nat (buffer 10)).
  - exact readBlocking_blocking_read.
  - unfold remaining, buffer. cbn [limit position]. lia.
Defined.

End Fixture.

End NMysqlChannel.
